(** * strato-db: the SQLite wrapper and the event dispatch engine

    A shallow embedding of [SQLite.js] (SQL templating, busy retry and the
    transaction chain) and of the event-sourcing dispatch engine exercised by
    the [EventSourcingDB] tests. *)

From Stdlib Require Import ZArith Lia Bool Ascii String List.
From Stdlib Require Import Numbers.DecimalString.
From stdpp Require Import base option list strings gmap.

Import ListNotations.
Local Open Scope string_scope.
Local Open Scope list_scope.
Set Warnings "-register-all".
Set Default Proof Using "Type".

(** ** JavaScript values *)

(** The values that flow through the templating helper and through event
    payloads: [undefined], [null], booleans, numbers, strings, arrays and
    plain objects of these.  Numbers are the integers that JavaScript holds
    exactly and prints in plain decimal (magnitude at most 2^53, hence below
    1e21).  An object is a plain one (the prototype is [Object.prototype]
    and no key shadows its [toString]), given by its own keys in the order
    in which JavaScript enumerates them (integer-like keys first, in
    increasing order, then the others in insertion order).  Symbols,
    BigInts, functions and cyclic structures are not among these values. *)
Inductive jsval : Type :=
| JUndefined
| JNull
| JBool (b : bool)
| JNum (n : Z)
| JStr (s : string)
| JArr (items : list jsval)
| JObj (fields : list (string * jsval)).

Module JS.

Definition dquote : ascii := "034"%char.
Definition squote : ascii := "039"%char.
Definition backslash : ascii := "092"%char.
Definition DQ : string := String dquote EmptyString.
Definition SQ : string := String squote EmptyString.

(** [Number.prototype.toString] on an integer [n] with [|n| <= 2^53]: plain
    decimal digits.  (From 1e21 on JavaScript prints an exponent, and beyond
    2^53 not every integer is a number.) *)
Definition num_toString (n : Z) : string :=
  NilZero.string_of_int (Z.to_int n).

(** [arr.join(sep)] once every element has been turned into a string. *)
Fixpoint join (sep : string) (l : list string) : string :=
  match l with
  | [] => EmptyString
  | [x] => x
  | x :: rest => x +:+ sep +:+ join sep rest
  end.

(** The abstract operation ToString, as applied by [out += val] and by
    template literals. *)
Fixpoint ToString (v : jsval) : string :=
  match v with
  | JUndefined => "undefined"
  | JNull => "null"
  | JBool true => "true"
  | JBool false => "false"
  | JNum n => num_toString n
  | JStr s => s
  | JArr items =>
      join ","
        (map (fun x => match x with
                       | JUndefined | JNull => EmptyString
                       | _ => ToString x
                       end) items)
  | JObj _ => "[object Object]"
  end.

(** The method call [v.toString()]: a TypeError ([None]) on [null] and
    [undefined], ToString otherwise. *)
Definition toString (v : jsval) : option string :=
  match v with
  | JUndefined | JNull => None
  | _ => Some (ToString v)
  end.

(** [s.replace(/c/g, by)] for a one-character pattern. *)
Fixpoint replace_char (c : ascii) (by_ : string) (s : string) : string :=
  match s with
  | EmptyString => EmptyString
  | String a rest =>
      if Ascii.eqb a c then by_ +:+ replace_char c by_ rest
      else String a (replace_char c by_ rest)
  end.

Definition hex_digit (n : nat) : ascii :=
  nth n (list_ascii_of_string "0123456789abcdef") "0"%char.

(** How [JSON.stringify] writes one character of a string. *)
Definition json_escape_char (a : ascii) : string :=
  let n := nat_of_ascii a in
  if Ascii.eqb a dquote then String backslash DQ
  else if Ascii.eqb a backslash then String backslash (String backslash EmptyString)
  else if Nat.eqb n 8 then String backslash "b"
  else if Nat.eqb n 9 then String backslash "t"
  else if Nat.eqb n 10 then String backslash "n"
  else if Nat.eqb n 12 then String backslash "f"
  else if Nat.eqb n 13 then String backslash "r"
  else if Nat.ltb n 32 then
    String backslash
      ("u00" +:+ String (hex_digit (n / 16)) (String (hex_digit (n mod 16)) EmptyString))
  else String a EmptyString.

Fixpoint json_escape (s : string) : string :=
  match s with
  | EmptyString => EmptyString
  | String a rest => json_escape_char a +:+ json_escape rest
  end.

Definition json_string (s : string) : string := DQ +:+ json_escape s +:+ DQ.

(** [JSON.stringify] without indentation: [None] stands for the result
    [undefined] (a bare [undefined] has no serialisation).  The keys of an
    object are written in the order of the list, which is the enumeration
    order of the object (see [jsval]). *)
Fixpoint json_text (v : jsval) : option string :=
  match v with
  | JUndefined => None
  | JNull => Some "null"
  | JBool true => Some "true"
  | JBool false => Some "false"
  | JNum n => Some (num_toString n)
  | JStr s => Some (json_string s)
  | JArr items =>
      Some ("[" +:+ join "," (map (fun x => default "null" (json_text x)) items) +:+ "]")
  | JObj fields =>
      Some ("{" +:+
            join ","
              (omap (fun kv => match json_text (snd kv) with
                               | Some t => Some (json_string (fst kv) +:+ ":" +:+ t)
                               | None => None
                               end) fields)
            +:+ "}")
  end.

Definition JSON_stringify (v : jsval) : jsval :=
  match json_text v with
  | Some t => JStr t
  | None => JUndefined
  end.

End JS.

(** ** SQL templating ([SQLite.js], lines 28-76) *)

(** [quoteSqlId]: the identifier between double quotes, every double quote
    inside it doubled.  [s.toString()] throws on [null] and [undefined]. *)
Definition quoteSqlId (s : jsval) : option string :=
  match JS.toString s with
  | Some str => Some (JS.DQ +:+ JS.replace_char JS.dquote (JS.DQ +:+ JS.DQ) str +:+ JS.DQ)
  | None => None
  end.

(** [valToSql]: a value as an SQL literal. *)
Definition valToSql (v : jsval) : string :=
  match v with
  | JBool b => if b then "1" else "0"
  | JNum n => JS.num_toString n
  | JUndefined | JNull => "NULL"
  | _ => JS.SQ +:+ JS.replace_char JS.squote (JS.SQ +:+ JS.SQ) (JS.ToString v) +:+ JS.SQ
  end.

Inductive modifier : Type := ModID | ModJSON | ModLIT.

Definition modifier_text (m : modifier) : string :=
  match m with ModID => "ID" | ModJSON => "JSON" | ModLIT => "LIT" end.

(** The class [\w] of the regular expression. *)
Definition is_word_char (a : ascii) : bool :=
  let n := nat_of_ascii a in
  (Nat.leb 48 n && Nat.leb n 57) || (Nat.leb 65 n && Nat.leb n 90)
  || (Nat.leb 97 n && Nat.leb n 122) || Nat.eqb n 95.

(** [s.slice(p.length)] when [s] starts with [p]. *)
Fixpoint strip_prefix (p s : string) : option string :=
  match p, s with
  | EmptyString, _ => Some s
  | String a p', String b s' => if Ascii.eqb a b then strip_prefix p' s' else None
  | String _ _, EmptyString => None
  end.

(** [\b] right after a matched modifier (whose last character is a word
    character): the end of the string or a non-word character follows. *)
Definition word_boundary (rest : string) : bool :=
  match rest with
  | EmptyString => true
  | String a _ => negb (is_word_char a)
  end.

Definition match_modifier (m : modifier) (str : string) : option (modifier * string) :=
  match strip_prefix (modifier_text m) str with
  | Some rest => if word_boundary rest then Some (m, rest) else None
  | None => None
  end.

(** [/^(ID|JSON|LIT)\b/.exec(str)], with [str.slice(mod.length)]: the
    alternatives are tried in the order they are written. *)
Definition find_modifier (str : string) : option (modifier * string) :=
  match match_modifier ModID str with
  | Some r => Some r
  | None =>
      match match_modifier ModJSON str with
      | Some r => Some r
      | None => match_modifier ModLIT str
      end
  end.

(** The body of the [for] loop of [sql], from index [i] on: [strs] is
    [strings.slice(i)] and [vals] is [args.slice(i)]; a missing
    interpolation reads as [undefined].  [None] is the TypeError of
    [quoteSqlId]. *)
Fixpoint sql_loop (strs : list string) (vals : list jsval)
    (out : string) (vars : list jsval) : option (string * list jsval) :=
  match strs with
  | [] => Some (out, vars)
  | str :: strs' =>
      let val := hd JUndefined vals in
      match find_modifier str with
      | Some (ModID, rest) =>
          match quoteSqlId val with
          | Some q => sql_loop strs' (tl vals) ((out +:+ q) +:+ rest) vars
          | None => None
          end
      | Some (ModLIT, rest) =>
          sql_loop strs' (tl vals) ((out +:+ JS.ToString val) +:+ rest) vars
      | Some (ModJSON, rest) =>
          sql_loop strs' (tl vals) ((out +:+ "?") +:+ rest) (vars ++ [JS.JSON_stringify val])
      | None =>
          sql_loop strs' (tl vals) ((out +:+ "?") +:+ str) (vars ++ [val])
      end
  end.

(** [sql(strings, ...interpolations)]: [[out, vars]].  With an empty
    [strings] array the loop does not run and [out] is [strings[0]], that is
    [undefined]. *)
Definition sql (strings : list string) (interpolations : list jsval)
    : option (jsval * list jsval) :=
  match strings with
  | [] => Some (JUndefined, [])
  | s0 :: rest =>
      match sql_loop rest interpolations s0 [] with
      | Some (out, vars) => Some (JStr out, vars)
      | None => None
      end
  end.

(** *** Reading back what [sql] wrote (specification side) *)

(** How one interpolation is rendered and what it binds, in the words of the
    documentation of [sql]: identifiers quoted, literals pasted in, every
    other value a placeholder with the value (or its JSON text) bound. *)
Definition render_interpolation (m : option modifier) (val : jsval)
    : option (string * list jsval) :=
  match m with
  | Some ModID =>
      match quoteSqlId val with Some q => Some (q, []) | None => None end
  | Some ModLIT => Some (JS.ToString val, [])
  | Some ModJSON => Some ("?", [JS.JSON_stringify val])
  | None => Some ("?", [val])
  end.

(** The text of [strings[i]] that stays in the statement. *)
Definition template_text (str : string) : option modifier * string :=
  match find_modifier str with
  | Some (m, rest) => (Some m, rest)
  | None => (None, str)
  end.

(** A lexer for an SQL quoted identifier: after the opening quote, a
    doubled quote stands for one quote and a single quote closes the
    identifier; the result is the name and the text left over. *)
Fixpoint read_quoted_body (s : string) : option (string * string) :=
  match s with
  | EmptyString => None
  | String a rest =>
      if Ascii.eqb a JS.dquote then
        match rest with
        | String b rest' =>
            if Ascii.eqb b JS.dquote then
              match read_quoted_body rest' with
              | Some (name, after) => Some (String JS.dquote name, after)
              | None => None
              end
            else Some (EmptyString, rest)
        | EmptyString => Some (EmptyString, rest)
        end
      else
        match read_quoted_body rest with
        | Some (name, after) => Some (String a name, after)
        | None => None
        end
  end.

Definition read_sql_identifier (s : string) : option (string * string) :=
  match s with
  | String a rest => if Ascii.eqb a JS.dquote then read_quoted_body rest else None
  | EmptyString => None
  end.

Definition starts_with_dquote (s : string) : bool :=
  match s with
  | String a _ => Ascii.eqb a JS.dquote
  | EmptyString => false
  end.

(** ** Statements and busy retry ([SQLite.js], lines 13-37 and 314-360) *)

Definition RETRY_COUNT : nat := 10.

(** An error object: the [err] the driver hands to a callback, or the
    [Error] the wrapper throws.  [err_code] is its [code] property. *)
Record js_error : Type := mkError {
  err_message : string;
  err_code : option string
}.

Definition isBusyError (err : js_error) : bool :=
  match err_code err with
  | Some code => String.eqb code "SQLITE_BUSY"
  | None => false
  end.

(** How a promise settles. *)
Inductive settled (A : Type) : Type :=
| Fulfilled (value : A)
| Rejected (reason : js_error).
Arguments Fulfilled {A} value.
Arguments Rejected {A} reason.

(** What can be observed of a connection from outside. *)
Inductive effect : Type :=
| Issue (sql_text : string)   (* a query handed to the sqlite3 driver *)
| BusyWait (ms : nat)         (* one call of busyWait(), for ms milliseconds *)
| Emit (signal : string).     (* this.emit(signal) *)

(** The connection, as far as statements and transactions use it.  The
    driver is an oracle: [driver k q] is what it passes to the callback of
    the [k]-th query issued on the connection, when that query is [q].
    [random] is another one: [random k] is the integer the [k]-th
    [Math.random()] of a wait is turned into. *)
Record conn : Type := mkConn {
  name : string;
  driver : nat -> string -> settled jsval;
  random : nat -> nat;
  issued : nat;
  drawn : nat;
  inTransaction : bool;
  effects : list effect
}.

Definition record_effect (e : effect) (c : conn) : conn :=
  mkConn (name c) (driver c) (random c) (issued c) (drawn c) (inTransaction c)
    (effects c ++ [e]).

Definition issue (q : string) (c : conn) : conn :=
  mkConn (name c) (driver c) (random c) (S (issued c)) (drawn c) (inTransaction c)
    (effects c ++ [Issue q]).

Definition set_inTransaction (b : bool) (c : conn) : conn :=
  mkConn (name c) (driver c) (random c) (issued c) (drawn c) b (effects c).

(** [200 + Math.floor(Math.random() * 1000)], for the random integer [r]:
    [Math.random()] is below 1, so that the floor is below 1000. *)
Definition busy_delay (r : nat) : nat := 200 + r mod 1000.

(** [busyWait()]: a wait of a random length. *)
Definition wait (c : conn) : conn :=
  mkConn (name c) (driver c) (random c) (issued c) (S (drawn c)) (inTransaction c)
    (effects c ++ [BusyWait (busy_delay (random c (drawn c)))]).

(** Asynchronous code on one connection, run to its settlement. *)
Definition M (A : Type) : Type := conn -> settled A * conn.

Definition ret {A} (a : A) : M A := fun c => (Fulfilled a, c).
Definition throw {A} (e : js_error) : M A := fun c => (Rejected e, c).
Definition bind {A B} (m : M A) (k : A -> M B) : M B :=
  fun c =>
    match m c with
    | (Fulfilled a, c') => k a c'
    | (Rejected e, c') => (Rejected e, c')
    end.
(** [try { m }] with its outcome in hand: what a [catch] block sees. *)
Definition attempt {A} (m : M A) : M (settled A) :=
  fun c => let (r, c') := m c in (Fulfilled r, c').
Definition update (f : conn -> conn) : M unit := fun c => (Fulfilled tt, f c).

#[global] Instance M_ret : MRet M := @ret.
#[global] Instance M_bind : MBind M := fun A B k m => bind m k.

Definition emit (signal : string) : M unit := update (record_effect (Emit signal)).
Definition busyWait : M unit := update wait.

(** The error [_call] rejects with. *)
Definition sqlite_error (nm : string) (err : js_error) : js_error :=
  mkError (nm +:+ ": sqlite3: " +:+ err_message err) (err_code err).

(** The promise of [_call]: [runQuery] and the callback [cb].  The query is
    issued; on a busy error with [busyRetry--] still truthy it is issued
    again after [busyWait()], otherwise the promise settles. *)
Fixpoint call_loop (q : string) (busyRetry : nat) (c : conn) : settled jsval * conn :=
  let c1 := issue q c in
  match driver c (issued c) q with
  | Fulfilled out => (Fulfilled out, c1)
  | Rejected err =>
      if isBusyError err then
        match busyRetry with
        | S n => call_loop q n (wait c1)
        | O => (Rejected (sqlite_error (name c) err), c1)
        end
      else (Rejected (sqlite_error (name c) err), c1)
  end.

(** [_call(method, [q], this._sqlite, this.name)] on an open connection. *)
Definition _call (q : string) : M jsval := call_loop q RETRY_COUNT.

(** [exec(q)]: [await this._call('exec', ...)], nothing returned. *)
Definition exec (q : string) : M unit := _call q;; ret tt.

(** ** Transactions ([SQLite.js], lines 495-552) *)

(** [__withTransaction(fn, busyRetry)]. *)
Fixpoint __withTransaction (fn : M jsval) (busyRetry : nat) : M jsval :=
  begun ← attempt (update (set_inTransaction true);;
                    exec "BEGIN IMMEDIATE";;
                    emit "begin");
  match begun with
  | Rejected error =>
      if isBusyError error then
        match busyRetry with
        | S n => busyWait;; __withTransaction fn n
        | O => update (set_inTransaction false);; throw error
        end
      else update (set_inTransaction false);; throw error
  | Fulfilled _ =>
      outcome ← attempt fn;
      match outcome with
      | Rejected error =>
          exec "ROLLBACK";;
          update (set_inTransaction false);;
          emit "rollback";;
          emit "finally";;
          throw error
      | Fulfilled result =>
          exec "END";;
          update (set_inTransaction false);;
          emit "end";;
          emit "finally";;
          ret result
      end
  end.

(** The two halves of [__withTransaction] around the call of [fn]: opening
    the transaction (the first [try]/[catch], with its retries) and closing
    it once the promise of [fn] has settled. *)
Fixpoint begin_transaction (busyRetry : nat) : M unit :=
  begun ← attempt (update (set_inTransaction true);;
                    exec "BEGIN IMMEDIATE";;
                    emit "begin");
  match begun with
  | Rejected error =>
      if isBusyError error then
        match busyRetry with
        | S n => busyWait;; begin_transaction n
        | O => update (set_inTransaction false);; throw error
        end
      else update (set_inTransaction false);; throw error
  | Fulfilled _ => ret tt
  end.

Definition end_transaction (outcome : settled jsval) : M jsval :=
  match outcome with
  | Rejected error =>
      exec "ROLLBACK";;
      update (set_inTransaction false);;
      emit "rollback";;
      emit "finally";;
      throw error
  | Fulfilled result =>
      exec "END";;
      update (set_inTransaction false);;
      emit "end";;
      emit "finally";;
      ret result
  end.

(** *** The event loop around [withTransaction]

    [withTransaction] is followed one promise reaction at a time.  A call
    either throws (read-only connection), or is suspended in
    [await this._hold('transaction')] when [this._sqlite] is not set yet, or
    reaches line 512 and appends [nextTransaction] to [transactionP] with
    [then(nextTransaction, nextTransaction)].  The reaction of a link runs
    once the promise before it in the chain has settled, whichever way.
    [close()] takes [this._sqlite] away again (line 290): the calls made
    after it wait in [_hold] like those made before the first opening.  A
    statement of a transaction that finds [this._sqlite] unset waits in
    [_hold] too (line 317) until the connection is open again; the reactions
    below are followed to their end, that is with the connection reopened,
    which is taken to succeed. *)

Inductive phase : Type :=
| Chained                        (* registered on transactionP, not run yet *)
| Running                        (* fn() called, its promise pending *)
| Done (outcome : settled jsval). (* the promise of the link has settled *)

Record link : Type := mkLink {
  link_call : nat;        (* which call of withTransaction, counted from 0 *)
  link_fn : M jsval;
  link_phase : phase
}.

Inductive chain_event : Type :=
| FnCalled (call : nat)      (* result = await fn() starts *)
| FnSettled (call : nat)     (* ... and the promise of fn has settled *)
| BeginFailed (call : nat).  (* BEGIN IMMEDIATE failed for good: fn is never called *)

Record process : Type := mkProcess {
  db : conn;
  readOnly : bool;
  sqlite_open : bool;                 (* this._sqlite is set *)
  calls : nat;                        (* calls of withTransaction so far *)
  holding : list (nat * M jsval);     (* suspended in _hold, oldest first *)
  chain : list link;                  (* the links of transactionP, oldest first *)
  history : list chain_event
}.

Inductive label : Type :=
| Call (fn : M jsval)   (* somebody calls withTransaction(fn) *)
| Opened                (* _openDB assigns this._sqlite *)
| Resume                (* the oldest suspended caller continues after its await *)
| Start (i : nat)       (* the reaction nextTransaction of link i runs *)
| Finish (i : nat)      (* the promise of the fn of link i settles *)
| Closed.               (* somebody calls close(): this._sqlite = null (line 290) *)

Definition is_done (ph : phase) : bool :=
  match ph with Done _ => true | _ => false end.
Definition is_running (ph : phase) : bool :=
  match ph with Running => true | _ => false end.
Definition is_chained (ph : phase) : bool :=
  match ph with Chained => true | _ => false end.

(** [transactionP] before link [i] has settled: it is the initial
    [Promise.resolve()] or the promise of link [i - 1]. *)
Definition previous_settled (ch : list link) (i : nat) : bool :=
  match i with
  | O => true
  | S j => match ch !! j with
           | Some l => is_done (link_phase l)
           | None => false
           end
  end.

Definition set_phase (i : nat) (ph : phase) (ch : list link) : list link :=
  match ch !! i with
  | Some l => <[i := mkLink (link_call l) (link_fn l) ph]> ch
  | None => ch
  end.

(** [withTransaction(fn)], up to its first suspension: the call throws on a
    read-only connection, waits for the connection to open when
    [this._sqlite] is not set, and otherwise chains [nextTransaction]. *)
Definition withTransaction (fn : M jsval) (p : process) : process :=
  if readOnly p then
    (* throw new Error('DB is readonly') *)
    mkProcess (db p) (readOnly p) (sqlite_open p) (S (calls p))
      (holding p) (chain p) (history p)
  else if sqlite_open p then
    (* this.transactionP = this.transactionP.then(nextTransaction, nextTransaction) *)
    mkProcess (db p) (readOnly p) (sqlite_open p) (S (calls p))
      (holding p) (chain p ++ [mkLink (calls p) fn Chained]) (history p)
  else
    (* await this._hold('transaction') *)
    mkProcess (db p) (readOnly p) (sqlite_open p) (S (calls p))
      (holding p ++ [(calls p, fn)]) (chain p) (history p).

Definition step (lbl : label) (p : process) : option process :=
  match lbl with
  | Call fn => Some (withTransaction fn p)
  | Opened =>
      Some (mkProcess (db p) (readOnly p) true (calls p)
              (holding p) (chain p) (history p))
  | Resume =>
      match holding p with
      | (call, fn) :: rest =>
          if sqlite_open p then
            Some (mkProcess (db p) (readOnly p) (sqlite_open p) (calls p)
                    rest (chain p ++ [mkLink call fn Chained]) (history p))
          else None
      | [] => None
      end
  | Start i =>
      match chain p !! i with
      | Some l =>
          if is_chained (link_phase l) && previous_settled (chain p) i then
            match begin_transaction RETRY_COUNT (db p) with
            | (Fulfilled _, c) =>
                Some (mkProcess c (readOnly p) true (calls p) (holding p)
                        (set_phase i Running (chain p))
                        (history p ++ [FnCalled (link_call l)]))
            | (Rejected error, c) =>
                Some (mkProcess c (readOnly p) true (calls p) (holding p)
                        (set_phase i (Done (Rejected error)) (chain p))
                        (history p ++ [BeginFailed (link_call l)]))
            end
          else None
      | None => None
      end
  | Finish i =>
      match chain p !! i with
      | Some l =>
          if is_running (link_phase l) then
            let (outcome, c) := (r ← attempt (link_fn l); end_transaction r) (db p) in
            Some (mkProcess c (readOnly p) true (calls p) (holding p)
                    (set_phase i (Done outcome) (chain p))
                    (history p ++ [FnSettled (link_call l)]))
          else None
      | None => None
      end
  | Closed =>
      Some (mkProcess (db p) (readOnly p) false (calls p)
              (holding p) (chain p) (history p))
  end.

Fixpoint run (labels : list label) (p : process) : option process :=
  match labels with
  | [] => Some p
  | lbl :: rest =>
      match step lbl p with
      | Some p' => run rest p'
      | None => None
      end
  end.

(** A fresh connection object: nothing called, [transactionP] resolved. *)
Definition new_process (c : conn) (read_only opened : bool) : process :=
  mkProcess c read_only opened 0 [] [] [].

(** The calls whose [fn] has been called, in the order it happened. *)
Definition fn_calls (h : list chain_event) : list nat :=
  omap (fun e => match e with FnCalled k => Some k | _ => None end) h.

(** Reading a history from the left: [current] is the call whose [fn] is
    pending, if any.  A [fn] called while another one is pending, or a
    settlement of a [fn] that is not the pending one, is a violation
    ([None]). *)
Fixpoint pending (current : option nat) (h : list chain_event) : option (option nat) :=
  match h with
  | [] => Some current
  | FnCalled k :: rest =>
      match current with
      | None => pending (Some k) rest
      | Some _ => None
      end
  | FnSettled k :: rest =>
      match current with
      | Some k' => if Nat.eqb k k' then pending None rest else None
      | None => None
      end
  | BeginFailed _ :: rest =>
      match current with
      | None => pending None rest
      | Some _ => None
      end
  end.

(** At most one [fn] executes at a time. *)
Definition one_at_a_time (h : list chain_event) : bool :=
  match pending None h with Some _ => true | None => false end.

(** The calls whose link has been entered, in the order it happened. *)
Definition entered (h : list chain_event) : list nat :=
  omap (fun e => match e with
                 | FnCalled k | BeginFailed k => Some k
                 | FnSettled _ => None
                 end) h.

(** The shape of a chain under serial execution: settled links, then at
    most one link that is running, then links not started. *)
Fixpoint serial (ch : list link) : bool :=
  match ch with
  | [] => true
  | l :: rest =>
      match link_phase l with
      | Done _ => serial rest
      | _ => forallb (fun l' => is_chained (link_phase l')) rest
      end
  end.

Definition running_call (ch : list link) : option nat :=
  link_call <$> find (fun l => is_running (link_phase l)) ch.

(** Is some reaction ready to run? *)
Definition can_step (p : process) (lbl : label) : bool :=
  match step lbl p with Some _ => true | None => false end.

Definition quiescent (p : process) : bool :=
  negb (can_step p Resume)
  && forallb (fun i => negb (can_step p (Start i)) && negb (can_step p (Finish i)))
       (seq 0 (length (chain p))).

Definition count_event (f : chain_event -> bool) (h : list chain_event) : nat :=
  length (List.filter f h).

Definition is_FnCalled (k : nat) (e : chain_event) : bool :=
  match e with FnCalled k' => Nat.eqb k k' | _ => false end.
Definition is_FnSettled (k : nat) (e : chain_event) : bool :=
  match e with FnSettled k' => Nat.eqb k k' | _ => false end.
Definition is_BeginFailed (k : nat) (e : chain_event) : bool :=
  match e with BeginFailed k' => Nat.eqb k k' | _ => false end.

(** The statement and the bound variables, read off the template from left
    to right: each [strings[i]] (i >= 1) contributes the rendering of its
    interpolation followed by its text without the modifier. *)
Fixpoint render_all (strs : list string) (vals : list jsval)
    : option (string * list jsval) :=
  match strs with
  | [] => Some (EmptyString, [])
  | str :: strs' =>
      let (m, text) := template_text str in
      match render_interpolation m (hd JUndefined vals) with
      | Some (piece, bound) =>
          match render_all strs' (tl vals) with
          | Some (out, vars) => Some (piece +:+ text +:+ out, (bound ++ vars)%list)
          | None => None
          end
      | None => None
      end
  end.

(** What the claim that literals are escaped would mean: a [LIT]
    interpolation comes out as the SQL literal [valToSql] writes. *)
Definition lit_is_escaped : Prop :=
  forall (before : string) (val : jsval),
    sql [before; "LIT"] [val] = Some (JStr (before +:+ valToSql val), []).

(** The call an event is about. *)
Definition event_call (e : chain_event) : nat :=
  match e with FnCalled k | FnSettled k | BeginFailed k => k end.

(** What the history says of call [k], given the phase of its link. *)
Definition counts_ok (k : nat) (ph : phase) (h : list chain_event) : Prop :=
  match ph with
  | Chained =>
      count_event (is_FnCalled k) h = 0 /\ count_event (is_FnSettled k) h = 0
      /\ count_event (is_BeginFailed k) h = 0
  | Running =>
      count_event (is_FnCalled k) h = 1 /\ count_event (is_FnSettled k) h = 0
      /\ count_event (is_BeginFailed k) h = 0
  | Done _ =>
      (count_event (is_FnCalled k) h = 1 /\ count_event (is_FnSettled k) h = 1
       /\ count_event (is_BeginFailed k) h = 0)
      \/ (count_event (is_FnCalled k) h = 0 /\ count_event (is_FnSettled k) h = 0
          /\ count_event (is_BeginFailed k) h = 1)
  end.

(** The invariant of the event loop. *)
Record chain_inv (p : process) : Prop := mkChainInv {
  inv_serial : serial (chain p) = true;
  inv_pending : pending None (history p) = Some (running_call (chain p));
  inv_entered :
    entered (history p)
    = map link_call (List.filter (fun l => negb (is_chained (link_phase l))) (chain p));
  inv_nodup : NoDup (map link_call (chain p) ++ map fst (holding p));
  inv_bound : Forall (fun k => k < calls p) (map link_call (chain p) ++ map fst (holding p));
  inv_counts : Forall (fun l => counts_ok (link_call l) (link_phase l) (history p)) (chain p);
  inv_others :
    forall k, k ∉ map link_call (chain p) -> counts_ok k Chained (history p)
}.

(** What the claim that transactions run in the order of the calls would
    mean, whatever the state of the connection. *)
Definition fns_run_in_call_order : Prop :=
  forall c read_only opened labels p,
    run labels (new_process c read_only opened) = Some p ->
    fn_calls (history p) `sublist_of` seq 0 (calls p).

(** *** Vocabulary for the busy-retry properties *)

Definition BEGIN_IMMEDIATE : string := "BEGIN IMMEDIATE".

(** [n] issues of [q] that came back busy, each followed by a wait; [d]
    random numbers have been drawn before. *)
Fixpoint busy_effects (q : string) (r : nat -> nat) (d n : nat) : list effect :=
  match n with
  | O => []
  | S n' => Issue q :: BusyWait (busy_delay (r d)) :: busy_effects q r (S d) n'
  end.

(** The connection after [n] such rounds. *)
Definition after_busy (q : string) (n : nat) (c : conn) : conn :=
  mkConn (name c) (driver c) (random c) (issued c + n) (drawn c + n) (inTransaction c)
    (effects c ++ busy_effects q (random c) (drawn c) n).

(** A wait lasts from 200 ms to just under 1200 ms. *)
Definition wait_in_range (e : effect) : Prop :=
  match e with
  | BusyWait ms => 200 <= ms < 1200
  | _ => True
  end.

(** The driver answers SQLITE_BUSY to the next [n] issues of [q]. *)
Definition driver_busy (c : conn) (q : string) (n : nat) : Prop :=
  forall k, k < n ->
    exists err, driver c (issued c + k) q = Rejected err /\ isBusyError err = true.

(** A driver that is busy for the first [n] queries and then succeeds. *)
Definition busy_then_ok (n : nat) : nat -> string -> settled jsval :=
  fun k _ => if Nat.ltb k n then Rejected (mkError "database is locked" (Some "SQLITE_BUSY"))
             else Fulfilled JUndefined.

Definition fresh_conn (d : nat -> string -> settled jsval) : conn :=
  mkConn "db|1" d (fun k => 137 * k) 0 0 false [].

(** On a connection that was open before the first call nobody is ever
    suspended, and the chain holds the calls in the order they were made. *)
Definition opened_inv (p : process) : Prop :=
  sqlite_open p = true /\ holding p = []
  /\ map link_call (chain p) = if readOnly p then [] else seq 0 (calls p).

(** How many reactions are still to run. *)
Definition phase_work (ph : phase) : nat :=
  match ph with Chained => 2 | Running => 1 | Done _ => 0 end.

Definition pending_work (p : process) : nat :=
  3 * length (holding p) + list_sum (map (fun l => phase_work (link_phase l)) (chain p)).

(** The call behind a link has run its course: its promise has settled, and
    [fn] was executed exactly once, unless [BEGIN IMMEDIATE] failed for this
    very call. *)
Definition ran_once (h : list chain_event) (l : link) : Prop :=
  exists outcome,
    link_phase l = Done outcome
    /\ ((count_event (is_FnCalled (link_call l)) h = 1
         /\ count_event (is_FnSettled (link_call l)) h = 1
         /\ count_event (is_BeginFailed (link_call l)) h = 0)
        \/ (count_event (is_FnCalled (link_call l)) h = 0
            /\ count_event (is_BeginFailed (link_call l)) h = 1)).

(** Two callbacks for examples: one that throws, one that returns 7. *)
Definition fn_throws : M jsval := throw (mkError "boom" None).
Definition fn_returns : M jsval := ret (JNum 7).

(** A driver that never fails. *)
Definition healthy_conn : conn := fresh_conn (busy_then_ok 0).

(** The labels that stand for a promise reaction of the wrapper itself
    (rather than for a new call or the end of the opening). *)
Definition is_Closed (lbl : label) : bool :=
  match lbl with Closed => true | _ => false end.

Definition is_reaction (lbl : label) : bool :=
  match lbl with
  | Resume | Start _ | Finish _ => true
  | Call _ | Opened | Closed => false
  end.

(** Two calls on an open connection, each run to its end in turn. *)
Definition two_calls : list label :=
  [Call fn_throws; Call fn_returns; Start 0; Finish 0; Start 1; Finish 1].

(** A call made while the connection is opening, a second one made right
    after [this._sqlite] is set, and only then the first one resuming. *)
Definition overtaking_calls : list label :=
  [Call fn_throws; Opened; Call fn_returns; Resume;
   Start 0; Finish 0; Start 1; Finish 1].

(** The same after [close()] on a connection that was open: the first call
    is made once [close()] has taken [this._sqlite] away, the second one
    right after the connection has been opened again. *)
Definition overtaking_after_close : list label :=
  [Closed; Call fn_throws; Opened; Call fn_returns; Resume;
   Start 0; Finish 0; Start 1; Finish 1].

(** * The event dispatch engine

    The source of the engine itself ([EventSourcingDB], with its queue and
    its test helper) is absent: only its tests are at hand ([events.js] and
    the sub-event tests).  The handlers of the tests are embedded below as
    they are written; the engine they run on is modelled from the
    specification, section by section. *)

(** ** Documents *)

(** A row is a document: the fields of an object, in insertion order. *)
Abbreviation row := (list (string * jsval)).

(** [obj[key]] *)
Fixpoint obj_get (key : string) (fields : row) : option jsval :=
  match fields with
  | [] => None
  | (k, v) :: rest => if String.eqb k key then Some v else obj_get key rest
  end.

(** [obj[key] = v]: an existing key keeps its place. *)
Fixpoint obj_set (key : string) (v : jsval) (fields : row) : row :=
  match fields with
  | [] => [(key, v)]
  | (k, w) :: rest =>
      if String.eqb k key then (k, v) :: rest else (k, w) :: obj_set key v rest
  end.

(** [{...a, ...b}] *)
Definition obj_merge (a b : row) : row :=
  fold_left (fun acc kv => obj_set (fst kv) (snd kv) acc) b a.

(** The primary key of a row, as the text the table is keyed by. *)
Definition row_id (r : row) : option string :=
  match obj_get "id" r with
  | Some JUndefined | Some JNull | None => None
  | Some v => Some (JS.ToString v)
  end.

(** ** Events, reductions, models *)

(** Modelled from the spec: the argument of the engine's [dispatch] inside
    a handler (section 6, handler interface; the engine's source is absent).
    What [dispatch(type, data)] inside a handler, or an entry of the
    [events] key of a reduction, asks for. *)
Record dispatched : Type := mkDispatched {
  d_type : string;
  d_data : jsval
}.

(** Modelled from the spec: the reduction result of the engine (section 3;
    the engine's source is absent): what a reducer returns. *)
Record reduction : Type := mkReduction {
  red_set : list row;
  red_ins : list row;
  red_upd : list row;
  red_rm : list jsval;
  red_events : list dispatched
}.

Definition error_map : Type := list (string * jsval).

(** Modelled from the spec: the event record of the engine (section 3; the
    engine's source is absent).  [ev_v] and [ev_type] are optional because a handler can set
    or delete them; [ev_result], [ev_events] and [ev_error] are null until
    the engine fills them. *)
Inductive event : Type := mkEvent {
  ev_v : option nat;
  ev_type : option string;
  ev_ts : Z;
  ev_data : jsval;
  ev_result : option (list (string * reduction));
  ev_events : option (list event);
  ev_error : option error_map
}.

Definition with_events (evs : option (list event)) (e : event) : event :=
  mkEvent (ev_v e) (ev_type e) (ev_ts e) (ev_data e) (ev_result e) evs (ev_error e).
Definition with_result (r : option (list (string * reduction))) (e : event) : event :=
  mkEvent (ev_v e) (ev_type e) (ev_ts e) (ev_data e) r (ev_events e) (ev_error e).
Definition with_error (err : option error_map) (e : event) : event :=
  mkEvent (ev_v e) (ev_type e) (ev_ts e) (ev_data e) (ev_result e) (ev_events e) err.
Definition with_type (t : option string) (e : event) : event :=
  mkEvent (ev_v e) t (ev_ts e) (ev_data e) (ev_result e) (ev_events e) (ev_error e).
Definition with_v (v : option nat) (e : event) : event :=
  mkEvent v (ev_type e) (ev_ts e) (ev_data e) (ev_result e) (ev_events e) (ev_error e).
Definition with_data (d : jsval) (e : event) : event :=
  mkEvent (ev_v e) (ev_type e) (ev_ts e) d (ev_result e) (ev_events e) (ev_error e).

(** The types of an event tree, parent first, children in order. *)
Fixpoint preorder (e : event) : list string :=
  match e with
  | mkEvent _ t _ _ _ evs _ =>
      default EmptyString t
      :: match evs with
         | Some children => flat_map preorder children
         | None => []
         end
  end.

(** Modelled from the spec: the persisted state behind the engine (sections
    3 and 6; the engine's source is absent): the tables of the models and
    the version [V] of the metadata model. *)
Record db_state : Type := mkState {
  tables : gmap string (gmap string row);
  version : nat
}.

Definition table_of (model_name : string) (s : db_state) : gmap string row :=
  default ∅ (tables s !! model_name).

(** [store.<model>.get(id)] *)
Definition model_get (model_name id : string) (s : db_state) : option row :=
  table_of model_name s !! id.

Definition with_table (model_name : string) (t : gmap string row) (s : db_state)
    : db_state :=
  mkState (<[model_name := t]> (tables s)) (version s).

(** [model.set(row)] through the writable view; [None] when the row has no
    id. *)
Definition model_set (model_name : string) (r : row) (s : db_state) : option db_state :=
  match row_id r with
  | Some id => Some (with_table model_name (<[id := r]> (table_of model_name s)) s)
  | None => None
  end.

(** Modelled from the spec: the handler interface of the engine (sections 3
    and 6; the engine's source is absent).
    The context a handler is called with; [dispatch] shows in what the
    handler hands back. *)
Record context : Type := mkContext {
  ctx_event : event;
  ctx_model : string;
  ctx_store : db_state;
  ctx_isMainEvent : bool
}.

Inductive pre_result : Type :=
| PreNothing                  (* returns undefined *)
| PreEvent (e : event)        (* returns an event *)
| PreError (error : jsval)    (* returns {error} *)
| PreThrows (error : jsval).  (* throws *)

(** A preprocessor leaves the event it was given as [pre_event] (mutated in
    place or not), returns [pre_returned] and has dispatched
    [pre_dispatched]. *)
Record pre_outcome : Type := mkPre {
  pre_event : event;
  pre_returned : pre_result;
  pre_dispatched : list dispatched
}.

Inductive red_outcome : Type :=
| RedThrows (error : jsval)
| RedReturns (r : option reduction) (children : list dispatched).

(** A deriver writes to the tables of the models; the metadata model is
    the engine's own. *)
Inductive der_outcome : Type :=
| DerThrows (error : jsval)
| DerReturns (written : gmap string (gmap string row)) (children : list dispatched).

Record model : Type := mkModel {
  preprocessor : option (context -> pre_outcome);
  reducer : option (context -> red_outcome);
  deriver : option (context -> der_outcome)
}.

(** The registry, in insertion order. *)
Abbreviation registry := (list (string * model)).

(** ** The pipeline *)

(** Modelled from the spec: the maximum dispatch depth of the engine
    (section 4.3, recursion depth guard: implementation-defined, e.g. 100). *)
Definition MAX_DEPTH : nat := 100.

(** The type path of a chain of sub-events, as it shows in error text. *)
Definition type_path (path : list string) : string :=
  fold_right (fun t acc => "." +:+ t +:+ acc) EmptyString path.

(** Modelled from the spec: how the engine marks an event as failed
    (sections 7 and 9, error shape): the error map of the event that is
    aborted holds the cause under the key of the phase and the model. *)
Definition fail_event (key : string) (cause : jsval) (e : event) : event :=
  with_error (Some [(key, cause)]) e.

(** Modelled from the spec: the child events of the engine (section 3; the
    engine's source is absent).
    The event a child request stands for: it inherits the [v] of its parent
    (section 3) and its timestamp. *)
Definition child_event (parent : event) (d : dispatched) : event :=
  mkEvent (ev_v parent) (Some (d_type d)) (ev_ts parent) (d_data d) None None None.

(** The event a preprocessor hands on: the one it returned, or else the one
    it was given, as it left it. *)
Definition effective_event (out : pre_outcome) : event :=
  match pre_returned out with
  | PreEvent r => r
  | _ => pre_event out
  end.

(** Modelled from the spec: the preprocess phase of [_preprocessor] of the
    engine, whose source is absent (section 4.3, phase 1).  Each model with a preprocessor is called in
    registry order with the current event.  [{error}] (or an exception)
    aborts with [_preprocess_<model>] set to that value; an event whose [v]
    changed or
    whose [type] is gone aborts with a text that names the field (the
    version is checked first).  Otherwise the returned event, or the event
    as the handler left it, goes on to the next model. *)
Fixpoint preprocess (models : registry) (s : db_state)
    (isMain : bool) (e : event) (children : list dispatched)
    : event + event * list dispatched :=
  match models with
  | [] => inr (e, children)
  | (name, m) :: rest =>
      match preprocessor m with
      | None => preprocess rest s isMain e children
      | Some pp =>
          let out := pp (mkContext e name s isMain) in
          let key := "_preprocess_" +:+ name in
          match pre_returned out with
          | PreError error | PreThrows error => inl (fail_event key error e)
          | _ =>
              let e' := effective_event out in
              if negb (bool_decide (ev_v e' = ev_v e)) then
                inl (fail_event key
                       (JStr "preprocessor must retain the event version") e)
              else
                match ev_type e' with
                | None =>
                    inl (fail_event key
                           (JStr "preprocessor must retain the event type") e)
                | Some _ =>
                    preprocess rest s isMain e' (children ++ pre_dispatched out)
                end
          end
      end
  end.

(** Modelled from the spec: the reduce phase (section 4.3, phase 2).  Each
    reducer is called in registry order with the state before any write; a
    non-falsy reduction is collected under the name of its model; what the
    reducer dispatched and the [events] it returned become children, in
    that order.  A reducer that throws fails the event under
    [_reduce_<model>]. *)
Fixpoint reduce (models : registry) (s : db_state) (isMain : bool) (e : event)
    (results : list (string * reduction)) (children : list dispatched)
    : string * jsval + list (string * reduction) * list dispatched :=
  match models with
  | [] => inr (results, children)
  | (name, m) :: rest =>
      match reducer m with
      | None => reduce rest s isMain e results children
      | Some red =>
          match red (mkContext e name s isMain) with
          | RedThrows error => inl ("_reduce_" +:+ name, error)
          | RedReturns None dispatched_ =>
              reduce rest s isMain e results (children ++ dispatched_)
          | RedReturns (Some r) dispatched_ =>
              reduce rest s isMain e (results ++ [(name, r)])
                (children ++ dispatched_ ++ red_events r)
          end
      end
  end.

(** Writes of one reduction on one table, each [None] on a failed write. *)
Definition apply_rm (ids : list jsval) (t : gmap string row) : gmap string row :=
  fold_left (fun acc id => delete (JS.ToString id) acc) ids t.

Fixpoint apply_ins (rows : list row) (t : gmap string row) : option (gmap string row) :=
  match rows with
  | [] => Some t
  | r :: rest =>
      match row_id r with
      | Some id =>
          match t !! id with
          | Some _ => None      (* id collision *)
          | None => apply_ins rest (<[id := r]> t)
          end
      | None => None
      end
  end.

Fixpoint apply_set (rows : list row) (t : gmap string row) : option (gmap string row) :=
  match rows with
  | [] => Some t
  | r :: rest =>
      match row_id r with
      | Some id => apply_set rest (<[id := r]> t)
      | None => None
      end
  end.

Fixpoint apply_upd (rows : list row) (t : gmap string row) : option (gmap string row) :=
  match rows with
  | [] => Some t
  | r :: rest =>
      match row_id r with
      | Some id => apply_upd rest (<[id := obj_merge (default [] (t !! id)) r]> t)
      | None => None
      end
  end.

(** Modelled from the spec: the writes of one reduction (section 4.3,
    phase 3): within a model, [rm], then [ins] (failing on an id that
    exists), then [set], then [upd]. *)
Definition apply_reduction (r : reduction) (t : gmap string row)
    : option (gmap string row) :=
  t1 ← apply_ins (red_ins r) (apply_rm (red_rm r) t);
  t2 ← apply_set (red_set r) t1;
  apply_upd (red_upd r) t2.

Fixpoint lookup_result (name : string) (results : list (string * reduction))
    : option reduction :=
  match results with
  | [] => None
  | (n, r) :: rest => if String.eqb n name then Some r else lookup_result name rest
  end.

Fixpoint apply_models (models : registry) (results : list (string * reduction))
    (s : db_state) : string * jsval + db_state :=
  match models with
  | [] => inr s
  | (name, _) :: rest =>
      match lookup_result name results with
      | None => apply_models rest results s
      | Some r =>
          match apply_reduction r (table_of name s) with
          | Some t => apply_models rest results (with_table name t s)
          | None => inl ("_apply_" +:+ name, JStr "write failed")
          end
      end
  end.

Definition set_version (v : option nat) (s : db_state) : db_state :=
  match v with
  | Some n => mkState (tables s) n
  | None => s
  end.

(** Modelled from the spec: [_applyEvent(event, isMainEvent)] (section 4.3,
    phase 3): the reductions of [event.result] are written, models in
    registry order, and for a root event the version [V] of the metadata
    model becomes the [v] of the event; a sub-event leaves [V] alone. *)
Definition _applyEvent (models : registry) (s : db_state) (e : event) (isMain : bool)
    : string * jsval + db_state :=
  match apply_models models (default [] (ev_result e)) s with
  | inl err => inl err
  | inr s' => inr (if isMain then set_version (ev_v e) s' else s')
  end.

(** Modelled from the spec: the derive phase (section 4.3, phase 4).  Each
    deriver is called in registry order with the state after the writes; it
    may write through the writable view and dispatch.  A deriver that
    throws fails the event under [_derive_<model>]. *)
Fixpoint derive (models : registry) (s : db_state) (isMain : bool) (e : event)
    (children : list dispatched) : string * jsval + db_state * list dispatched :=
  match models with
  | [] => inr (s, children)
  | (name, m) :: rest =>
      match deriver m with
      | None => derive rest s isMain e children
      | Some der =>
          match der (mkContext e name s isMain) with
          | DerThrows error => inl ("_derive_" +:+ name, error)
          | DerReturns written dispatched_ =>
              derive rest (mkState written (version s)) isMain e
                (children ++ dispatched_)
          end
      end
  end.

(** Modelled from the spec: the recursion into children of [_handleEvent]
    (section 4.3, step 5, and section 9, open question; the engine's source
    is absent).
    The children of a node, handled one after the other by [handle_child];
    the first child that fails stops the loop, and its error is the error
    of the whole tree.  The result is the state, the children handled so
    far, the error if any, and the types of the nodes visited. *)
Fixpoint handle_children
    (handle_child : db_state -> event -> db_state * event * list string)
    (s : db_state) (children : list event)
    : db_state * list event * option error_map * list string :=
  match children with
  | [] => (s, [], None, [])
  | child :: rest =>
      match handle_child s child with
      | (s1, done, visited) =>
          match ev_error done with
          | Some err => (s1, [done], Some err, visited)
          | None =>
              match handle_children handle_child s1 rest with
              | (s2, dones, err, visited') =>
                  (s2, done :: dones, err, visited ++ visited')
              end
          end
      end
  end.

(** Modelled from the spec: the handling of one node of the event tree,
    [_handleEvent] of the engine, whose source is absent (section 4.3).  [depth_left] is how many more levels of
    sub-events may still be entered: a node reached with none left is
    aborted with the [_handle] text made of the type path and [:deep].
    Otherwise the child list is emptied (replay), the phases run in order
    (preprocess, reduce, apply, derive), each adding its dispatches to the
    child list, and then the children are handled in that order, each
    completely before the next.  The last component lists the type of each
    node in the order the nodes went through their phases. *)
Fixpoint handle (depth_left : nat) (models : registry) (path : list string)
    (isMain : bool) (s : db_state) (e : event) : db_state * event * list string :=
  match depth_left with
  | O => (s, with_error (Some [("_handle", JStr (type_path path +:+ ":deep"))]) e, [])
  | S depth_left' =>
      let e0 := with_events None e in
      match preprocess models s isMain e0 [] with
      | inl failed => (s, failed, [])
      | inr (e1, ch1) =>
          match reduce models s isMain e1 [] [] with
          | inl (key, cause) => (s, fail_event key cause e1, [])
          | inr (results, ch2) =>
              let e2 := with_result (Some results) e1 in
              match _applyEvent models s e2 isMain with
              | inl (key, cause) => (s, fail_event key cause e1, [])
              | inr s1 =>
                  match derive models s1 isMain e2 [] with
                  | inl (key, cause) => (s1, fail_event key cause e2, [])
                  | inr (s2, ch3) =>
                      let requests := ch1 ++ ch2 ++ ch3 in
                      let here := default EmptyString (ev_type e2) in
                      match handle_children
                              (fun st child =>
                                 handle depth_left' models
                                   (path ++ [default EmptyString (ev_type child)])
                                   false st child)
                              s2 (map (child_event e2) requests) with
                      | (s3, dones, err, visited) =>
                          (s3,
                           with_error err
                             (with_events
                                (match requests with [] => None | _ => Some dones end)
                                e2),
                           here :: visited)
                      end
                  end
              end
          end
      end
  end.

(** Modelled from the spec: the handling of a root event inside one write
    transaction (sections 4.3 and 7).  A failed event rolls the writes back
    but still consumes its version: [V] becomes the [v] of the event either
    way. *)
Definition handle_root (models : registry) (s : db_state) (e : event)
    : db_state * event :=
  match handle (S MAX_DEPTH) models [] true s e with
  | (s', e', _) =>
      match ev_error e' with
      | Some _ => (set_version (ev_v e) s, e')
      | None => (s', e')
      end
  end.


(** ** The queue and the engine *)

(** Modelled from the spec: the event queue (section 4.2), the rows of the
    history table in increasing [v]. *)
Definition getMaxV (queue : list event) : nat :=
  fold_right (fun e acc => Nat.max (default 0 (ev_v e)) acc) 0 queue.

(** Modelled from the spec: [queue.set(event)], the upsert of a whole row at
    the [v] of the event (section 4.2). *)
Fixpoint queue_set (e : event) (queue : list event) : list event :=
  match queue with
  | [] => [e]
  | row :: rest =>
      let v := default 0 (ev_v e) in
      let w := default 0 (ev_v row) in
      if Nat.eqb w v then e :: rest
      else if Nat.ltb v w then e :: row :: rest
      else row :: queue_set e rest
  end.

(** Modelled from the spec: [queue.add(type, data, ts)] (section 4.2): the
    new row gets [v = max(v) + 1] and a null result. *)
Definition queue_add (type : string) (data : jsval) (ts : Z) (queue : list event)
    : event * list event :=
  let e := mkEvent (Some (S (getMaxV queue))) (Some type) ts data None None None in
  (e, queue_set e queue).

Definition queue_get (v : nat) (queue : list event) : option event :=
  find (fun e => bool_decide (ev_v e = Some v)) queue.

Definition is_unhandled (e : event) : bool :=
  match ev_result e, ev_error e with
  | None, None => true
  | _, _ => false
  end.

(** Modelled from the spec: the next event of the worker (section 4.3,
    drive the loop): the smallest [v] with null result and null error. *)
Definition next_unhandled (queue : list event) : option event :=
  find is_unhandled queue.

(** Modelled from the spec: the engine object (sections 2 and 4.4; its
    source is absent).
    The engine: its models, the database, the queue and what its emitter
    has sent to the listeners of [result] and [error]. *)
Record esdb : Type := mkESDB {
  models : registry;
  state : db_state;
  queue : list event;
  emitted : list (string * event)
}.

(** Modelled from the spec: one turn of the worker (sections 4.3 and 4.4):
    the next unhandled event is handled in a transaction, written back to
    its row, and [result] or [error] is emitted. *)
Definition process_next (db : esdb) : option esdb :=
  match next_unhandled (queue db) with
  | None => None
  | Some e =>
      let (s', e') := handle_root (models db) (state db) e in
      let signal := match ev_error e' with Some _ => "error" | None => "result" end in
      Some (mkESDB (models db) s' (queue_set e' (queue db))
              (emitted db ++ [(signal, e')]))
  end.

(** Modelled from the spec: the worker loop of the engine (section 4.3,
    drive the loop; the engine's source is absent), for at most [turns]
    events. *)
Fixpoint drain (turns : nat) (db : esdb) : esdb :=
  match turns with
  | O => db
  | S turns' =>
      match process_next db with
      | Some db' => drain turns' db'
      | None => db
      end
  end.

(** Modelled from the spec: the same loop (section 4.3).
    The worker run until no event is left unhandled: one turn per row is
    enough. *)
Definition settle (db : esdb) : esdb := drain (length (queue db)) db.

(** Modelled from the spec: [handledVersion(v)] (section 4.3), once the
    worker has caught up: fulfilled with the event when it has a result and
    no error, rejected with the event when it failed; [None] when there is
    no such handled row. *)
Definition handledVersion (v : nat) (db : esdb) : option (event + event) :=
  match queue_get v (queue db) with
  | Some e =>
      match ev_error e, ev_result e with
      | Some _, _ => Some (inl e)
      | None, Some _ => Some (inr e)
      | None, None => None
      end
  | None => None
  end.

(** Modelled from the spec: the first step of [dispatch(type, data, ts)]
    (section 4.3): the event is appended to the queue. *)
Definition enqueue (call : string * jsval * Z) (db : esdb) : nat * esdb :=
  let '(type, data, ts) := call in
  let (e, q) := queue_add type data ts (queue db) in
  (default 0 (ev_v e), mkESDB (models db) (state db) q (emitted db)).

(** Modelled from the spec: concurrent calls of the engine's [dispatch]
    (section 4.3, step 1; the engine's source is absent).
    Calls of [dispatch] made one after the other without awaiting: each is
    enqueued in the order of the calls, then the worker handles the queue.
    The result is the [v] given to each call and the engine afterwards. *)
Fixpoint enqueue_all (calls : list (string * jsval * Z)) (db : esdb)
    : list nat * esdb :=
  match calls with
  | [] => ([], db)
  | call :: rest =>
      let (v, db1) := enqueue call db in
      let (vs, db2) := enqueue_all rest db1 in
      (v :: vs, db2)
  end.

Definition dispatch_all (calls : list (string * jsval * Z)) (db : esdb)
    : list nat * esdb :=
  let (vs, db') := enqueue_all calls db in
  (vs, settle db').

(** Modelled from the spec: [dispatch(type, data, ts)] awaited on its own:
    the settlement of its promise and the engine afterwards. *)
Definition dispatch (type : string) (data : jsval) (ts : Z) (db : esdb)
    : option (event + event) * esdb :=
  let (v, db1) := enqueue (type, data, ts) db in
  let db2 := settle db1 in
  (handledVersion v db2, db2).

(** A new engine on an empty database. *)
Definition new_esdb (ms : registry) : esdb :=
  mkESDB ms (mkState ∅ 0) [] [].

Definition count_signal (signal : string) (db : esdb) : nat :=
  length (List.filter (fun se => String.eqb (fst se) signal) (emitted db)).

(** ** The models of the tests *)

Definition type_is (t : string) (e : event) : bool :=
  bool_decide (ev_type e = Some t).

Definition request (t : string) : dispatched := mkDispatched t JUndefined.


Module DepthFirst.
(** The model [foo] of the test 'depth first order'. *)

Definition reducer (ctx : context) : red_outcome :=
  let event := ctx_event ctx in
  if type_is "hi" event then
    RedReturns
      (Some (mkReduction [[("id", JStr "hi"); ("all", JStr EmptyString)]] [] [] [] []))
      []
  else if type_is "3" event then RedReturns None [request "4"]
  else RedReturns None [].

Definition deriver (ctx : context) : der_outcome :=
  let event := ctx_event ctx in
  let children :=
    (if type_is "hi" event then [request "1"; request "3"] else [])
    ++ (if type_is "1" event then [request "2"] else [])
    ++ (if type_is "3" event then [request "5"] else []) in
  match model_get (ctx_model ctx) "hi" (ctx_store ctx) with
  | None => DerThrows (JStr "TypeError: Cannot read properties of undefined")
  | Some t =>
      let all := JS.ToString (default JUndefined (obj_get "all" t))
                 +:+ default "undefined" (ev_type event) in
      match model_set (ctx_model ctx) [("id", JStr "hi"); ("all", JStr all)]
              (ctx_store ctx) with
      | Some s' => DerReturns (tables s') children
      | None => DerThrows (JStr "no id")
      end
  end.

Definition models : registry :=
  [("foo", mkModel None (Some reducer) (Some deriver))].

End DepthFirst.

Module NoInfiniteRecursion.
(** The model [foo] of the test 'no infinite recursion', for any type in
    the place of ['hi']. *)

Definition deriver (t : string) (ctx : context) : der_outcome :=
  DerReturns (tables (ctx_store ctx))
    (if type_is t (ctx_event ctx) then [request t] else []).

Definition models (t : string) : registry :=
  [("foo", mkModel None None (Some (deriver t)))].

End NoInfiniteRecursion.

Module ReplayClears.
(** The model [foo] of the test 'replay clears subevents'. *)

Definition deriver (ctx : context) : der_outcome :=
  DerReturns (tables (ctx_store ctx))
    (if type_is "hi" (ctx_event ctx) then [request "ho"] else []).

Definition models : registry :=
  [("foo", mkModel None None (Some deriver))].


End ReplayClears.

Module Meep.
(** The model [meep] of the test 'preprocessors'. *)

(** [event.data.id = 5] adds the key to an object.  On an array it sets a
    property beside the elements, which [jsval] does not show: the event is
    returned with its data as they were.  On [undefined], [null] and (the
    test file being a module, hence strict) on a boolean, number or string
    the assignment is a TypeError. *)
Definition preprocessor (ctx : context) : pre_outcome :=
  let event := ctx_event ctx in
  if type_is "create_thing" event then
    match ev_data event with
    | JObj fields =>
        let event' :=
          with_data (JObj (obj_set "id" (JNum 5) fields))
            (with_type (Some "set_thing") event) in
        mkPre event' (PreEvent event') []
    | JArr _ =>
        let event' := with_type (Some "set_thing") event in
        mkPre event' (PreEvent event') []
    | _ =>
        mkPre (with_type (Some "set_thing") event)
          (PreThrows (JStr "TypeError: Cannot set properties")) []
    end
  else if type_is "pre type" event then
    let event' := with_type None event in
    mkPre event' (PreEvent event') []
  else if type_is "pre version" event then
    let event' := with_v (Some 123) event in
    mkPre event' (PreEvent event') []
  else if type_is "bad event" event then
    mkPre event (PreError (JStr "Yeah, no.")) []
  else mkPre event PreNothing [].

(** [{set: [event.data]}] whatever the data are: data that are not an
    object make a row without fields, hence without [id], which the apply
    phase cannot write. *)
Definition reducer (ctx : context) : red_outcome :=
  let event := ctx_event ctx in
  if type_is "set_thing" event then
    match ev_data event with
    | JObj fields => RedReturns (Some (mkReduction [fields] [] [] [] [])) []
    | _ => RedReturns (Some (mkReduction [[]] [] [] [] [])) []
    end
  else RedReturns None [].

Definition models : registry :=
  [("meep", mkModel (Some preprocessor) (Some reducer) None)].


End Meep.

Module Count.
(** The counter model [count] of the test helper, whose source is absent. *)

Definition js_number (v : option jsval) : Z :=
  match v with Some (JNum n) => n | _ => 0%Z end.

(** [byType[type] = (byType[type] || 0) + 1] *)
Definition bump (type : string) (byType : row) : row :=
  obj_set type (JNum (js_number (obj_get type byType) + 1)) byType.

(** Modelled from the spec: the reducer of the counter model [count] of the
    test helper (section 8, scenario 5; the helper's source is absent): it
    reads the row [count] and returns it with [total] and the count of the
    type of the event increased by one. *)
Definition reducer (ctx : context) : red_outcome :=
  let c := default [("id", JStr "count"); ("total", JNum 0); ("byType", JObj [])]
             (model_get (ctx_model ctx) "count" (ctx_store ctx)) in
  let type := default "undefined" (ev_type (ctx_event ctx)) in
  let byType := match obj_get "byType" c with Some (JObj f) => f | _ => [] end in
  let c1 := obj_set "total" (JNum (js_number (obj_get "total" c) + 1)) c in
  let c2 := obj_set "byType" (JObj (bump type byType)) c1 in
  RedReturns (Some (mkReduction [c2] [] [] [] [])) [].

Definition models : registry :=
  [("count", mkModel None (Some reducer) None)].

(** The reduction a handled event shows for the counter: one row to set. *)
Definition counted (total : Z) (byType : row) : list (string * reduction) :=
  [("count",
    mkReduction
      [[("id", JStr "count"); ("total", JNum total); ("byType", JObj byType)]]
      [] [] [] [])].

End Count.

(** ** Vocabulary for the properties of the engine *)

Definition no_line_break (s : string) : Prop :=
  Forall (fun a => a <> "010"%char /\ a <> "013"%char) (list_ascii_of_string s).

(** [k] times the text [s], one after the other. *)
Fixpoint copies (k : nat) (s : string) : string :=
  match k with
  | O => EmptyString
  | S k' => s +:+ copies k' s
  end.

(** The strings in which [/(\.hi)+:.*deep/] finds a match: one or more
    [.hi], a colon, any text without a line break, and [deep]. *)
Definition matches_hi_deep (s : string) : Prop :=
  exists before k middle after,
    1 <= k /\ no_line_break middle
    /\ s = before +:+ copies k ".hi" +:+ ":" +:+ middle +:+ "deep" +:+ after.

(** What it means that the children of a node are handled one after the
    other, in their order: [h] takes each child through all its phases and
    its own sub-events, from the state the child before it left, before the
    next child is looked at.  The last component lists the nodes in the
    order in which they were handled. *)
Inductive handled_in_turn (h : db_state -> event -> db_state * event * list string)
    : db_state -> list event -> db_state -> list event -> list string -> Prop :=
| no_child_left (s : db_state) : handled_in_turn h s [] s [] []
| child_then_siblings (s s1 s2 : db_state) (child done : event)
      (siblings dones : list event) (visited visited' : list string) :
    h s child = (s1, done, visited) ->
    handled_in_turn h s1 siblings s2 dones visited' ->
    handled_in_turn h s (child :: siblings) s2 (done :: dones) (visited ++ visited').




(** [{v: 50, type: 'foo', result: {count: {set: [{id: 'count', total: 1,
    byType: {foo: 1}}]}}}] *)
Definition applied_event : event :=
  mkEvent (Some 50) (Some "foo") 0 JUndefined
    (Some (Count.counted 1 [("foo", JNum 1)])) None None.

(** Unfolding of the monad of connections, for the proofs below. *)
Ltac unfold_tx :=
  cbv beta iota zeta delta
    [mbind M_bind mret M_ret bind ret attempt update throw emit busyWait exec
     _call BEGIN_IMMEDIATE] in *.

(** The rows of a queue in strictly increasing [v]. *)
Definition row_v (e : event) : nat := default 0 (ev_v e).

Fixpoint queue_sorted (q : list event) : Prop :=
  match q with
  | [] => True
  | e :: rest => Forall (fun x => row_v e < row_v x) rest /\ queue_sorted rest
  end.

Definition count_unhandled (q : list event) : nat :=
  length (List.filter is_unhandled q).

(** ** More of the SQL templating *)

(** A lexer for an SQL string literal: after the opening quote, a doubled
    single quote stands for one quote and a single one closes the literal;
    the result is the text and what is left over. *)
Fixpoint read_literal_body (s : string) : option (string * string) :=
  match s with
  | EmptyString => None
  | String a rest =>
      if Ascii.eqb a JS.squote then
        match rest with
        | String b rest' =>
            if Ascii.eqb b JS.squote then
              match read_literal_body rest' with
              | Some (text, after) => Some (String JS.squote text, after)
              | None => None
              end
            else Some (EmptyString, rest)
        | EmptyString => Some (EmptyString, rest)
        end
      else
        match read_literal_body rest with
        | Some (text, after) => Some (String a text, after)
        | None => None
        end
  end.

Definition read_sql_string (s : string) : option (string * string) :=
  match s with
  | String a rest => if Ascii.eqb a JS.squote then read_literal_body rest else None
  | EmptyString => None
  end.

Definition starts_with_squote (s : string) : bool :=
  match s with
  | String a _ => Ascii.eqb a JS.squote
  | EmptyString => false
  end.

(** The values [valToSql] writes as a quoted string: those that are neither
    a boolean nor a number nor [null] or [undefined]. *)
Definition written_as_string (v : jsval) : bool :=
  match v with
  | JStr _ | JArr _ | JObj _ => true
  | _ => false
  end.

(** Does the interpolation before [str] go into the text of the statement
    (modifiers [ID] and [LIT]) rather than into the bound variables? *)
Definition in_text (str : string) : bool :=
  match find_modifier str with
  | Some (ModID, _) | Some (ModLIT, _) => true
  | _ => false
  end.

(** The characters of the class [\w] of a regular expression without
    flags, as the language definition lists them: the letters, the digits
    and the underscore. *)
Definition word_characters : string :=
  "abcdefghijklmnopqrstuvwxyzABCDEFGHIJKLMNOPQRSTUVWXYZ0123456789_".

(** ** Views of a connection *)

(** What was emitted on the connection, the statements handed to the
    driver and the waits, each in the order it happened. *)
Definition signals (c : conn) : list string :=
  omap (fun e => match e with Emit s => Some s | _ => None end) (effects c).

Definition statements (c : conn) : list string :=
  omap (fun e => match e with Issue q => Some q | _ => None end) (effects c).

Definition waits (c : conn) : list nat :=
  omap (fun e => match e with BusyWait ms => Some ms | _ => None end) (effects c).

(** The statement that closes a transaction whose [fn] has settled. *)
Definition closing_statement (outcome : settled jsval) : string :=
  match outcome with
  | Fulfilled _ => "END"
  | Rejected _ => "ROLLBACK"
  end.

(** A driver that rejects one statement with an error that is not a busy
    error, and accepts every other one. *)
Definition refuses (q : string) : nat -> string -> settled jsval :=
  fun _ q' => if String.eqb q' q then Rejected (mkError "disk I/O error" (Some "SQLITE_IOERR"))
              else Fulfilled JUndefined.

(** ** More vocabulary for the transaction chain *)

Definition is_Opened (lbl : label) : bool :=
  match lbl with Opened => true | _ => false end.

(** The [fn] of each call of [withTransaction] among the labels, in the
    order of the calls. *)
Definition call_fns (labels : list label) : list (M jsval) :=
  omap (fun lbl => match lbl with Call fn => Some fn | _ => None end) labels.

(** What the chain and the waiting list hold after the calls [fns]. *)
Definition accounted (fns : list (M jsval)) (p : process) : Prop :=
  readOnly p = false
  /\ calls p = length fns
  /\ map link_call (chain p) ++ map fst (holding p) ≡ₚ seq 0 (calls p)
  /\ Forall (fun l => fns !! link_call l = Some (link_fn l)) (chain p)
  /\ Forall (fun kf => fns !! fst kf = Some (snd kf)) (holding p).

(** ** Opening and closing ([SQLite.js], lines 139-141 and 258-311)

    The connection opens lazily: [dbP] is a promise made by the constructor
    (and again by [close()]) together with its resolver [_resolveDbP];
    [open()] starts [_openDB()] if the resolver is still there and takes it
    away.  The promises [dbP] are numbered in the order they are made, the
    runs of [_openDB()] in the order they are started.  [_openDB()] itself is
    followed only as far as its end: it sets [this._sqlite] and returns, or
    it throws.  The interval timers of the object play no part in this and
    are left out. *)

Inductive open_run_state : Type :=
| OpenPending     (* _openDB() was called, its promise is pending *)
| OpenInstalled   (* _openDB() has set this._sqlite and returned *)
| OpenSettled     (* ... and the reaction registered by open() has run *)
| OpenFailed.     (* _openDB() has thrown *)

Record open_run : Type := mkRun {
  run_resolves : nat;   (* the promise that the _resolveDbP captured by open() resolves *)
  run_state : open_run_state
}.

#[global] Instance open_run_state_eq_dec : EqDecision open_run_state.
Proof. solve_decision. Defined.

#[global] Instance open_run_eq_dec : EqDecision open_run.
Proof. solve_decision. Defined.

Record sqlite_object : Type := mkObject {
  dbP : nat;                   (* this.dbP *)
  _resolveDbP : option nat;    (* this._resolveDbP: the promise it resolves, or null *)
  _dbP : option nat;           (* this._dbP: the run of _openDB() it waits for, or null *)
  _sqlite : option nat;        (* this._sqlite: the handle opened by that run, or null *)
  promises : nat;              (* how many promises dbP have been made *)
  resolved : list nat;         (* the promises dbP that are resolved *)
  open_runs : list open_run    (* the calls of _openDB() *)
}.

(** The constructor (lines 139-141), for a connection that is not a child. *)
Definition new_object : sqlite_object :=
  mkObject 0 (Some 0) None None 1 [] [].

(** [open()]: the object afterwards and the promise returned. *)
Definition open (o : sqlite_object) : sqlite_object * nat :=
  match _resolveDbP o with
  | Some r =>
      (mkObject (dbP o) None (Some (length (open_runs o))) (_sqlite o)
         (promises o) (resolved o) (open_runs o ++ [mkRun r OpenPending]),
       dbP o)
  | None => (o, dbP o)
  end.

(** [close()] up to its first [await] (lines 276-290): a new [dbP] with its
    resolver, and [this._sqlite] taken away.  What follows in [close()]
    (the statements finalised, [_dbP] awaited, the handle closed) changes
    none of these fields. *)
Definition close (o : sqlite_object) : sqlite_object :=
  mkObject (promises o) (Some (promises o)) (_dbP o) None
    (S (promises o)) (resolved o) (open_runs o).

Inductive life_label : Type :=
| CallOpen                 (* open() is called, by the user or by _hold() *)
| OpenDBReturns (k : nat)  (* run k of _openDB() sets this._sqlite and returns *)
| OpenDBThrows (k : nat)   (* run k of _openDB() throws *)
| OpenReaction (k : nat)   (* the reaction of open() to run k: _resolveDbP(result) *)
| CallClose.               (* close() is called *)

Definition life_step (lbl : life_label) (o : sqlite_object) : option sqlite_object :=
  match lbl with
  | CallOpen => Some (open o).1
  | OpenDBReturns k =>
      match open_runs o !! k with
      | Some (mkRun g OpenPending) =>
          Some (mkObject (dbP o) (_resolveDbP o) (_dbP o) (Some k)
                  (promises o) (resolved o)
                  (<[k := mkRun g OpenInstalled]> (open_runs o)))
      | _ => None
      end
  | OpenDBThrows k =>
      match open_runs o !! k with
      | Some (mkRun g OpenPending) =>
          Some (mkObject (dbP o) (_resolveDbP o) (_dbP o) (_sqlite o)
                  (promises o) (resolved o)
                  (<[k := mkRun g OpenFailed]> (open_runs o)))
      | _ => None
      end
  | OpenReaction k =>
      match open_runs o !! k with
      | Some (mkRun g OpenInstalled) =>
          Some (mkObject (dbP o) (_resolveDbP o) None (_sqlite o)
                  (promises o) (resolved o ++ [g])
                  (<[k := mkRun g OpenSettled]> (open_runs o)))
      | _ => None
      end
  | CallClose => Some (close o)
  end.

Fixpoint life_run (labels : list life_label) (o : sqlite_object) : option sqlite_object :=
  match labels with
  | [] => Some o
  | lbl :: rest =>
      match life_step lbl o with
      | Some o' => life_run rest o'
      | None => None
      end
  end.

Definition is_CallClose (lbl : life_label) : bool :=
  match lbl with CallClose => true | _ => false end.

Definition is_CallOpen (lbl : life_label) : bool :=
  match lbl with CallOpen => true | _ => false end.

(** The invariant of opening and closing. *)
Record life_inv (o : sqlite_object) : Prop := mkLifeInv {
  life_fresh : dbP o < promises o;
  life_bound : Forall (fun r => run_resolves r < promises o) (open_runs o);
  life_resolver :
    match _resolveDbP o with
    | Some g => g = dbP o /\ g ∉ map run_resolves (open_runs o)
    | None => dbP o ∈ map run_resolves (open_runs o)
    end;
  life_nodup : NoDup (map run_resolves (open_runs o));
  life_resolved :
    forall g, g ∈ resolved o <-> mkRun g OpenSettled ∈ open_runs o;
  life_handle :
    forall st, mkRun (dbP o) st ∈ open_runs o ->
               st = OpenInstalled \/ st = OpenSettled -> is_Some (_sqlite o)
}.

(** ** The model of the test of sub-events in every phase *)

Module Work.
(** The model [foo] of the test 'work': every handler dispatches a
    sub-event for the events it is meant for, the reducer also returns one
    under [events], and every event handled leaves a row with its type as
    id. *)

Definition type_text (e : event) : string := default "undefined" (ev_type e).

Definition type_id (e : event) : jsval :=
  match ev_type e with
  | Some t => JStr t
  | None => JUndefined
  end.

Definition preprocessor (ctx : context) : pre_outcome :=
  let event := ctx_event ctx in
  mkPre event PreNothing
    (if type_is "hi" event || type_is "pre" event
     then [request ("pre-" +:+ type_text event)] else []).

Definition reducer (ctx : context) : red_outcome :=
  let event := ctx_event ctx in
  if type_is "hi" event || type_is "red" event then
    RedReturns
      (Some (mkReduction [[("id", type_id event)]] [] [] []
               [request ("red-out-" +:+ type_text event)]))
      [request ("red-" +:+ type_text event)]
  else
    RedReturns (Some (mkReduction [[("id", type_id event)]] [] [] [] [])) [].

Definition deriver (ctx : context) : der_outcome :=
  let event := ctx_event ctx in
  DerReturns (tables (ctx_store ctx))
    (if type_is "hi" event || type_is "der" event
     then [request ("der-" +:+ type_text event)] else []).

Definition models : registry :=
  [("foo", mkModel (Some preprocessor) (Some reducer) (Some deriver))].

(** The sub-events that an event of type [t] gets, in the order the phases
    dispatch them. *)
Definition sub_events (t : string) : list string :=
  (if String.eqb t "hi" || String.eqb t "pre" then ["pre-" +:+ t] else [])
  ++ (if String.eqb t "hi" || String.eqb t "red" then ["red-" +:+ t; "red-out-" +:+ t] else [])
  ++ (if String.eqb t "hi" || String.eqb t "der" then ["der-" +:+ t] else []).

End Work.

(** The row that the reducer of the test 'work' sets for an event of type
    [c], written to the table [foo]. *)
Definition put_row (c : string) (s : db_state) : db_state :=
  with_table "foo" (<[c := [("id", JStr c)]]> (table_of "foo" s)) s.

Definition has_row (id : string) (s : db_state) : Prop :=
  model_get "foo" id s = Some [("id", JStr id)].

(** The time spent in [busyWait()] on a connection so far, in
    milliseconds. *)
Definition waiting_time (c : conn) : nat := list_sum (waits c).

(** * Properties *)

(** ** SQL templating *)

Section SqlTemplate.

Lemma append_nil_l (s : string) : EmptyString +:+ s = s.
Proof. reflexivity. Qed.

Lemma append_cons (a : ascii) (s t : string) :
  String a s +:+ t = String a (s +:+ t).
Proof. reflexivity. Qed.

Lemma append_assoc (a b c : string) : (a +:+ b) +:+ c = a +:+ (b +:+ c).
Proof.
  induction a as [|x a IH]; [reflexivity|].
  now rewrite !append_cons, IH.
Qed.

Lemma append_empty_r (a : string) : a +:+ EmptyString = a.
Proof.
  induction a as [|x a IH]; [reflexivity|].
  now rewrite append_cons, IH.
Qed.

(** The accumulating loop computes the left-to-right reading. *)
Lemma sql_loop_render strs : forall vals out vars,
  sql_loop strs vals out vars =
  match render_all strs vals with
  | Some (o, v) => Some (out +:+ o, (vars ++ v)%list)
  | None => None
  end.
Proof.
  induction strs as [|str strs IH]; intros vals out vars; simpl.
  - now rewrite append_empty_r, app_nil_r.
  - unfold template_text.
    destruct (find_modifier str) as [[[ | | ] rest]|]; simpl.
    + destruct (quoteSqlId (hd JUndefined vals)) as [q|]; [|reflexivity].
      rewrite IH. destruct (render_all strs (tl vals)) as [[o v]|]; [|reflexivity].
      now rewrite !append_assoc.
    + rewrite IH. destruct (render_all strs (tl vals)) as [[o v]|]; [|reflexivity].
      now rewrite !append_assoc, <- app_assoc.
    + rewrite IH. destruct (render_all strs (tl vals)) as [[o v]|]; [|reflexivity].
      now rewrite !append_assoc.
    + rewrite IH. destruct (render_all strs (tl vals)) as [[o v]|]; [|reflexivity].
      now rewrite !append_assoc, <- app_assoc.
Qed.

Lemma two_dquotes (s : string) :
  (JS.DQ +:+ JS.DQ) +:+ s = String JS.dquote (String JS.dquote s).
Proof. reflexivity. Qed.

(** Doubling the quotes is undone by the identifier lexer, which stops at
    the closing quote. *)
Lemma read_quoted_body_escaped (str after : string) :
  starts_with_dquote after = false ->
  read_quoted_body
    (JS.replace_char JS.dquote (JS.DQ +:+ JS.DQ) str +:+ JS.DQ +:+ after)
  = Some (str, after).
Proof.
  intros Hafter. induction str as [|a str IH].
  - cbn [JS.replace_char]. rewrite append_nil_l. unfold JS.DQ.
    rewrite append_cons, append_nil_l. cbn [read_quoted_body].
    change (Ascii.eqb JS.dquote JS.dquote) with true. cbv iota.
    destruct after as [|b after]; [reflexivity|].
    cbn [starts_with_dquote] in Hafter. now rewrite Hafter.
  - cbn [JS.replace_char].
    destruct (Ascii.eqb a JS.dquote) eqn:Ha.
    + apply Ascii.eqb_eq in Ha. subst a.
      rewrite (append_assoc (JS.DQ +:+ JS.DQ)), two_dquotes.
      cbn [read_quoted_body].
      change (Ascii.eqb JS.dquote JS.dquote) with true. cbv iota.
      now rewrite IH.
    + rewrite append_cons. cbn [read_quoted_body]. rewrite Ha. now rewrite IH.
Qed.

Lemma quoteSqlId_read_back (val : jsval) (after : string) :
  starts_with_dquote after = false ->
  match quoteSqlId val with
  | Some q => read_sql_identifier (q +:+ after) = Some (JS.ToString val, after)
  | None => val = JUndefined \/ val = JNull
  end.
Proof.
  intros Hafter. unfold quoteSqlId.
  destruct (JS.toString val) as [str|] eqn:Hs.
  - assert (str = JS.ToString val) as ->
      by (unfold JS.toString in Hs; destruct val; try discriminate;
          now injection Hs as <-).
    rewrite !append_assoc. unfold JS.DQ at 1.
    rewrite append_cons, append_nil_l. cbn [read_sql_identifier].
    change (Ascii.eqb JS.dquote JS.dquote) with true. cbv iota.
    now apply read_quoted_body_escaped.
  - destruct val; simpl in Hs; try discriminate; auto.
Qed.

End SqlTemplate.

(** C9, as stated, fails for the [LIT] modifier: the interpolated text is
    pasted into the statement as it is, where an escaped literal would have
    its quote doubled ([valToSql]).  Here the template is
    [select ${v}LIT] with [v = "it's"]. *)
Lemma sql_lit_pasted_verbatim :
  sql ["select "; "LIT"] [JStr "it's"] = Some (JStr "select it's", [])
  /\ valToSql (JStr "it's") = "'it''s'"
  /\ (lit_is_escaped -> False).
Proof.
  split; [reflexivity|]. split; [reflexivity|].
  intros H. specialize (H "select " (JStr "it's")). discriminate H.
Qed.

(** C9 (amended): [sql] is a function from the template and its
    interpolations to the statement and the bound variables.  The statement
    is [strings[0]] followed, for each later string, by the rendering of its
    interpolation and the string without its modifier: a plain value renders
    as [?] and is bound as it is, a [JSON] value renders as [?] and is bound
    as its [JSON.stringify] text, an [ID] value is written between double
    quotes with its own double quotes doubled, so that an SQL lexer reads
    back exactly the identifier, and a [LIT] value is pasted verbatim,
    without escaping; [ID] and [LIT] bind nothing. *)
Theorem sql_renders_template (s0 : string) (rest : list string) (vals : list jsval) :
  sql (s0 :: rest) vals =
    match render_all rest vals with
    | Some (out, vars) => Some (JStr (s0 +:+ out), vars)
    | None => None
    end
  /\ (forall before val,
        sql [before; EmptyString] [val] = Some (JStr (before +:+ "?"), [val])
        /\ sql [before; "JSON"] [val]
           = Some (JStr (before +:+ "?"), [JS.JSON_stringify val])
        /\ sql [before; "LIT"] [val] = Some (JStr (before +:+ JS.ToString val), [])
        /\ sql [before; "ID"] [val]
           = match quoteSqlId val with
             | Some q => Some (JStr (before +:+ q), [])
             | None => None
             end)
  /\ (forall val after,
        starts_with_dquote after = false ->
        match quoteSqlId val with
        | Some q => read_sql_identifier (q +:+ after) = Some (JS.ToString val, after)
        | None => val = JUndefined \/ val = JNull
        end).
Proof.
  split; [|split].
  - unfold sql. rewrite sql_loop_render.
    destruct (render_all rest vals) as [[o v]|]; reflexivity.
  - intros before val. unfold sql. rewrite !sql_loop_render. cbn.
    rewrite !append_empty_r. repeat split; try reflexivity.
    destruct (quoteSqlId val); [|reflexivity]. now rewrite append_empty_r.
  - intros val after. apply quoteSqlId_read_back.
Qed.

(** The template [select * from ${name}ID where x = ${5}], for a table name
    with a double quote in it. *)
Lemma sql_renders_template_witness :
  sql ["select * from "; "ID where x = "; EmptyString]
      [JStr ("my" +:+ JS.DQ +:+ "table"); JNum 5]
  = Some (JStr ("select * from " +:+ JS.DQ +:+ "my" +:+ JS.DQ +:+ JS.DQ +:+ "table"
                +:+ JS.DQ +:+ " where x = ?"), [JNum 5])
  /\ read_sql_identifier
       (JS.DQ +:+ "my" +:+ JS.DQ +:+ JS.DQ +:+ "table" +:+ JS.DQ +:+ " where x = ?")
     = Some ("my" +:+ JS.DQ +:+ "table", " where x = ?").
Proof.
  pose proof (sql_renders_template "select * from " ["ID where x = "; EmptyString]
                [JStr ("my" +:+ JS.DQ +:+ "table"); JNum 5]) as [Hsql [_ Hid]].
  split.
  - rewrite Hsql. reflexivity.
  - exact (Hid (JStr ("my" +:+ JS.DQ +:+ "table")) " where x = ?" eq_refl).
Defined.

(** ** Busy retry *)

Section BusyRetry.

Lemma after_busy_0 q c : after_busy q 0 c = c.
Proof.
  destruct c. unfold after_busy. cbn.
  now rewrite !Nat.add_0_r, app_nil_r.
Qed.

Lemma busy_effects_add q r a : forall d b,
  busy_effects q r d (a + b) = busy_effects q r d a ++ busy_effects q r (d + a) b.
Proof.
  induction a as [|a IH]; intros d b; cbn [Nat.add busy_effects app].
  - now rewrite Nat.add_0_r.
  - rewrite IH. now rewrite Nat.add_succ_comm.
Qed.

Lemma after_busy_step q n c :
  after_busy q n (wait (issue q c)) = after_busy q (S n) c.
Proof.
  unfold after_busy, wait, issue. cbn. f_equal; [lia | lia |].
  rewrite <- !app_assoc. reflexivity.
Qed.

Lemma after_busy_add q a b c :
  after_busy q b (after_busy q a c) = after_busy q (a + b) c.
Proof.
  unfold after_busy. cbn. f_equal; [lia | lia |].
  now rewrite busy_effects_add, app_assoc.
Qed.

(** Every wait of a run of busy replies is a jittered one. *)
Lemma busy_effects_in_range q r n : forall d,
  Forall wait_in_range (busy_effects q r d n).
Proof.
  induction n as [|n IH]; intros d; cbn [busy_effects]; [constructor|].
  constructor; [exact I|]. constructor; [|apply IH].
  unfold wait_in_range, busy_delay.
  pose proof (Nat.mod_upper_bound (r d) 1000). lia.
Qed.

Lemma driver_busy_weaken c q n m : m <= n -> driver_busy c q n -> driver_busy c q m.
Proof. intros Hle H k Hk. apply H. lia. Qed.

Lemma driver_busy_shift c c' q a n :
  driver c' = driver c -> issued c' = issued c + a ->
  driver_busy c q (a + n) -> driver_busy c' q n.
Proof.
  intros Hd Hi H k Hk. destruct (H (a + k)) as [err [He Hb]]; [lia|].
  exists err. split; [|exact Hb]. rewrite Hd, Hi, <- Nat.add_assoc. exact He.
Qed.

(** Busy replies within the budget only move the loop forward. *)
Lemma call_loop_busy q j : forall n c,
  j <= n -> driver_busy c q j ->
  call_loop q n c = call_loop q (n - j) (after_busy q j c).
Proof.
  induction j as [|j IH]; intros n c Hle Hbusy.
  - now rewrite after_busy_0, Nat.sub_0_r.
  - destruct n as [|n]; [lia|].
    destruct (Hbusy 0) as [err [He Hb]]; [lia|]. rewrite Nat.add_0_r in He.
    cbn [call_loop]. rewrite He, Hb.
    rewrite (IH n); [| lia |].
    + now rewrite after_busy_step.
    + apply (driver_busy_shift c _ q 1); [reflexivity | simpl; lia | exact Hbusy].
Qed.

Lemma call_recovers q c j out :
  j <= RETRY_COUNT -> driver_busy c q j ->
  driver c (issued c + j) q = Fulfilled out ->
  _call q c = (Fulfilled out, issue q (after_busy q j c)).
Proof.
  intros Hle Hbusy Hok. unfold _call.
  rewrite (call_loop_busy q j) by assumption.
  destruct (RETRY_COUNT - j); cbn [call_loop after_busy driver issued];
    now rewrite Hok.
Qed.

Lemma call_exhausted q c :
  driver_busy c q (S RETRY_COUNT) ->
  exists err,
    isBusyError err = true
    /\ _call q c = (Rejected err, issue q (after_busy q RETRY_COUNT c)).
Proof.
  intros Hbusy. unfold _call.
  rewrite (call_loop_busy q RETRY_COUNT);
    [| reflexivity | apply (driver_busy_weaken c q (S RETRY_COUNT)); [lia | exact Hbusy]].
  rewrite Nat.sub_diag.
  destruct (Hbusy RETRY_COUNT) as [err [He Hb]]; [lia|].
  exists (sqlite_error (name c) err). split; [exact Hb|].
  cbn [call_loop after_busy driver issued name]. now rewrite He, Hb.
Qed.

(** [__withTransaction] opens the transaction, awaits [fn] and closes. *)
Lemma withTransaction_split fn n : forall c,
  __withTransaction fn n c
  = (begin_transaction n;; outcome ← attempt fn; end_transaction outcome) c.
Proof.
  induction n as [|n IH]; intros c.
  - cbn [__withTransaction begin_transaction]. unfold_tx.
    destruct (call_loop "BEGIN IMMEDIATE" RETRY_COUNT (set_inTransaction true c))
      as [[out|err] c1]; unfold_tx; [reflexivity|].
    destruct (isBusyError err); reflexivity.
  - cbn [__withTransaction begin_transaction]. unfold_tx.
    destruct (call_loop "BEGIN IMMEDIATE" RETRY_COUNT (set_inTransaction true c))
      as [[out|err] c1]; unfold_tx; [reflexivity|].
    destruct (isBusyError err); [|reflexivity].
    specialize (IH (wait c1)). unfold_tx. exact IH.
Qed.

Lemma exec_recovers q c j out :
  j <= RETRY_COUNT -> driver_busy c q j ->
  driver c (issued c + j) q = Fulfilled out ->
  exec q c = (Fulfilled tt, issue q (after_busy q j c)).
Proof.
  intros Hle Hbusy Hok. unfold exec, mbind, M_bind, bind.
  now rewrite (call_recovers q c j out).
Qed.

Lemma exec_exhausted q c :
  driver_busy c q (S RETRY_COUNT) ->
  exists err,
    isBusyError err = true
    /\ exec q c = (Rejected err, issue q (after_busy q RETRY_COUNT c)).
Proof.
  intros Hbusy. destruct (call_exhausted q c Hbusy) as [err [Hb Hc]].
  exists err. split; [exact Hb|].
  unfold exec, mbind, M_bind, bind. now rewrite Hc.
Qed.

(** One round of the first [try]/[catch] of [__withTransaction]. *)
Lemma begin_transaction_eq n c :
  begin_transaction n c =
  match exec BEGIN_IMMEDIATE (set_inTransaction true c) with
  | (Fulfilled _, c1) => (Fulfilled tt, record_effect (Emit "begin") c1)
  | (Rejected error, c1) =>
      if isBusyError error then
        match n with
        | S m => begin_transaction m (wait c1)
        | O => (Rejected error, set_inTransaction false c1)
        end
      else (Rejected error, set_inTransaction false c1)
  end.
Proof.
  destruct n; cbn [begin_transaction];
    cbv beta iota zeta delta
      [mbind M_bind mret M_ret bind ret attempt update throw emit busyWait
       BEGIN_IMMEDIATE];
    destruct (exec "BEGIN IMMEDIATE" (set_inTransaction true c)) as [[[]|err] c1];
    try reflexivity; destruct (isBusyError err); reflexivity.
Qed.

Lemma busy_round q k c :
  wait (issue q (after_busy q k c)) = after_busy q (S k) c.
Proof.
  rewrite <- (after_busy_0 q (wait _)), after_busy_step, after_busy_add.
  f_equal. lia.
Qed.

Lemma begin_recovers n : forall c j out,
  j < S RETRY_COUNT * S n ->
  driver_busy c BEGIN_IMMEDIATE j ->
  driver c (issued c + j) BEGIN_IMMEDIATE = Fulfilled out ->
  begin_transaction n c
  = (Fulfilled tt,
     record_effect (Emit "begin")
       (issue BEGIN_IMMEDIATE
          (after_busy BEGIN_IMMEDIATE j (set_inTransaction true c)))).
Proof.
  pose proof (eq_refl : RETRY_COUNT = 10) as HR.
  induction n as [|n IH]; intros c j out Hj Hbusy Hok;
    rewrite begin_transaction_eq.
  - rewrite (exec_recovers _ _ j out); [reflexivity | lia | exact Hbusy | exact Hok].
  - destruct (le_lt_dec j RETRY_COUNT) as [Hle|Hgt].
    + rewrite (exec_recovers _ _ j out); [reflexivity | lia | exact Hbusy | exact Hok].
    + destruct (exec_exhausted BEGIN_IMMEDIATE (set_inTransaction true c))
        as [err [Hb He]].
      { apply (driver_busy_weaken _ _ j); [lia | exact Hbusy]. }
      rewrite He, Hb, busy_round.
      rewrite (IH _ (j - S RETRY_COUNT) out).
      * change (set_inTransaction true (after_busy ?q ?k (set_inTransaction true ?x)))
          with (after_busy q k (set_inTransaction true x)).
        rewrite after_busy_add.
        replace (S RETRY_COUNT + (j - S RETRY_COUNT)) with j by lia. reflexivity.
      * lia.
      * apply (driver_busy_shift (set_inTransaction true c) _ _ (S RETRY_COUNT));
          [reflexivity | reflexivity |].
        replace (S RETRY_COUNT + (j - S RETRY_COUNT)) with j by lia. exact Hbusy.
      * cbn [after_busy issued driver]. cbn [set_inTransaction issued driver].
        replace (issued c + S RETRY_COUNT + (j - S RETRY_COUNT)) with (issued c + j)
          by lia.
        exact Hok.
Qed.

Lemma begin_exhausted n : forall c,
  driver_busy c BEGIN_IMMEDIATE (S RETRY_COUNT * S n) ->
  exists err,
    isBusyError err = true
    /\ begin_transaction n c
       = (Rejected err,
          set_inTransaction false
            (issue BEGIN_IMMEDIATE
               (after_busy BEGIN_IMMEDIATE (S RETRY_COUNT * S n - 1) c))).
Proof.
  pose proof (eq_refl : RETRY_COUNT = 10) as HR.
  induction n as [|n IH]; intros c Hbusy.
  - destruct (exec_exhausted BEGIN_IMMEDIATE (set_inTransaction true c))
      as [err [Hb He]].
    { apply (driver_busy_weaken _ _ (S RETRY_COUNT * 1)); [lia | exact Hbusy]. }
    exists err. split; [exact Hb|].
    rewrite begin_transaction_eq, He, Hb.
    replace (S RETRY_COUNT * 1 - 1) with RETRY_COUNT by lia. reflexivity.
  - destruct (exec_exhausted BEGIN_IMMEDIATE (set_inTransaction true c))
      as [err0 [Hb0 He0]].
    { apply (driver_busy_weaken _ _ (S RETRY_COUNT * S (S n))); [lia | exact Hbusy]. }
    destruct (IH (after_busy BEGIN_IMMEDIATE (S RETRY_COUNT) (set_inTransaction true c)))
      as [err [Hb He]].
    { apply (driver_busy_shift (set_inTransaction true c) _ _ (S RETRY_COUNT));
        [reflexivity | reflexivity |].
      apply (driver_busy_weaken c _ (S RETRY_COUNT * S (S n))); [lia | exact Hbusy]. }
    exists err. split; [exact Hb|].
    rewrite begin_transaction_eq, He0, Hb0, busy_round, He.
    rewrite after_busy_add.
    replace (S RETRY_COUNT + (S RETRY_COUNT * S n - 1))
      with (S RETRY_COUNT * S (S n) - 1) by lia.
    reflexivity.
Qed.

End BusyRetry.

(** C8: a busy error is retried after a wait of random length (200 ms to
    just under 1200 ms) at most [RETRY_COUNT = 10] times, by [_call] for
    every statement and by [__withTransaction] for [BEGIN IMMEDIATE].  While the
    budget lasts the busy replies leave no trace in the result: the
    statement fulfils, the transaction goes on to [fn].  Once the budget is
    used up (11 busy replies to a statement; 11 failed [exec]s of
    [BEGIN IMMEDIATE], that is 121 busy replies) the promise rejects with
    the busy error, and [fn] is not called. *)
Theorem busy_retry_is_bounded :
  RETRY_COUNT = 10
  /\ (forall q c n, Forall wait_in_range (busy_effects q (random c) (drawn c) n))
  /\ (forall q c j out,
        j <= RETRY_COUNT -> driver_busy c q j ->
        driver c (issued c + j) q = Fulfilled out ->
        _call q c = (Fulfilled out, issue q (after_busy q j c)))
  /\ (forall q c,
        driver_busy c q (S RETRY_COUNT) ->
        exists err,
          isBusyError err = true
          /\ _call q c = (Rejected err, issue q (after_busy q RETRY_COUNT c)))
  /\ (forall fn c j out,
        j < S RETRY_COUNT * S RETRY_COUNT ->
        driver_busy c BEGIN_IMMEDIATE j ->
        driver c (issued c + j) BEGIN_IMMEDIATE = Fulfilled out ->
        __withTransaction fn RETRY_COUNT c
        = (outcome ← attempt fn; end_transaction outcome)
            (record_effect (Emit "begin")
               (issue BEGIN_IMMEDIATE
                  (after_busy BEGIN_IMMEDIATE j (set_inTransaction true c)))))
  /\ (forall fn c,
        driver_busy c BEGIN_IMMEDIATE (S RETRY_COUNT * S RETRY_COUNT) ->
        exists err,
          isBusyError err = true
          /\ __withTransaction fn RETRY_COUNT c
             = (Rejected err,
                set_inTransaction false
                  (issue BEGIN_IMMEDIATE
                     (after_busy BEGIN_IMMEDIATE
                        (S RETRY_COUNT * S RETRY_COUNT - 1) c)))).
Proof.
  split; [reflexivity|]. split; [|split; [|split; [|split]]].
  - intros q c n. apply busy_effects_in_range.
  - intros q c j out. apply call_recovers.
  - intros q c. apply call_exhausted.
  - intros fn c j out Hj Hbusy Hok.
    rewrite withTransaction_split.
    unfold mbind at 1, M_bind at 1, bind at 1.
    now rewrite (begin_recovers RETRY_COUNT c j out Hj Hbusy Hok).
  - intros fn c Hbusy.
    destruct (begin_exhausted RETRY_COUNT c Hbusy) as [err [Hb He]].
    exists err. split; [exact Hb|].
    rewrite withTransaction_split.
    unfold mbind at 1, M_bind at 1, bind at 1. now rewrite He.
Qed.

Lemma busy_then_ok_busy n q :
  driver_busy (fresh_conn (busy_then_ok n)) q n.
Proof.
  intros k Hk. eexists. unfold fresh_conn, busy_then_ok. cbn [driver issued].
  apply Nat.ltb_lt in Hk. rewrite Nat.add_0_l, Hk. split; reflexivity.
Defined.

(** Three busy replies to [BEGIN IMMEDIATE] are absorbed and the
    transaction commits; a driver that stays busy for 121 replies makes the
    transaction reject with the busy error and nothing emitted. *)
Lemma busy_retry_is_bounded_witness :
  __withTransaction (ret (JNum 7)) RETRY_COUNT (fresh_conn (busy_then_ok 3))
  = (Fulfilled (JNum 7),
     mkConn "db|1" (busy_then_ok 3) (fun k => 137 * k) 5 3 false
       ([Issue BEGIN_IMMEDIATE; BusyWait 200;
         Issue BEGIN_IMMEDIATE; BusyWait 337;
         Issue BEGIN_IMMEDIATE; BusyWait 474]
        ++ [Issue BEGIN_IMMEDIATE; Emit "begin"; Issue "END"; Emit "end"; Emit "finally"]))
  /\ exists err,
       isBusyError err = true
       /\ __withTransaction (ret (JNum 7)) RETRY_COUNT (fresh_conn (busy_then_ok 121))
          = (Rejected err,
             mkConn "db|1" (busy_then_ok 121) (fun k => 137 * k) 121 120 false
               (busy_effects BEGIN_IMMEDIATE (fun k => 137 * k) 0 120
                ++ [Issue BEGIN_IMMEDIATE])).
Proof.
  destruct busy_retry_is_bounded as (_ & _ & _ & _ & Hrec & Hex). split.
  - rewrite (Hrec (ret (JNum 7)) (fresh_conn (busy_then_ok 3)) 3 JUndefined).
    + reflexivity.
    + unfold RETRY_COUNT. lia.
    + apply busy_then_ok_busy.
    + reflexivity.
  - destruct (Hex (ret (JNum 7)) (fresh_conn (busy_then_ok 121))) as [err [Hb He]].
    + apply (busy_then_ok_busy 121).
    + exists err. split; [exact Hb|]. rewrite He. reflexivity.
Defined.

(** ** The transaction chain *)

Section TransactionChain.

Implicit Types (p : process) (ch : list link) (h : list chain_event) (l : link).

Lemma count_event_snoc f h e :
  count_event f (h ++ [e]) = count_event f h + (if f e then 1 else 0).
Proof.
  unfold count_event. rewrite List.filter_app, length_app. cbn [List.filter].
  destruct (f e); reflexivity.
Qed.

Lemma counts_ok_other k ph h e :
  event_call e <> k -> counts_ok k ph h -> counts_ok k ph (h ++ [e]).
Proof.
  intros Hne.
  assert (is_FnCalled k e = false /\ is_FnSettled k e = false
          /\ is_BeginFailed k e = false) as (H1 & H2 & H3).
  { destruct e; cbn in *; repeat split; try reflexivity;
      apply Nat.eqb_neq; congruence. }
  unfold counts_ok. rewrite !count_event_snoc, H1, H2, H3, !Nat.add_0_r.
  auto.
Qed.

Lemma pending_app h1 : forall cur h2,
  pending cur (h1 ++ h2)
  = match pending cur h1 with
    | Some cur' => pending cur' h2
    | None => None
    end.
Proof.
  induction h1 as [|e h1 IH]; intros cur h2; [reflexivity|].
  destruct e as [k|k|k], cur as [k'|]; cbn [app pending]; try reflexivity;
    try apply IH.
  destruct (Nat.eqb k k'); [apply IH | reflexivity].
Qed.

Lemma entered_snoc h e :
  entered (h ++ [e])
  = entered h ++ match e with
                 | FnCalled k | BeginFailed k => [k]
                 | FnSettled _ => []
                 end.
Proof. unfold entered. rewrite omap_app. destruct e; reflexivity. Qed.

Lemma fn_calls_sublist_entered h : fn_calls h `sublist_of` entered h.
Proof.
  induction h as [|e h IH]; [constructor|].
  destruct e; cbn; [constructor 2 | | constructor 3]; exact IH.
Qed.

Lemma filter_sublist {A} (f : A -> bool) (xs : list A) :
  List.filter f xs `sublist_of` xs.
Proof.
  induction xs as [|x xs IH]; [constructor|].
  cbn. destruct (f x); [constructor 2 | constructor 3]; exact IH.
Qed.

(** *** The shape of a serial chain *)

Lemma all_chained_serial ch :
  forallb (fun l => is_chained (link_phase l)) ch = true -> serial ch = true.
Proof.
  induction ch as [|x ch IH]; [reflexivity|]. cbn.
  intros [Hx Hch]%andb_true_iff.
  destruct (link_phase x); try discriminate. exact Hch.
Qed.

Lemma serial_rebuild pre l post :
  forallb (fun x => is_done (link_phase x)) pre = true ->
  forallb (fun x => is_chained (link_phase x)) post = true ->
  serial (pre ++ l :: post) = true.
Proof.
  intros Hpre Hpost. induction pre as [|x pre IH]; cbn.
  - destruct (link_phase l); auto using all_chained_serial.
  - cbn in Hpre. apply andb_true_iff in Hpre as [Hx Hpre].
    destruct (link_phase x); try discriminate. auto.
Qed.

Lemma serial_focus ch : forall i l,
  serial ch = true -> ch !! i = Some l ->
  (is_running (link_phase l) = true
   \/ (is_chained (link_phase l) = true /\ previous_settled ch i = true)) ->
  exists pre post,
    ch = pre ++ l :: post /\ length pre = i
    /\ forallb (fun x => is_done (link_phase x)) pre = true
    /\ forallb (fun x => is_chained (link_phase x)) post = true.
Proof.
  induction ch as [|x ch IH]; intros i l Hs Hl Hc; [discriminate|].
  destruct i as [|i].
  - injection Hl as ->. exists [], ch. repeat split.
    cbn in Hs. destruct (link_phase l); try exact Hs.
    destruct Hc as [Hc|[Hc _]]; discriminate.
  - cbn in Hl. cbn in Hs. destruct (link_phase x) eqn:Hx.
    + exfalso. clear IH.
      assert (is_chained (link_phase l) = true) as Hlc.
      { rewrite forallb_forall in Hs. apply Hs.
        apply list_elem_of_In. eapply list_elem_of_lookup_2. exact Hl. }
      destruct Hc as [Hc|[_ Hc]].
      { destruct (link_phase l); discriminate. }
      cbn in Hc. destruct i as [|i]; cbn in Hc.
      { rewrite Hx in Hc. discriminate. }
      destruct (ch !! i) as [y|] eqn:Hy; [|discriminate].
      rewrite forallb_forall in Hs.
      assert (is_chained (link_phase y) = true) as Hyc.
      { apply Hs. apply list_elem_of_In. eapply list_elem_of_lookup_2. exact Hy. }
      destruct (link_phase y); discriminate.
    + exfalso. clear IH.
      assert (is_chained (link_phase l) = true) as Hlc.
      { rewrite forallb_forall in Hs. apply Hs.
        apply list_elem_of_In. eapply list_elem_of_lookup_2. exact Hl. }
      destruct Hc as [Hc|[_ Hc]].
      { destruct (link_phase l); discriminate. }
      cbn in Hc. destruct i as [|i]; cbn in Hc.
      { rewrite Hx in Hc. discriminate. }
      destruct (ch !! i) as [y|] eqn:Hy; [|discriminate].
      rewrite forallb_forall in Hs.
      assert (is_chained (link_phase y) = true) as Hyc.
      { apply Hs. apply list_elem_of_In. eapply list_elem_of_lookup_2. exact Hy. }
      destruct (link_phase y); discriminate.
    + destruct (IH i l Hs Hl) as (pre & post & -> & Hlen & Hpre & Hpost).
      { destruct Hc as [Hc|[Hc Hp]]; [left; exact Hc | right; split; [exact Hc|]].
        destruct i as [|i]; [reflexivity | exact Hp]. }
      exists (x :: pre), post. repeat split; cbn; auto.
      now rewrite Hx, Hpre.
Qed.

Lemma set_phase_focus pre l post ph :
  set_phase (length pre) ph (pre ++ l :: post)
  = pre ++ mkLink (link_call l) (link_fn l) ph :: post.
Proof.
  unfold set_phase. rewrite list_lookup_middle by reflexivity.
  rewrite insert_app_r_alt by lia. now rewrite Nat.sub_diag.
Qed.

Lemma running_call_focus pre l post :
  forallb (fun x => is_done (link_phase x)) pre = true ->
  forallb (fun x => is_chained (link_phase x)) post = true ->
  running_call (pre ++ l :: post)
  = if is_running (link_phase l) then Some (link_call l) else None.
Proof.
  intros Hpre Hpost. unfold running_call.
  induction pre as [|x pre IH]; cbn.
  - destruct (is_running (link_phase l)); [reflexivity|].
    induction post as [|y post IHp]; [reflexivity|].
    cbn in *. apply andb_true_iff in Hpost as [Hy Hpost].
    destruct (link_phase y); try discriminate. cbn. auto.
  - cbn in Hpre. apply andb_true_iff in Hpre as [Hx Hpre].
    destruct (link_phase x); try discriminate. cbn. auto.
Qed.

Lemma entered_links_focus pre l post :
  forallb (fun x => is_done (link_phase x)) pre = true ->
  forallb (fun x => is_chained (link_phase x)) post = true ->
  List.filter (fun x => negb (is_chained (link_phase x))) (pre ++ l :: post)
  = pre ++ (if is_chained (link_phase l) then [] else [l]).
Proof.
  intros Hpre Hpost. rewrite List.filter_app. f_equal.
  - induction pre as [|x pre IH]; [reflexivity|].
    cbn in *. apply andb_true_iff in Hpre as [Hx Hpre].
    destruct (link_phase x); try discriminate. cbn. f_equal. auto.
  - cbn. assert (List.filter (fun x => negb (is_chained (link_phase x))) post = [])
      as ->.
    { induction post as [|y post IH]; [reflexivity|].
      cbn in *. apply andb_true_iff in Hpost as [Hy Hpost].
      rewrite Hy. cbn. auto. }
    destruct (is_chained (link_phase l)); reflexivity.
Qed.

Lemma running_call_snoc ch l :
  is_chained (link_phase l) = true ->
  running_call (ch ++ [l]) = running_call ch.
Proof.
  intros Hl. unfold running_call. induction ch as [|x ch IH]; cbn.
  - destruct (link_phase l); try discriminate. reflexivity.
  - destruct (is_running (link_phase x)); [reflexivity | exact IH].
Qed.

Lemma serial_snoc ch l :
  is_chained (link_phase l) = true -> serial ch = true -> serial (ch ++ [l]) = true.
Proof.
  intros Hl. induction ch as [|x ch IH]; cbn.
  - intros _. destruct (link_phase l); try discriminate. reflexivity.
  - destruct (link_phase x); [| |exact IH];
      rewrite forallb_app; intros ->; cbn; now rewrite Hl.
Qed.

(** *** The invariant is kept by every step *)

Lemma chain_inv_new c ro opened : chain_inv (new_process c ro opened).
Proof.
  split; cbn.
  - reflexivity.
  - reflexivity.
  - reflexivity.
  - constructor.
  - constructor.
  - constructor.
  - intros j _. repeat split.
Qed.

(** A link moves on: link [l] of a focused chain takes phase [ph] and the
    event [e] about its call is recorded. *)
Lemma chain_inv_move p pre l post ph e c' o :
  chain_inv p ->
  chain p = pre ++ l :: post ->
  forallb (fun x => is_done (link_phase x)) pre = true ->
  forallb (fun x => is_chained (link_phase x)) post = true ->
  event_call e = link_call l ->
  is_chained ph = false ->
  pending (running_call (chain p)) [e]
  = Some (if is_running ph then Some (link_call l) else None) ->
  entered [e] = (if is_chained (link_phase l) then [link_call l] else []) ->
  counts_ok (link_call l) ph (history p ++ [e]) ->
  chain_inv (mkProcess c' (readOnly p) o (calls p) (holding p)
               (pre ++ mkLink (link_call l) (link_fn l) ph :: post)
               (history p ++ [e])).
Proof.
  intros [Hser Hpend Hent Hnd Hbd Hcnt Hoth] Hch Hpre Hpost He Hph Hp He' Hc.
  assert (map link_call (pre ++ mkLink (link_call l) (link_fn l) ph :: post)
          = map link_call (chain p)) as Hids.
  { rewrite Hch, !map_app. reflexivity. }
  split; cbn [db readOnly sqlite_open calls holding chain history].
  - now apply serial_rebuild.
  - rewrite pending_app, Hpend, Hp.
    rewrite running_call_focus by assumption. reflexivity.
  - change (history p ++ [e]) with (history p ++ [e] ++ []).
    unfold entered at 1. rewrite omap_app. fold (entered (history p)).
    fold (entered ([e] ++ [])). cbn [app]. rewrite Hent, He'.
    rewrite Hch, !entered_links_focus by assumption.
    cbn [link_phase]. rewrite Hph, !map_app.
    rewrite <- app_assoc. f_equal.
    destruct (is_chained (link_phase l)); reflexivity.
  - now rewrite Hids.
  - now rewrite Hids.
  - rewrite Hch in Hcnt, Hnd. rewrite map_app in Hnd. cbn [map] in Hnd.
    apply Forall_app in Hcnt as [Hc1 Hc2].
    apply Forall_cons in Hc2 as [_ Hc2].
    apply NoDup_app in Hnd as (Hnd & _ & _).
    apply NoDup_app in Hnd as (_ & Hdisj & Hnd2).
    apply NoDup_cons in Hnd2 as [Hnot _].
    apply Forall_app. split; [|apply Forall_cons; split; [exact Hc|]].
    + rewrite Forall_forall in Hc1 |- *. intros x Hx.
      apply counts_ok_other; [|auto].
      rewrite He. intros Heq. apply (Hdisj (link_call x)).
      * apply list_elem_of_fmap. eauto.
      * rewrite <- Heq. left.
    + rewrite Forall_forall in Hc2 |- *. intros x Hx.
      apply counts_ok_other; [|auto].
      rewrite He. intros Heq. apply Hnot. rewrite Heq.
      apply list_elem_of_fmap. eauto.
  - intros k Hk. rewrite Hids in Hk. apply counts_ok_other; [|auto].
    rewrite He. intros <-. apply Hk. rewrite Hch, map_app.
    apply elem_of_app. right. left.
Qed.

(** A call reaches line 512: its link is appended to the chain. *)
Lemma chain_inv_append p k fn (hold : list (nat * M jsval)) n :
  chain_inv p ->
  k ∉ map link_call (chain p) ->
  NoDup ((map link_call (chain p) ++ [k]) ++ map fst hold) ->
  Forall (fun j => j < n) ((map link_call (chain p) ++ [k]) ++ map fst hold) ->
  chain_inv (mkProcess (db p) (readOnly p) (sqlite_open p) n hold
               (chain p ++ [mkLink k fn Chained]) (history p)).
Proof.
  intros [Hser Hpend Hent Hnd Hbd Hcnt Hoth] Hk Hnd' Hbd'.
  split; cbn [db readOnly sqlite_open calls holding chain history].
  - now apply serial_snoc.
  - now rewrite running_call_snoc.
  - rewrite List.filter_app. cbn. now rewrite app_nil_r.
  - now rewrite map_app.
  - now rewrite map_app.
  - apply Forall_app. split; [exact Hcnt|]. apply Forall_singleton.
    exact (Hoth k Hk).
  - intros j Hj. apply Hoth. intros Hin. apply Hj.
    rewrite map_app. apply elem_of_app. now left.
Qed.

Lemma step_keeps_inv lbl p p' :
  chain_inv p -> step lbl p = Some p' -> chain_inv p'.
Proof.
  intros Hinv Hstep. destruct lbl as [fn| | |i|i|];
    unfold step, withTransaction in Hstep.
  6:{ (* close() *) injection Hstep as <-. destruct Hinv. split; cbn; auto. }
  - (* Call *)
    pose proof (inv_nodup p Hinv) as Hnd. pose proof (inv_bound p Hinv) as Hbd.
    assert (calls p ∉ map link_call (chain p) ++ map fst (holding p)) as Hfresh.
    { intros Hin. rewrite Forall_forall in Hbd. specialize (Hbd _ Hin). lia. }
    assert (Forall (fun j => j < S (calls p))
              (map link_call (chain p) ++ map fst (holding p))) as Hbd'.
    { eapply Forall_impl; [exact Hbd|]. cbn. intros; lia. }
    destruct (readOnly p) eqn:Hro; [|destruct (sqlite_open p) eqn:Hop];
      injection Hstep as <-.
    + destruct Hinv. split; cbn; auto.
    + rewrite <- Hro, <- Hop. apply chain_inv_append; [exact Hinv | | |].
      * intros Hin. apply Hfresh. apply elem_of_app. now left.
      * rewrite <- app_assoc. cbn. apply NoDup_app in Hnd as (H1 & H2 & H3).
        apply NoDup_app. repeat split; [exact H1 | | ].
        { intros x Hx [->|Hx']%elem_of_cons.
          - apply Hfresh. apply elem_of_app. now left.
          - exact (H2 x Hx Hx'). }
        apply NoDup_cons. split; [|exact H3].
        intros Hin. apply Hfresh. apply elem_of_app. now right.
      * rewrite <- app_assoc. cbn. apply Forall_app in Hbd' as [H1 H2].
        apply Forall_app. split; [exact H1|]. apply Forall_cons. split; [lia|exact H2].
    + destruct Hinv. split; cbn; auto.
      * rewrite map_app, app_assoc. apply NoDup_app. repeat split.
        { exact inv_nodup0. }
        { intros x Hx [->|[]%elem_of_nil]%elem_of_cons. exact (Hfresh Hx). }
        { apply NoDup_singleton. }
      * rewrite map_app, app_assoc. apply Forall_app. split; [exact Hbd'|].
        apply Forall_singleton. cbn. lia.
  - (* Opened *)
    injection Hstep as <-. destruct Hinv. split; cbn; auto.
  - (* Resume *)
    destruct (holding p) as [|[k fn] rest] eqn:Hhold; [discriminate|].
    destruct (sqlite_open p) eqn:Hop; [|discriminate]. injection Hstep as <-.
    pose proof (inv_nodup p Hinv) as Hnd. pose proof (inv_bound p Hinv) as Hbd.
    rewrite Hhold in Hnd, Hbd. cbn [map fst] in Hnd, Hbd.
    rewrite <- Hop. apply chain_inv_append; [exact Hinv | | |].
    + apply NoDup_app in Hnd as (_ & H2 & _). intros Hin.
      apply (H2 k Hin). left.
    + rewrite <- app_assoc. exact Hnd.
    + rewrite <- app_assoc. exact Hbd.
  - (* Start *)
    destruct (chain p !! i) as [l|] eqn:Hl; [|discriminate].
    destruct (is_chained (link_phase l)) eqn:Hlc; [|discriminate].
    destruct (previous_settled (chain p) i) eqn:Hprev; [|discriminate].
    cbn [andb] in Hstep.
    destruct (serial_focus (chain p) i l (inv_serial p Hinv) Hl)
      as (pre & post & Hch & Hlen & Hpre & Hpost); [right; auto|].
    assert (running_call (chain p) = None) as Hrun.
    { rewrite Hch, running_call_focus by assumption.
      destruct (link_phase l); try discriminate; reflexivity. }
    assert (counts_ok (link_call l) Chained (history p)) as Hc0.
    { pose proof (inv_counts p Hinv) as Hcnt. rewrite Forall_forall in Hcnt.
      assert (l ∈ chain p) as Hin by (eapply list_elem_of_lookup_2; exact Hl).
      specialize (Hcnt l Hin). destruct (link_phase l); try discriminate.
      exact Hcnt. }
    destruct Hc0 as (Hc1 & Hc2 & Hc3).
    destruct (begin_transaction RETRY_COUNT (db p)) as [[[]|err] c'];
      injection Hstep as <-; rewrite Hch, <- Hlen, set_phase_focus.
    + apply chain_inv_move; try assumption; try reflexivity.
      * now rewrite Hrun.
      * now rewrite Hlc.
      * unfold counts_ok. rewrite !count_event_snoc, Hc1, Hc2, Hc3. cbn.
        now rewrite Nat.eqb_refl.
    + apply chain_inv_move; try assumption; try reflexivity.
      * now rewrite Hrun.
      * now rewrite Hlc.
      * unfold counts_ok. rewrite !count_event_snoc, Hc1, Hc2, Hc3. cbn.
        rewrite Nat.eqb_refl. right. auto.
  - (* Finish *)
    destruct (chain p !! i) as [l|] eqn:Hl; [|discriminate].
    destruct (is_running (link_phase l)) eqn:Hlr; [|discriminate].
    destruct (serial_focus (chain p) i l (inv_serial p Hinv) Hl)
      as (pre & post & Hch & Hlen & Hpre & Hpost); [left; auto|].
    assert (running_call (chain p) = Some (link_call l)) as Hrun.
    { rewrite Hch, running_call_focus by assumption. now rewrite Hlr. }
    assert (counts_ok (link_call l) Running (history p)) as Hc0.
    { pose proof (inv_counts p Hinv) as Hcnt. rewrite Forall_forall in Hcnt.
      assert (l ∈ chain p) as Hin by (eapply list_elem_of_lookup_2; exact Hl).
      specialize (Hcnt l Hin). destruct (link_phase l); try discriminate.
      exact Hcnt. }
    destruct Hc0 as (Hc1 & Hc2 & Hc3).
    destruct ((r ← attempt (link_fn l); end_transaction r) (db p)) as [outcome c'].
    injection Hstep as <-. rewrite Hch, <- Hlen, set_phase_focus.
    apply chain_inv_move; try assumption; try reflexivity.
    + rewrite Hrun. cbn. now rewrite Nat.eqb_refl.
    + destruct (link_phase l); try discriminate. reflexivity.
    + unfold counts_ok. rewrite !count_event_snoc, Hc1, Hc2, Hc3. cbn.
      rewrite Nat.eqb_refl. left. auto.
Qed.

Lemma run_keeps_inv labels : forall p p',
  chain_inv p -> run labels p = Some p' -> chain_inv p'.
Proof.
  induction labels as [|lbl labels IH]; intros p p' Hinv Hrun; cbn in Hrun.
  - now injection Hrun as <-.
  - destruct (step lbl p) as [p1|] eqn:Hstep; [|discriminate].
    eauto using step_keeps_inv.
Qed.

Lemma reachable_inv c ro opened labels p :
  run labels (new_process c ro opened) = Some p -> chain_inv p.
Proof. apply run_keeps_inv, chain_inv_new. Qed.

Lemma step_keeps_opened lbl p p' :
  opened_inv p -> is_Closed lbl = false -> step lbl p = Some p' -> opened_inv p'.
Proof.
  intros (Hop & Hhold & Hids) Hlbl Hstep.
  destruct lbl as [fn| | |i|i|]; [| | | | |discriminate Hlbl];
    unfold step, withTransaction in Hstep.
  - rewrite Hop in Hstep. destruct (readOnly p) eqn:Hro; injection Hstep as <-;
      unfold opened_inv; cbn [sqlite_open holding chain readOnly calls];
      rewrite ?Hro; repeat split; auto.
    rewrite map_app, Hids, seq_S. reflexivity.
  - injection Hstep as <-. unfold opened_inv; cbn. auto.
  - rewrite Hhold in Hstep. discriminate.
  - destruct (chain p !! i) as [l|] eqn:Hl; [|discriminate].
    destruct (is_chained (link_phase l) && previous_settled (chain p) i);
      [|discriminate].
    assert (map link_call (set_phase i Running (chain p)) = map link_call (chain p)
            /\ forall e, map link_call (set_phase i (Done (Rejected e)) (chain p))
                         = map link_call (chain p)) as [H1 H2].
    { unfold set_phase. rewrite Hl. split; [|intros e];
        (apply list_eq; intros j; rewrite !list_lookup_fmap;
         destruct (decide (i = j)) as [<-|Hne];
         [rewrite list_lookup_insert_eq, Hl by (eapply lookup_lt_Some; eauto);
          reflexivity
         |rewrite list_lookup_insert_ne by assumption; reflexivity]). }
    destruct (begin_transaction RETRY_COUNT (db p)) as [[[]|err] c'];
      injection Hstep as <-; unfold opened_inv; cbn; rewrite ?H1, ?H2; auto.
  - destruct (chain p !! i) as [l|] eqn:Hl; [|discriminate].
    destruct (is_running (link_phase l)); [|discriminate].
    destruct ((r ← attempt (link_fn l); end_transaction r) (db p)) as [outcome c'].
    injection Hstep as <-. unfold opened_inv; cbn. repeat split; auto.
    rewrite <- Hids. unfold set_phase. rewrite Hl.
    apply list_eq; intros j; rewrite !list_lookup_fmap.
    destruct (decide (i = j)) as [<-|Hne].
    + rewrite list_lookup_insert_eq, Hl by (eapply lookup_lt_Some; eauto).
      reflexivity.
    + rewrite list_lookup_insert_ne by assumption. reflexivity.
Qed.

Lemma run_keeps_opened labels : forall p p',
  opened_inv p -> existsb is_Closed labels = false ->
  run labels p = Some p' -> opened_inv p'.
Proof.
  induction labels as [|lbl labels IH]; intros p p' Hinv Hno Hrun; cbn in Hrun.
  - now injection Hrun as <-.
  - destruct (step lbl p) as [p1|] eqn:Hstep; [|discriminate].
    cbn [existsb] in Hno. apply orb_false_iff in Hno as [Hl Hno].
    eauto using step_keeps_opened.
Qed.

Lemma fn_calls_in_chain_order p :
  chain_inv p -> fn_calls (history p) `sublist_of` map link_call (chain p).
Proof.
  intros Hinv. etransitivity; [apply fn_calls_sublist_entered|].
  rewrite (inv_entered p Hinv).
  apply (fmap_sublist link_call), filter_sublist.
Qed.

(** *** Running to quiescence *)

Lemma first_not_done ch :
  forallb (fun x => is_done (link_phase x)) ch = false ->
  exists pre l post,
    ch = pre ++ l :: post
    /\ forallb (fun x => is_done (link_phase x)) pre = true
    /\ is_done (link_phase l) = false.
Proof.
  induction ch as [|x ch IH]; [discriminate|]. cbn.
  destruct (is_done (link_phase x)) eqn:Hx; cbn.
  - intros (pre & l & post & -> & Hpre & Hl)%IH.
    exists (x :: pre), l, post. cbn. rewrite Hx, Hpre. auto.
  - intros _. exists [], x, ch. auto.
Qed.

Lemma previous_settled_focus pre l post :
  forallb (fun x => is_done (link_phase x)) pre = true ->
  previous_settled (pre ++ l :: post) (length pre) = true.
Proof.
  intros Hpre. destruct (length pre) as [|j] eqn:Hlen; [reflexivity|].
  cbn. rewrite lookup_app_l by lia.
  destruct (pre !! j) as [x|] eqn:Hx.
  - rewrite forallb_forall in Hpre. apply Hpre.
    apply list_elem_of_In. eapply list_elem_of_lookup_2. exact Hx.
  - apply lookup_ge_None in Hx. lia.
Qed.

Lemma forallb_false_ex {A} (f : A -> bool) (xs : list A) :
  forallb f xs = false -> exists x, In x xs /\ f x = false.
Proof.
  induction xs as [|x xs IH]; [discriminate|]. cbn.
  destruct (f x) eqn:Hx; cbn.
  - intros (y & Hy & Hfy)%IH. eauto.
  - intros _. eauto.
Qed.

(** A link that is not settled and has only settled links before it can
    take a step: the outcome of those links plays no part. *)
Lemma unsettled_link_steps p pre l post :
  chain p = pre ++ l :: post ->
  forallb (fun x => is_done (link_phase x)) pre = true ->
  is_done (link_phase l) = false ->
  can_step p (Start (length pre)) = true \/ can_step p (Finish (length pre)) = true.
Proof.
  intros Hch Hpre Hl. unfold can_step, step.
  rewrite Hch, list_lookup_middle by reflexivity.
  rewrite previous_settled_focus by assumption.
  destruct (link_phase l) eqn:Hph; try discriminate;
    cbn [is_chained is_running andb].
  - left. destruct (begin_transaction RETRY_COUNT (db p)) as [[[]|err] c'];
      reflexivity.
  - right.
    destruct ((r ← attempt (link_fn l); end_transaction r) (db p)); reflexivity.
Qed.

Lemma quiescent_all_done p :
  quiescent p = true ->
  forallb (fun x => is_done (link_phase x)) (chain p) = true.
Proof.
  intros Hq.
  destruct (forallb (fun x => is_done (link_phase x)) (chain p)) eqn:Hall;
    [reflexivity|exfalso].
  destruct (first_not_done _ Hall) as (pre & l & post & Hch & Hpre & Hl).
  unfold quiescent in Hq. apply andb_true_iff in Hq as [_ Hq].
  rewrite forallb_forall in Hq. specialize (Hq (length pre)).
  rewrite in_seq in Hq.
  assert (length pre < length (chain p)) as Hlt
    by (rewrite Hch, length_app; cbn; lia).
  specialize (Hq (conj (Nat.le_0_l _) Hlt)).
  apply andb_true_iff in Hq as [H1 H2].
  destruct (unsettled_link_steps p pre l post Hch Hpre Hl) as [H|H];
    rewrite H in *; discriminate.
Qed.

Lemma quiescent_nobody_held p :
  quiescent p = true -> sqlite_open p = true -> holding p = [].
Proof.
  unfold quiescent, can_step, step. intros [Hq _]%andb_true_iff Hop.
  destruct (holding p) as [|[k fn] rest]; [reflexivity|].
  rewrite Hop in Hq. discriminate.
Qed.

Lemma pending_work_focus p pre l post ph c' h' o :
  chain p = pre ++ l :: post ->
  phase_work ph < phase_work (link_phase l) ->
  pending_work
    (mkProcess c' (readOnly p) o (calls p) (holding p)
       (set_phase (length pre) ph (chain p)) h')
  < pending_work p.
Proof.
  intros Hch Hlt. unfold pending_work. cbn [holding chain].
  rewrite Hch, set_phase_focus, !map_app, !list_sum_app. cbn. lia.
Qed.

(** Every reaction uses up some of the pending work. *)
Lemma reaction_decreases lbl p p' :
  chain_inv p -> is_reaction lbl = true -> step lbl p = Some p' ->
  pending_work p' < pending_work p.
Proof.
  intros Hinv Hr Hstep. destruct lbl as [fn| | |i|i|]; try discriminate;
    unfold step in Hstep.
  - destruct (holding p) as [|[k fn] rest] eqn:Hhold; [discriminate|].
    destruct (sqlite_open p); [|discriminate]. injection Hstep as <-.
    unfold pending_work. cbn [holding chain]. rewrite Hhold.
    rewrite map_app, list_sum_app. cbn. lia.
  - destruct (chain p !! i) as [l|] eqn:Hl; [|discriminate].
    destruct (is_chained (link_phase l)) eqn:Hlc; [|discriminate].
    destruct (previous_settled (chain p) i) eqn:Hprev; [|discriminate].
    cbn [andb] in Hstep.
    destruct (serial_focus (chain p) i l (inv_serial p Hinv) Hl)
      as (pre & post & Hch & Hlen & Hpre & Hpost); [right; auto|].
    subst i.
    destruct (begin_transaction RETRY_COUNT (db p)) as [[[]|err] c'];
      injection Hstep as <-; apply (pending_work_focus p pre l post); auto;
      destruct (link_phase l); try discriminate; cbn; lia.
  - destruct (chain p !! i) as [l|] eqn:Hl; [|discriminate].
    destruct (is_running (link_phase l)) eqn:Hlr; [|discriminate].
    destruct (serial_focus (chain p) i l (inv_serial p Hinv) Hl)
      as (pre & post & Hch & Hlen & Hpre & Hpost); [left; auto|].
    subst i.
    destruct ((r ← attempt (link_fn l); end_transaction r) (db p)) as [outcome c'].
    injection Hstep as <-. apply (pending_work_focus p pre l post); auto.
    destruct (link_phase l); try discriminate; cbn; lia.
Qed.

Lemma not_quiescent_steps p :
  quiescent p = false ->
  exists lbl p', is_reaction lbl = true /\ step lbl p = Some p'.
Proof.
  unfold quiescent. intros [Hq|Hq]%andb_false_iff.
  - apply negb_false_iff in Hq. unfold can_step in Hq.
    destruct (step Resume p) as [p'|] eqn:Hs; [|discriminate].
    exists Resume, p'. auto.
  - apply forallb_false_ex in Hq as (i & _ & [Hq|Hq]%andb_false_iff);
      apply negb_false_iff in Hq; unfold can_step in Hq.
    + destruct (step (Start i) p) as [p'|] eqn:Hs; [|discriminate].
      exists (Start i), p'. auto.
    + destruct (step (Finish i) p) as [p'|] eqn:Hs; [|discriminate].
      exists (Finish i), p'. auto.
Qed.

(** From any state of the loop the pending reactions can all be run. *)
Lemma runs_to_quiescence n : forall p,
  pending_work p <= n -> chain_inv p ->
  exists more p', run more p = Some p' /\ quiescent p' = true.
Proof.
  induction n as [|n IH]; intros p Hn Hinv.
  - destruct (quiescent p) eqn:Hq.
    + exists [], p. auto.
    + destruct (not_quiescent_steps p Hq) as (lbl & p1 & Hr & Hs).
      pose proof (reaction_decreases lbl p p1 Hinv Hr Hs). lia.
  - destruct (quiescent p) eqn:Hq.
    + exists [], p. auto.
    + destruct (not_quiescent_steps p Hq) as (lbl & p1 & Hr & Hs).
      pose proof (reaction_decreases lbl p p1 Hinv Hr Hs) as Hlt.
      destruct (IH p1) as (more & p' & Hrun & Hq'); [lia | eauto using step_keeps_inv |].
      exists (lbl :: more), p'. cbn. rewrite Hs. auto.
Qed.

Lemma lookup_set_phase ch i l ph :
  ch !! i = Some l ->
  set_phase i ph ch !! i = Some (mkLink (link_call l) (link_fn l) ph).
Proof.
  intros Hl. unfold set_phase. rewrite Hl.
  apply list_lookup_insert_eq. eapply lookup_lt_Some. exact Hl.
Qed.

(** The two reactions of a link together are one run of
    [__withTransaction(fn)] on the connection: the link settles the way
    that call settles.  When [BEGIN IMMEDIATE] fails for good the first
    reaction is the whole run. *)
Lemma link_runs_withTransaction p i l :
  chain p !! i = Some l -> link_phase l = Chained ->
  previous_settled (chain p) i = true ->
  exists p1,
    step (Start i) p = Some p1
    /\ match step (Finish i) p1 with
       | Some p2 =>
           (db p2, link_phase <$> chain p2 !! i)
           = ((__withTransaction (link_fn l) RETRY_COUNT (db p)).2,
              Some (Done (__withTransaction (link_fn l) RETRY_COUNT (db p)).1))
       | None =>
           (db p1, link_phase <$> chain p1 !! i)
           = ((__withTransaction (link_fn l) RETRY_COUNT (db p)).2,
              Some (Done (__withTransaction (link_fn l) RETRY_COUNT (db p)).1))
       end.
Proof.
  intros Hl Hph Hprev.
  assert (__withTransaction (link_fn l) RETRY_COUNT (db p)
          = match begin_transaction RETRY_COUNT (db p) with
            | (Fulfilled _, c1) => (r ← attempt (link_fn l); end_transaction r) c1
            | (Rejected e, c1) => (Rejected e, c1)
            end) as Hwt by (rewrite withTransaction_split; reflexivity).
  rewrite Hwt. clear Hwt.
  unfold step at 1. rewrite Hl, Hph, Hprev. cbn [is_chained andb].
  destruct (begin_transaction RETRY_COUNT (db p)) as [[[]|err] c1].
  - eexists. split; [reflexivity|]. unfold step.
    cbn [chain db]. rewrite (lookup_set_phase _ _ _ _ Hl). cbn [link_phase is_running link_fn].
    destruct ((r ← attempt (link_fn l); end_transaction r) c1) as [outcome c2].
    cbn [chain db]. rewrite (lookup_set_phase _ _ _ _ (lookup_set_phase _ _ _ _ Hl)).
    reflexivity.
  - eexists. split; [reflexivity|]. unfold step.
    cbn [chain db]. rewrite (lookup_set_phase _ _ _ _ Hl). cbn [link_phase is_running].
    reflexivity.
Qed.

End TransactionChain.

(** C7, as stated, fails on a connection that is still opening: a call made
    before [this._sqlite] is set waits in [await this._hold('transaction')]
    and reaches the chain only when it resumes, so a call made in between
    (from a reaction on [db.dbP], say) is chained, and run, before it.  Here
    call 0 is made first and its [fn] runs after the [fn] of call 1.  The
    same happens on a connection that was open, once [close()] has been
    called. *)
Lemma held_call_is_overtaken :
  (fun p => (fn_calls (history p), calls p))
    <$> run overtaking_calls (new_process healthy_conn false false)
  = Some ([1; 0], 2)
  /\ (fun p => (fn_calls (history p), calls p))
       <$> run overtaking_after_close (new_process healthy_conn false true)
     = Some ([1; 0], 2)
  /\ (fns_run_in_call_order -> False).
Proof.
  split; [vm_compute; reflexivity|].
  split; [vm_compute; reflexivity|].
  intros H.
  eassert (run overtaking_calls (new_process healthy_conn false false) = Some _)
    as Hrun by (vm_compute; reflexivity).
  specialize (H healthy_conn false false overtaking_calls _ Hrun).
  vm_compute in H. inversion H as [| |x l1 l2 H1]; subst.
  inversion H1 as [|x l1 l2 H2|x l1 l2 H2]; subst.
  - inversion H2.
  - inversion H2.
Qed.

(** C7 (amended): the transactions of one connection are serialised by the
    promise chain: no [fn] is called while the promise of another one is
    pending (the chain is a run of settled links, at most one running link,
    then links not started), and the [fn]s run in the order in which their
    calls were chained on [transactionP].  On a connection that was open
    before the first call, and on which [close()] has not been called since,
    that is the order in which [withTransaction] was called. *)
Theorem transactions_are_serialised c ro opened labels p :
  run labels (new_process c ro opened) = Some p ->
  one_at_a_time (history p) = true
  /\ serial (chain p) = true
  /\ NoDup (map link_call (chain p))
  /\ fn_calls (history p) `sublist_of` map link_call (chain p)
  /\ (opened = true -> existsb is_Closed labels = false ->
      fn_calls (history p) `sublist_of` seq 0 (calls p)).
Proof.
  intros Hrun. pose proof (reachable_inv _ _ _ _ _ Hrun) as Hinv.
  split; [|split; [|split; [|split]]].
  - unfold one_at_a_time. now rewrite (inv_pending p Hinv).
  - exact (inv_serial p Hinv).
  - pose proof (inv_nodup p Hinv) as Hnd. now apply NoDup_app in Hnd as (Hnd & _ & _).
  - now apply fn_calls_in_chain_order.
  - intros -> Hno.
    assert (opened_inv p) as (_ & _ & Hids).
    { eapply run_keeps_opened; [|exact Hno|exact Hrun]. unfold opened_inv. cbn.
      repeat split. now destruct ro. }
    pose proof (fn_calls_in_chain_order p Hinv) as Hsub. rewrite Hids in Hsub.
    destruct (readOnly p); [|exact Hsub].
    apply sublist_nil_r in Hsub. rewrite Hsub. apply sublist_nil_l.
Qed.

(** Two calls on an open connection, the first of which throws. *)
Lemma transactions_are_serialised_witness :
  exists p,
    run two_calls (new_process healthy_conn false true) = Some p
    /\ fn_calls (history p) = [0; 1]
    /\ one_at_a_time (history p) = true
    /\ fn_calls (history p) `sublist_of` seq 0 (calls p).
Proof.
  eassert (run two_calls (new_process healthy_conn false true) = Some _)
    as Hrun by (vm_compute; reflexivity).
  pose proof (transactions_are_serialised healthy_conn false true two_calls _ Hrun)
    as (H1 & _ & _ & _ & H5).
  eexists. split; [exact Hrun|]. split; [vm_compute; reflexivity|].
  split; [exact H1 | exact (H5 eq_refl eq_refl)].
Defined.

(** C10: a rejected transaction does not stop the chain.  A [fn] that
    throws makes its link reject with the error thrown, after [ROLLBACK];
    whatever the [fn]s do, the reaction of a link whose predecessor has
    rejected is ready to run; the pending reactions can always be run to the
    end; and once none is left every call that reached the chain has
    settled with its [fn] executed exactly once, unless [BEGIN IMMEDIATE]
    failed for that very call. *)
Theorem later_transactions_still_run c ro opened labels p :
  run labels (new_process c ro opened) = Some p ->
  (forall (fn : M jsval) c0 error c1 c2,
      fn c0 = (Rejected error, c1) -> exec "ROLLBACK" c1 = (Fulfilled tt, c2) ->
      (r ← attempt fn; end_transaction r) c0
      = (Rejected error,
         record_effect (Emit "finally")
           (record_effect (Emit "rollback") (set_inTransaction false c2))))
  /\ (forall i prev l e,
      chain p !! i = Some prev -> link_phase prev = Done (Rejected e) ->
      chain p !! S i = Some l -> link_phase l = Chained ->
      can_step p (Start (S i)) = true)
  /\ (exists more p', run more p = Some p' /\ quiescent p' = true)
  /\ (quiescent p = true ->
      Forall (ran_once (history p)) (chain p)
      /\ (sqlite_open p = true -> holding p = [])).
Proof.
  intros Hrun. pose proof (reachable_inv _ _ _ _ _ Hrun) as Hinv.
  split; [|split; [|split]].
  - intros fn c0 error c1 c2 Hfn Hrb.
    cbv beta iota zeta delta [mbind M_bind bind attempt end_transaction].
    rewrite Hfn. cbv beta iota. rewrite Hrb. reflexivity.
  - intros i prev l e Hprev Hpe Hl Hlc. unfold can_step, step.
    rewrite Hl, Hlc. cbn [is_chained andb previous_settled].
    rewrite Hprev, Hpe. cbn [is_done].
    destruct (begin_transaction RETRY_COUNT (db p)) as [[[]|err] c']; reflexivity.
  - exact (runs_to_quiescence (pending_work p) p (Nat.le_refl _) Hinv).
  - intros Hq. split; [|now apply quiescent_nobody_held].
    pose proof (quiescent_all_done p Hq) as Hdone.
    pose proof (inv_counts p Hinv) as Hcnt.
    rewrite forallb_forall in Hdone. rewrite Forall_forall in Hcnt |- *.
    intros l Hl. specialize (Hcnt l Hl).
    specialize (Hdone l (proj1 (list_elem_of_In _ _) Hl)).
    unfold ran_once. destruct (link_phase l) as [| |outcome]; try discriminate.
    exists outcome. split; [reflexivity|].
    destruct Hcnt as [(H1 & H2 & H3)|(H1 & H2 & H3)]; auto.
Qed.

(** The first [fn] throws and its transaction is rolled back; the second
    one runs all the same, once, and commits. *)
Lemma later_transactions_still_run_witness :
  exists p,
    run two_calls (new_process healthy_conn false true) = Some p
    /\ map link_phase (chain p)
       = [Done (Rejected (mkError "boom" None)); Done (Fulfilled (JNum 7))]
    /\ history p = [FnCalled 0; FnSettled 0; FnCalled 1; FnSettled 1]
    /\ effects (db p)
       = [Issue "BEGIN IMMEDIATE"; Emit "begin"; Issue "ROLLBACK"; Emit "rollback";
          Emit "finally";
          Issue "BEGIN IMMEDIATE"; Emit "begin"; Issue "END"; Emit "end";
          Emit "finally"]
    /\ Forall (ran_once (history p)) (chain p).
Proof.
  eassert (run two_calls (new_process healthy_conn false true) = Some _)
    as Hrun by (vm_compute; reflexivity).
  pose proof (later_transactions_still_run healthy_conn false true two_calls _ Hrun)
    as (_ & _ & _ & H).
  eexists. split; [exact Hrun|]. do 3 (split; [vm_compute; reflexivity|]).
  refine (proj1 (H _)). vm_compute. reflexivity.
Defined.

(** * The dispatch engine *)

Section Pipeline.

Variable models : registry.

Lemma preprocess_keeps_v ms : forall s isMain e ch e' ch',
  preprocess ms s isMain e ch = inr (e', ch') -> ev_v e' = ev_v e.
Proof.
  induction ms as [|[name m] ms IH]; intros s isMain e ch e' ch' H; cbn in H.
  - now injection H as <- _.
  - destruct (preprocessor m) as [pp|]; [|eauto].
    destruct (pre_returned (pp (mkContext e name s isMain))); try discriminate;
      (case_bool_decide as Hv; cbn in H; [|discriminate];
       destruct (ev_type (effective_event _)); [|discriminate];
       apply IH in H; congruence).
Qed.

Lemma derive_version ms : forall s isMain e ch s' ch',
  derive ms s isMain e ch = inr (s', ch') -> version s' = version s.
Proof.
  induction ms as [|[name m] ms IH]; intros s isMain e ch s' ch' H; cbn in H.
  - now injection H as <- _.
  - destruct (deriver m) as [der|]; [|eauto].
    destruct (der (mkContext e name s isMain)) as [err|w d]; [discriminate|].
    apply IH in H. exact H.
Qed.

Lemma apply_models_version ms : forall res s s',
  apply_models ms res s = inr s' -> version s' = version s.
Proof.
  induction ms as [|[name m] ms IH]; intros res s s' H; cbn in H.
  - now injection H as <-.
  - destruct (lookup_result name res) as [r|]; [|eauto].
    destruct (apply_reduction r (table_of name s)) as [t|]; [|discriminate].
    apply IH in H. exact H.
Qed.

Lemma applyEvent_version s e isMain s' :
  _applyEvent models s e isMain = inr s' ->
  version s' = if isMain then default (version s) (ev_v e) else version s.
Proof.
  unfold _applyEvent. destruct (apply_models models _ s) as [err|s1] eqn:Ha;
    [discriminate|].
  intros [= <-]. apply apply_models_version in Ha.
  destruct isMain; [|exact Ha]. destruct (ev_v e); cbn; [reflexivity|exact Ha].
Qed.

Lemma handle_children_version h :
  (forall s c, version (h s c).1.1 = version s) ->
  forall cs s, version (handle_children h s cs).1.1.1 = version s.
Proof.
  intros Hh. induction cs as [|c cs IH]; intros s; cbn; [reflexivity|].
  specialize (Hh s c). destruct (h s c) as [[s1 done] vis]. cbn in Hh.
  destruct (ev_error done); cbn; [exact Hh|].
  specialize (IH s1). destruct (handle_children h s1 cs) as [[[s2 dones] err] vis'].
  cbn in *. congruence.
Qed.

(** One level of [handle], phase by phase. *)
Lemma handle_S depth path isMain s e :
  handle (S depth) models path isMain s e =
  match preprocess models s isMain (with_events None e) [] with
  | inl failed => (s, failed, [])
  | inr (e1, ch1) =>
      match reduce models s isMain e1 [] [] with
      | inl (key, cause) => (s, fail_event key cause e1, [])
      | inr (results, ch2) =>
          let e2 := with_result (Some results) e1 in
          match _applyEvent models s e2 isMain with
          | inl (key, cause) => (s, fail_event key cause e1, [])
          | inr s1 =>
              match derive models s1 isMain e2 [] with
              | inl (key, cause) => (s1, fail_event key cause e2, [])
              | inr (s2, ch3) =>
                  let requests := ch1 ++ ch2 ++ ch3 in
                  match handle_children
                          (fun st child =>
                             handle depth models
                               (path ++ [default EmptyString (ev_type child)])
                               false st child)
                          s2 (map (child_event e2) requests) with
                  | (s3, dones, err, visited) =>
                      (s3,
                       with_error err
                         (with_events
                            (match requests with [] => None | _ => Some dones end)
                            e2),
                       default EmptyString (ev_type e2) :: visited)
                  end
              end
          end
      end
  end.
Proof. reflexivity. Qed.

(** Sub-events leave the version alone. *)
Lemma handle_child_version depth : forall path s e,
  version (handle depth models path false s e).1.1 = version s.
Proof.
  induction depth as [|depth IH]; intros path s e; [reflexivity|].
  rewrite handle_S.
  destruct (preprocess models s false (with_events None e) [])
    as [failed|[e1 ch1]]; [reflexivity|].
  destruct (reduce models s false e1 [] []) as [[key cause]|[results ch2]];
    [reflexivity|].
  cbv zeta.
  destruct (_applyEvent models s (with_result (Some results) e1) false)
    as [[key cause]|s1] eqn:Ha; [reflexivity|].
  apply applyEvent_version in Ha.
  destruct (derive models s1 false (with_result (Some results) e1) [])
    as [[key cause]|[s2 ch3]] eqn:Hd; [exact Ha|].
  apply derive_version in Hd.
  pose proof (handle_children_version
                (fun st child =>
                   handle depth models (path ++ [default EmptyString (ev_type child)])
                     false st child)
                (fun st c => IH _ st c)
                (map (child_event (with_result (Some results) e1)) (ch1 ++ ch2 ++ ch3))
                s2) as Hc.
  destruct (handle_children _ s2 _) as [[[s3 dones] err] vis]. cbn in *. congruence.
Qed.

Lemma preprocess_failed ms : forall s isMain e ch failed,
  preprocess ms s isMain e ch = inl failed -> is_Some (ev_error failed).
Proof.
  induction ms as [|[name m] ms IH]; intros s isMain e ch failed H; cbn in H.
  - discriminate.
  - destruct (preprocessor m) as [pp|]; [|eauto].
    destruct (pre_returned (pp (mkContext e name s isMain)));
      try (injection H as <-; cbn; eauto);
      (case_bool_decide as Hv; cbn in H; [|injection H as <-; cbn; eauto];
       destruct (ev_type (effective_event _)); [|injection H as <-; cbn; eauto];
       eauto).
Qed.

(** After a root event the version is the [v] of the event. *)
Lemma handle_root_version s e n :
  ev_v e = Some n -> version (handle_root models s e).1 = n.
Proof.
  intros Hv. unfold handle_root.
  destruct (handle (S MAX_DEPTH) models [] true s e) as [[s' e'] vis] eqn:Hh.
  destruct (ev_error e') as [err|] eqn:He; cbn; [now rewrite Hv|].
  rewrite handle_S in Hh.
  destruct (preprocess models s true (with_events None e) [])
    as [failed|[e1 ch1]] eqn:Hp.
  { injection Hh as <- <- <-. apply preprocess_failed in Hp as [x Hx]. congruence. }
  apply preprocess_keeps_v in Hp. cbn in Hp.
  destruct (reduce models s true e1 [] []) as [[key cause]|[results ch2]].
  { injection Hh as <- <- <-. discriminate He. }
  cbv zeta in Hh.
  destruct (_applyEvent models s (with_result (Some results) e1) true)
    as [[key cause]|s1] eqn:Ha.
  { injection Hh as <- <- <-. discriminate He. }
  apply applyEvent_version in Ha. cbn in Ha. rewrite Hp, Hv in Ha. cbn in Ha.
  destruct (derive models s1 true (with_result (Some results) e1) [])
    as [[key cause]|[s2 ch3]] eqn:Hd.
  { injection Hh as <- <- <-. discriminate He. }
  apply derive_version in Hd.
  pose proof (handle_children_version
                (fun st child =>
                   handle MAX_DEPTH models ([] ++ [default EmptyString (ev_type child)])
                     false st child)
                (fun st c => handle_child_version MAX_DEPTH _ st c)
                (map (child_event (with_result (Some results) e1)) (ch1 ++ ch2 ++ ch3))
                s2) as Hc.
  destruct (handle_children _ s2 _) as [[[s3 dones] err] vis'].
  injection Hh as <- <- <-. cbn in *. congruence.
Qed.

Lemma handle_children_preorder h :
  (forall s c s' c' v, h s c = (s', c', v) -> ev_error c' = None -> v = preorder c') ->
  forall cs s s' dones vis,
    handle_children h s cs = (s', dones, None, vis) -> vis = flat_map preorder dones.
Proof.
  intros Hh. induction cs as [|c cs IH]; intros s s' dones vis H; cbn in H.
  - now injection H as _ <- <-.
  - destruct (h s c) as [[s1 done] v] eqn:Hc.
    destruct (ev_error done) as [err|] eqn:He; [discriminate|].
    destruct (handle_children h s1 cs) as [[[s2 dones'] err] vis'] eqn:Hcs.
    injection H as _ <- -> <-. cbn.
    rewrite (Hh _ _ _ _ _ Hc He), (IH _ _ _ _ Hcs). reflexivity.
Qed.

(** The nodes go through their phases in the pre-order of the event tree
    that is written back. *)
Lemma handle_preorder depth : forall path isMain s e s' e' vis,
  handle depth models path isMain s e = (s', e', vis) ->
  ev_error e' = None -> vis = preorder e'.
Proof.
  induction depth as [|depth IH]; intros path isMain s e s' e' vis Hh He.
  - cbn in Hh. injection Hh as _ <- _. discriminate He.
  - rewrite handle_S in Hh.
    destruct (preprocess models s isMain (with_events None e) [])
      as [failed|[e1 ch1]] eqn:Hp.
    { injection Hh as _ <- _. apply preprocess_failed in Hp as [x Hx]. congruence. }
    destruct (reduce models s isMain e1 [] []) as [[key cause]|[results ch2]].
    { injection Hh as _ <- _. discriminate He. }
    cbv zeta in Hh.
    destruct (_applyEvent models s (with_result (Some results) e1) isMain)
      as [[key cause]|s1].
    { injection Hh as _ <- _. discriminate He. }
    destruct (derive models s1 isMain (with_result (Some results) e1) [])
      as [[key cause]|[s2 ch3]].
    { injection Hh as _ <- _. discriminate He. }
    destruct (ch1 ++ ch2 ++ ch3) as [|r rs].
    { cbn in Hh. now injection Hh as _ <- <-. }
    destruct (handle_children _ s2 _) as [[[s3 dones] err] vis'] eqn:Hc.
    injection Hh as _ <- <-. cbn in He. subst err.
    apply handle_children_preorder in Hc; [|intros; eapply IH; eauto].
    subst vis'. reflexivity.
Qed.



End Pipeline.

Lemma surjective_pairing_3 {A B C} (x : A * B * C) : x = (x.1.1, x.1.2, x.2).
Proof. now destruct x as [[a b] c]. Qed.

(** ** The worker loop comes to an end *)

Section Worker.

Lemma preprocess_failed_v ms : forall s isMain e ch failed,
  preprocess ms s isMain e ch = inl failed -> ev_v failed = ev_v e.
Proof.
  induction ms as [|[name m] ms IH]; intros s isMain e ch failed H; cbn in H.
  - discriminate.
  - destruct (preprocessor m) as [pp|]; [|eauto].
    destruct (pre_returned (pp (mkContext e name s isMain)));
      try (injection H as <-; reflexivity);
      (case_bool_decide as Hv; cbn in H; [|injection H as <-; reflexivity];
       destruct (ev_type (effective_event _)); [|injection H as <-; reflexivity];
       apply IH in H; congruence).
Qed.

Lemma failed_is_settled e x : ev_error e = Some x -> is_unhandled e = false.
Proof. unfold is_unhandled. intros ->. now destruct (ev_result e). Qed.

(** Handling an event keeps its [v] and leaves it handled or failed. *)
Lemma handle_settles ms depth path isMain s e s' e' vis :
  handle depth ms path isMain s e = (s', e', vis) ->
  ev_v e' = ev_v e /\ is_unhandled e' = false.
Proof.
  destruct depth as [|depth].
  - cbn. intros [= _ <- _]. split; [reflexivity|].
    eapply failed_is_settled. reflexivity.
  - rewrite handle_S.
    destruct (preprocess ms s isMain (with_events None e) [])
      as [failed|[e1 ch1]] eqn:Hp.
    { intros [= _ <- _]. split.
      - now apply preprocess_failed_v in Hp.
      - apply preprocess_failed in Hp as [x Hx]. eapply failed_is_settled, Hx. }
    apply preprocess_keeps_v in Hp. cbn in Hp.
    destruct (reduce ms s isMain e1 [] []) as [[key cause]|[results ch2]].
    { intros [= _ <- _]. split; [exact Hp|]. eapply failed_is_settled. reflexivity. }
    cbv zeta.
    destruct (_applyEvent ms s (with_result (Some results) e1) isMain)
      as [[key cause]|s1].
    { intros [= _ <- _]. split; [exact Hp|]. eapply failed_is_settled. reflexivity. }
    destruct (derive ms s1 isMain (with_result (Some results) e1) [])
      as [[key cause]|[s2 ch3]].
    { intros [= _ <- _]. split; [exact Hp|]. reflexivity. }
    destruct (handle_children _ s2 _) as [[[s3 dones] err] vis'].
    intros [= _ <- _]. split; [exact Hp|]. reflexivity.
Qed.

Lemma handle_root_settles ms s e :
  ev_v (handle_root ms s e).2 = ev_v e /\ is_unhandled (handle_root ms s e).2 = false.
Proof.
  unfold handle_root.
  destruct (handle (S MAX_DEPTH) ms [] true s e) as [[s' e'] vis] eqn:Hh.
  apply handle_settles in Hh. now destruct (ev_error e').
Qed.

Lemma queue_set_elem e q x : x ∈ queue_set e q -> x = e \/ x ∈ q.
Proof.
  induction q as [|row q IH]; cbn [queue_set].
  - intros ->%list_elem_of_singleton. now left.
  - destruct (Nat.eqb (default 0 (ev_v row)) (default 0 (ev_v e))).
    + intros [->|H]%elem_of_cons; [now left | right; now right].
    + destruct (Nat.ltb (default 0 (ev_v e)) (default 0 (ev_v row))).
      * intros [->|H]%elem_of_cons; [now left | now right].
      * intros [->|H]%elem_of_cons; [right; left|].
        destruct (IH H) as [->|H']; [now left | right; now right].
Qed.

Lemma queue_set_sorted e q : queue_sorted q -> queue_sorted (queue_set e q).
Proof.
  induction q as [|row q IH]; cbn [queue_set queue_sorted].
  - intros _. split; constructor.
  - intros [Hrow Hq]. fold (row_v row). fold (row_v e).
    destruct (Nat.eqb_spec (row_v row) (row_v e)) as [Heq|Hne].
    + cbn. split; [|exact Hq]. now rewrite <- Heq.
    + destruct (Nat.ltb_spec (row_v e) (row_v row)) as [Hlt|Hge].
      * cbn. repeat split; [|exact Hrow|exact Hq].
        constructor; [exact Hlt|].
        eapply Forall_impl; [exact Hrow|]. cbn. intros; lia.
      * cbn. split; [|now apply IH].
        rewrite Forall_forall. intros x [->|Hx]%queue_set_elem; [lia|].
        rewrite Forall_forall in Hrow. now apply Hrow.
Qed.

(** Writing back the row of the next unhandled event, now settled, leaves
    one unhandled row less. *)
Lemma queue_set_settles e e' q :
  queue_sorted q -> next_unhandled q = Some e ->
  row_v e' = row_v e -> is_unhandled e' = false ->
  S (count_unhandled (queue_set e' q)) = count_unhandled q.
Proof.
  unfold next_unhandled, count_unhandled.
  induction q as [|row q IH]; cbn [find queue_set queue_sorted List.filter];
    [discriminate|].
  intros [Hrow Hq] Hfind Hv He'. fold (row_v row). fold (row_v e').
  destruct (is_unhandled row) eqn:Hu.
  - injection Hfind as ->. rewrite Hv, Nat.eqb_refl.
    cbn [List.filter]. now rewrite He'.
  - assert (row_v row < row_v e') as Hlt.
    { rewrite Hv. rewrite Forall_forall in Hrow. apply Hrow.
      apply list_elem_of_In. eapply find_some. exact Hfind. }
    destruct (Nat.eqb_spec (row_v row) (row_v e')) as [Heq|_]; [lia|].
    destruct (Nat.ltb_spec (row_v e') (row_v row)) as [Hlt'|_]; [lia|].
    cbn [List.filter]. rewrite Hu. now apply IH.
Qed.

Lemma process_next_progress db db' :
  queue_sorted (queue db) -> process_next db = Some db' ->
  queue_sorted (queue db')
  /\ S (count_unhandled (queue db')) = count_unhandled (queue db).
Proof.
  unfold process_next. intros Hs.
  destruct (next_unhandled (queue db)) as [e|] eqn:Hn; [|discriminate].
  pose proof (handle_root_settles (models db) (state db) e) as [Hv Hu].
  destruct (handle_root (models db) (state db) e) as [s' e']. cbn in Hv, Hu.
  intros [= <-]. cbn [queue]. split; [now apply queue_set_sorted|].
  apply (queue_set_settles e); auto. unfold row_v. now rewrite Hv.
Qed.

Lemma nothing_unhandled q : count_unhandled q = 0 -> next_unhandled q = None.
Proof.
  unfold count_unhandled, next_unhandled.
  induction q as [|row q IH]; cbn; [reflexivity|].
  destruct (is_unhandled row); cbn; [discriminate | exact IH].
Qed.

Lemma drain_enough turns : forall db,
  queue_sorted (queue db) -> count_unhandled (queue db) <= turns ->
  next_unhandled (queue (drain turns db)) = None.
Proof.
  induction turns as [|turns IH]; intros db Hs Hc; cbn [drain].
  - apply nothing_unhandled. lia.
  - destruct (process_next db) as [db'|] eqn:Hp.
    + apply process_next_progress in Hp as [Hs' Hc']; [|exact Hs].
      apply IH; [exact Hs' | lia].
    + unfold process_next in Hp.
      destruct (next_unhandled (queue db)) as [e|]; [|reflexivity].
      destruct (handle_root _ _ e). discriminate.
Qed.

(** The worker, given one turn per row, leaves no event unhandled. *)
Lemma settle_leaves_nothing db :
  queue_sorted (queue db) -> next_unhandled (queue (settle db)) = None.
Proof.
  intros Hs. apply drain_enough; [exact Hs|].
  unfold count_unhandled. apply List.filter_length_le.
Qed.

(** The worker takes the unhandled events in increasing [v]. *)
Lemma next_unhandled_smallest q e :
  queue_sorted q -> next_unhandled q = Some e ->
  forall x, x ∈ q -> is_unhandled x = true -> row_v e <= row_v x.
Proof.
  unfold next_unhandled.
  induction q as [|row q IH]; cbn [find queue_sorted]; [discriminate|].
  intros [Hrow Hq] Hfind x Hx Hu.
  destruct (is_unhandled row) eqn:Hr.
  - injection Hfind as <-. apply elem_of_cons in Hx as [->|Hx]; [lia|].
    rewrite Forall_forall in Hrow. specialize (Hrow x Hx). lia.
  - apply elem_of_cons in Hx as [->|Hx]; [congruence|]. now apply IH.
Qed.

End Worker.

(** What the phases had collected before does not matter to what they
    add. *)
Lemma preprocess_acc ms : forall s isMain e ch0 ch,
  preprocess ms s isMain e (ch0 ++ ch)
  = match preprocess ms s isMain e ch with
    | inl failed => inl failed
    | inr (e', ch') => inr (e', ch0 ++ ch')
    end.
Proof.
  induction ms as [|[name m] ms IH]; intros s isMain e ch0 ch; [reflexivity|].
  cbn [preprocess]. destruct (preprocessor m) as [pp|]; [|apply IH].
  destruct (pre_returned (pp (mkContext e name s isMain))); try reflexivity;
    (destruct (negb (bool_decide _)); [reflexivity|];
     destruct (ev_type (effective_event _)); [|reflexivity];
     rewrite <- app_assoc; apply IH).
Qed.

Lemma reduce_acc ms : forall s isMain e res ch0 ch,
  reduce ms s isMain e res (ch0 ++ ch)
  = match reduce ms s isMain e res ch with
    | inl err => inl err
    | inr (res', ch') => inr (res', ch0 ++ ch')
    end.
Proof.
  induction ms as [|[name m] ms IH]; intros s isMain e res ch0 ch; [reflexivity|].
  cbn [reduce]. destruct (reducer m) as [red|]; [|apply IH].
  destruct (red (mkContext e name s isMain)) as [err|[r|] d]; [reflexivity| |];
    rewrite <- app_assoc; apply IH.
Qed.

Lemma derive_acc ms : forall s isMain e ch0 ch,
  derive ms s isMain e (ch0 ++ ch)
  = match derive ms s isMain e ch with
    | inl err => inl err
    | inr (s', ch') => inr (s', ch0 ++ ch')
    end.
Proof.
  induction ms as [|[name m] ms IH]; intros s isMain e ch0 ch; [reflexivity|].
  cbn [derive]. destruct (deriver m) as [der|]; [|apply IH].
  destruct (der (mkContext e name s isMain)) as [err|w d]; [reflexivity|].
  rewrite <- app_assoc. apply IH.
Qed.

(** The dispatches of the first preprocessor come right after the children
    there were, followed by those of the models after it. *)
Lemma preprocess_first name m pp rest s isMain e ch e' ch' :
  preprocessor m = Some pp ->
  preprocess ((name, m) :: rest) s isMain e ch = inr (e', ch') ->
  exists e1 later,
    preprocess rest s isMain e1 [] = inr (e', later)
    /\ ch' = ch ++ pre_dispatched (pp (mkContext e name s isMain)) ++ later.
Proof.
  intros Hpp H. cbn [preprocess] in H. rewrite Hpp in H.
  set (out := pp (mkContext e name s isMain)) in *.
  assert (preprocess rest s isMain (effective_event out) (ch ++ pre_dispatched out)
          = inr (e', ch')) as H'.
  { destruct (pre_returned out); try discriminate H;
      (destruct (negb (bool_decide _)); [discriminate H|];
       destruct (ev_type (effective_event out)); [exact H | discriminate H]). }
  rewrite <- (app_nil_r (ch ++ pre_dispatched out)), preprocess_acc in H'.
  destruct (preprocess rest s isMain (effective_event out) []) as [f|[e2 later]] eqn:Hr;
    [discriminate|].
  injection H' as <- <-. exists (effective_event out), later.
  split; [exact Hr|]. now rewrite <- app_assoc.
Qed.

(** The dispatches of the first reducer, then the [events] it returned,
    come right after the children there were. *)
Lemma reduce_first name m red rest s isMain e res ch res' ch' :
  reducer m = Some red ->
  reduce ((name, m) :: rest) s isMain e res ch = inr (res', ch') ->
  exists r dispatched_ res1 later,
    red (mkContext e name s isMain) = RedReturns r dispatched_
    /\ reduce rest s isMain e res1 [] = inr (res', later)
    /\ ch' = ch ++ dispatched_
                ++ match r with Some r => red_events r | None => [] end ++ later.
Proof.
  intros Hred H. cbn [reduce] in H. rewrite Hred in H.
  destruct (red (mkContext e name s isMain)) as [err|[r|] d]; [discriminate| |].
  - rewrite <- (app_nil_r (ch ++ d ++ red_events r)), reduce_acc in H.
    destruct (reduce rest s isMain e (res ++ [(name, r)]) [])
      as [f|[res2 later]] eqn:Hr; [discriminate|].
    injection H as <- <-. exists (Some r), d, (res ++ [(name, r)]), later.
    split; [reflexivity|]. split; [exact Hr|]. now rewrite <- !app_assoc.
  - rewrite <- (app_nil_r (ch ++ d)), reduce_acc in H.
    destruct (reduce rest s isMain e res []) as [f|[res2 later]] eqn:Hr; [discriminate|].
    injection H as <- <-. exists None, d, res, later.
    split; [reflexivity|]. split; [exact Hr|]. now rewrite <- !app_assoc.
Qed.

(** The dispatches of the first deriver come right after the children
    there were. *)
Lemma derive_first name m der rest s isMain e ch s' ch' :
  deriver m = Some der ->
  derive ((name, m) :: rest) s isMain e ch = inr (s', ch') ->
  exists written dispatched_ later,
    der (mkContext e name s isMain) = DerReturns written dispatched_
    /\ derive rest (mkState written (version s)) isMain e [] = inr (s', later)
    /\ ch' = ch ++ dispatched_ ++ later.
Proof.
  intros Hder H. cbn [derive] in H. rewrite Hder in H.
  destruct (der (mkContext e name s isMain)) as [err|w d]; [discriminate|].
  rewrite <- (app_nil_r (ch ++ d)), derive_acc in H.
  destruct (derive rest (mkState w (version s)) isMain e []) as [f|[s2 later]] eqn:Hr;
    [discriminate|].
  injection H as <- <-. exists w, d, later.
  split; [reflexivity|]. split; [exact Hr|]. now rewrite <- !app_assoc.
Qed.

(** Children that all came through are children handled in turn. *)
Lemma handle_children_in_turn h : forall cs s s' dones vis,
  handle_children h s cs = (s', dones, None, vis) ->
  handled_in_turn h s cs s' dones vis /\ Forall (fun c => ev_error c = None) dones.
Proof.
  induction cs as [|c cs IH]; intros s s' dones vis H; cbn [handle_children] in H.
  - injection H as <- <- <-. split; constructor.
  - destruct (h s c) as [[s1 done] v] eqn:Hc.
    destruct (ev_error done) as [err|] eqn:He; [discriminate|].
    destruct (handle_children h s1 cs) as [[[s2 dones'] err] vis'] eqn:Hcs.
    injection H as <- <- -> <-.
    destruct (IH _ _ _ _ Hcs) as [Hturn Hok].
    split; [econstructor; eassumption | constructor; assumption].
Qed.

(** The children of a node that came through: the dispatches of its
    preprocess, reduce and derive phases, in that order, handled in turn
    from the state the derive phase left. *)
Lemma handle_node models depth path isMain s e e1 ch1 results ch2 s1 s2 ch3 s' e' visited :
  preprocess models s isMain (with_events None e) [] = inr (e1, ch1) ->
  reduce models s isMain e1 [] [] = inr (results, ch2) ->
  _applyEvent models s (with_result (Some results) e1) isMain = inr s1 ->
  derive models s1 isMain (with_result (Some results) e1) [] = inr (s2, ch3) ->
  handle (S depth) models path isMain s e = (s', e', visited) ->
  ev_error e' = None ->
  exists dones visited',
    handled_in_turn
      (fun st child =>
         handle depth models (path ++ [default EmptyString (ev_type child)]) false st child)
      s2 (map (child_event (with_result (Some results) e1)) (ch1 ++ ch2 ++ ch3))
      s' dones visited'
    /\ Forall (fun c => ev_error c = None) dones
    /\ default [] (ev_events e') = dones
    /\ e' = with_error None (with_events (ev_events e') (with_result (Some results) e1))
    /\ visited = default EmptyString (ev_type e1) :: visited'.
Proof.
  intros Hp Hr Ha Hd Hh He. rewrite handle_S, Hp, Hr in Hh. cbv zeta in Hh.
  rewrite Ha, Hd in Hh.
  destruct (handle_children _ s2 _) as [[[s3 dones] err] vis'] eqn:Hc.
  injection Hh as <- <- <-. cbn [ev_error with_error] in He. subst err.
  apply handle_children_in_turn in Hc as [Hturn Hok].
  exists dones, vis'. split; [exact Hturn|]. split; [exact Hok|].
  destruct (ch1 ++ ch2 ++ ch3) as [|d ds] eqn:Hreq.
  - inversion Hturn; subst. split; [reflexivity|]. split; reflexivity.
  - split; [reflexivity|]. split; reflexivity.
Qed.

(** C1: the nodes of an event tree go through their phases in depth-first
    pre-order.  The order in which the nodes are handled is the pre-order of
    the tree that is written back.  The children of a node are what its
    preprocess, reduce and derive phases dispatched, in that order, and they
    are handled in turn, each through all its phases and its own sub-events
    before the next.  Each handler's dispatches are appended to the child
    list as it stands: those of a preprocessor, those of a reducer followed
    by the [events] it returned, those of a deriver, and then those of the
    models after it.  In the test 'work' the root [hi] gets the children
    [pre-hi], [red-hi], [red-out-hi] and [der-hi]; in the test 'depth first
    order' (the deriver dispatches [1] and [3] on [hi], [2] on [1] and [5]
    on [3], the reducer dispatches [4] on [3], the deriver appends the type
    to [all] of row [hi]) dispatching [hi] gives an event with the two
    children [1] and [3], one [result] signal and the row [hi] with
    [all = 'hi12345']. *)
Theorem sub_events_are_handled_depth_first :
  (forall models depth path isMain s e s' e' visited,
      handle depth models path isMain s e = (s', e', visited) ->
      ev_error e' = None -> visited = preorder e')
  /\ (forall models depth path isMain s e e1 ch1 results ch2 s1 s2 ch3 s' e' visited,
        preprocess models s isMain (with_events None e) [] = inr (e1, ch1) ->
        reduce models s isMain e1 [] [] = inr (results, ch2) ->
        _applyEvent models s (with_result (Some results) e1) isMain = inr s1 ->
        derive models s1 isMain (with_result (Some results) e1) [] = inr (s2, ch3) ->
        handle (S depth) models path isMain s e = (s', e', visited) ->
        ev_error e' = None ->
        exists dones visited',
          handled_in_turn
            (fun st child =>
               handle depth models (path ++ [default EmptyString (ev_type child)])
                 false st child)
            s2 (map (child_event (with_result (Some results) e1)) (ch1 ++ ch2 ++ ch3))
            s' dones visited'
          /\ Forall (fun c => ev_error c = None) dones
          /\ default [] (ev_events e') = dones
          /\ e' = with_error None (with_events (ev_events e') (with_result (Some results) e1))
          /\ visited = default EmptyString (ev_type e1) :: visited')
  /\ (forall name m pp rest s isMain e ch e' ch',
        preprocessor m = Some pp ->
        preprocess ((name, m) :: rest) s isMain e ch = inr (e', ch') ->
        exists e1 later,
          preprocess rest s isMain e1 [] = inr (e', later)
          /\ ch' = ch ++ pre_dispatched (pp (mkContext e name s isMain)) ++ later)
  /\ (forall name m red rest s isMain e res ch res' ch',
        reducer m = Some red ->
        reduce ((name, m) :: rest) s isMain e res ch = inr (res', ch') ->
        exists r dispatched_ res1 later,
          red (mkContext e name s isMain) = RedReturns r dispatched_
          /\ reduce rest s isMain e res1 [] = inr (res', later)
          /\ ch' = ch ++ dispatched_
                      ++ match r with Some r => red_events r | None => [] end ++ later)
  /\ (forall name m der rest s isMain e ch s' ch',
        deriver m = Some der ->
        derive ((name, m) :: rest) s isMain e ch = inr (s', ch') ->
        exists written dispatched_ later,
          der (mkContext e name s isMain) = DerReturns written dispatched_
          /\ derive rest (mkState written (version s)) isMain e [] = inr (s', later)
          /\ ch' = ch ++ dispatched_ ++ later)
  /\ (forall ts,
        let r := dispatch "hi" JUndefined ts (new_esdb Work.models) in
        exists e,
          r.1 = Some (inr e)
          /\ map ev_type (default [] (ev_events e))
             = [Some "pre-hi"; Some "red-hi"; Some "red-out-hi"; Some "der-hi"]
          /\ preorder e = ["hi"; "pre-hi"; "red-hi"; "red-out-hi"; "der-hi"])
  /\ (forall ts,
        let r := dispatch "hi" JUndefined ts (new_esdb DepthFirst.models) in
        exists e,
          r.1 = Some (inr e)
          /\ map ev_type (default [] (ev_events e)) = [Some "1"; Some "3"]
          /\ length (default [] (ev_events e)) = 2
          /\ preorder e = ["hi"; "1"; "2"; "3"; "4"; "5"]
          /\ count_signal "result" r.2 = 1
          /\ (model_get "foo" "hi" (state r.2) ≫= obj_get "all")
             = Some (JStr "hi12345")).
Proof.
  split; [|split; [|split; [|split; [|split; [|split]]]]].
  - intros models. apply handle_preorder.
  - intros models depth path isMain s e e1 ch1 results ch2 s1 s2 ch3 s' e' visited.
    apply handle_node.
  - intros name m pp rest s isMain e ch e' ch'. apply preprocess_first.
  - intros name m red rest s isMain e res ch res' ch'. apply reduce_first.
  - intros name m der rest s isMain e ch s' ch'. apply derive_first.
  - intros ts r. eexists. split; [vm_compute; reflexivity|].
    split; vm_compute; reflexivity.
  - intros ts r. eexists. split; [vm_compute; reflexivity|].
    repeat split; vm_compute; reflexivity.
Qed.

(** The run of the test 'work', node by node. *)
Lemma sub_events_are_handled_depth_first_witness :
  (handle (S MAX_DEPTH) Work.models [] true (mkState ∅ 0)
     (mkEvent (Some 1) (Some "hi") 0 JUndefined None None None)).2
  = ["hi"; "pre-hi"; "red-hi"; "red-out-hi"; "der-hi"]
  /\ (handle (S MAX_DEPTH) Work.models [] true (mkState ∅ 0)
        (mkEvent (Some 1) (Some "hi") 0 JUndefined None None None)).2
     = preorder
         (handle (S MAX_DEPTH) Work.models [] true (mkState ∅ 0)
            (mkEvent (Some 1) (Some "hi") 0 JUndefined None None None)).1.2.
Proof.
  split; [vm_compute; reflexivity|].
  eapply (proj1 sub_events_are_handled_depth_first).
  - apply surjective_pairing_3.
  - vm_compute. reflexivity.
Defined.

Lemma process_next_version db db' e n :
  next_unhandled (queue db) = Some e -> ev_v e = Some n ->
  process_next db = Some db' -> version (state db') = n.
Proof.
  intros Hnext Hv. unfold process_next. rewrite Hnext.
  pose proof (handle_root_version (models db) (state db) e n Hv) as H.
  destruct (handle_root (models db) (state db) e) as [s' e'].
  intros [= <-]. exact H.
Qed.

(** C6: after a root event with version [n] has been processed the version
    [V] of the metadata model is [n], whether the event was handled or
    failed; sub-events never move [V]; applying the event of the test with
    [v = 50] leaves the version at 50 (and the counter row written), and the
    failed event of the recursion test still moves [V] to its [v = 1]. *)
Theorem version_follows_root_events :
  (forall models s e n,
      ev_v e = Some n -> version (handle_root models s e).1 = n)
  /\ (forall db db' e n,
        next_unhandled (queue db) = Some e -> ev_v e = Some n ->
        process_next db = Some db' -> version (state db') = n)
  /\ (forall models depth path s e,
        version (handle depth models path false s e).1.1 = version s)
  /\ (forall models s e s',
        _applyEvent models s e false = inr s' -> version s' = version s)
  /\ (forall models s e s' n,
        ev_v e = Some n -> _applyEvent models s e true = inr s' -> version s' = n)
  /\ (exists s',
        _applyEvent Count.models (mkState ∅ 0) applied_event true = inr s'
        /\ version s' = 50
        /\ model_get "count" "count" s'
           = Some [("id", JStr "count"); ("total", JNum 1);
                   ("byType", JObj [("foo", JNum 1)])])
  /\ (let r := dispatch "hi" JUndefined 0 (new_esdb (NoInfiniteRecursion.models "hi")) in
      is_Some (r.1 ≫= fun o => match o with inl failed => Some failed | inr _ => None end)
      /\ version (state r.2) = 1).
Proof.
  split; [|split; [|split; [|split; [|split; [|split]]]]].
  - apply handle_root_version.
  - apply process_next_version.
  - intros models depth. apply handle_child_version.
  - intros models s e s' H. now apply applyEvent_version in H.
  - intros models s e s' n Hv H. apply applyEvent_version in H. now rewrite Hv in H.
  - eexists. split; [vm_compute; reflexivity|]. split; vm_compute; reflexivity.
  - split; [|vm_compute; reflexivity]. vm_compute. eauto.
Qed.

(** An event handled and an event that fails in its preprocessor. *)
Lemma version_follows_root_events_witness :
  version (handle_root Meep.models (mkState ∅ 7)
             (mkEvent (Some 8) (Some "bad event") 0 JUndefined None None None)).1 = 8
  /\ version (handle_root Meep.models (mkState ∅ 7)
                (mkEvent (Some 8) (Some "create_thing") 0 (JObj [("foo", JNum 2)])
                   None None None)).1 = 8.
Proof.
  split; apply (proj1 version_follows_root_events); reflexivity.
Defined.














Section Recursion.

Variable t : string.

Lemma type_is_same e : ev_type e = Some t -> type_is t e = true.
Proof. intros H. unfold type_is. now rewrite bool_decide_eq_true_2. Qed.

(** A node of type [t] never completes: wherever the allowance of levels
    ends, the chain below it has been all [t]. *)
Lemma deep_chain n : forall path isMain s e,
  ev_type e = Some t ->
  exists s' e' vis,
    handle n (NoInfiniteRecursion.models t) path isMain s e = (s', e', vis)
    /\ ev_error e'
       = Some [("_handle", JStr (type_path (path ++ repeat t n) +:+ ":deep"))]
    /\ ev_v e' = ev_v e.
Proof.
  induction n as [|n IH]; intros path isMain s e Ht.
  - do 3 eexists. cbn [handle repeat]. rewrite app_nil_r. repeat split.
  - rewrite handle_S.
    cbn [preprocess reduce NoInfiniteRecursion.models preprocessor reducer deriver
         derive _applyEvent apply_models lookup_result with_result ev_result default].
    cbv zeta.
    set (e2 := with_result (Some []) (with_events None e)).
    assert (ev_type e2 = Some t) as Ht2 by exact Ht.
    unfold NoInfiniteRecursion.deriver at 1. cbn [ctx_event ctx_store].
    rewrite (type_is_same e2 Ht2).
    cbn [app map handle_children].
    unfold _applyEvent.
    cbn [apply_models lookup_result ev_result e2 with_result default].
    change (apply_models (NoInfiniteRecursion.models t) (id []) s)
      with (@inr (string * jsval) db_state s).
    cbv beta iota.
    set (s2 := mkState _ _).
    destruct (IH (path ++ [default EmptyString (ev_type (child_event e2 (request t)))])
                false s2 (child_event e2 (request t)) eq_refl)
      as (s' & e' & vis & Hh & He & Hv).
    rewrite Hh, He. do 3 eexists. split; [reflexivity|].
    split; [|reflexivity].
    cbn [ev_error with_error]. cbn [child_event ev_type d_type request default].
    now rewrite <- app_assoc.
Qed.

(** The type path of a chain of [n] events of type [t], written out. *)
Lemma type_path_repeat n : type_path (repeat t n) = copies n ("." +:+ t).
Proof.
  induction n as [|n IH]; [reflexivity|].
  cbn [repeat type_path fold_right copies]. fold (type_path (repeat t n)).
  now rewrite IH, append_assoc.
Qed.

End Recursion.

(** C3: a deriver that dispatches the type it sees never lets the event
    complete: the engine stops at the maximum depth, the promise of
    [dispatch] rejects with the failed event, one [error] and no [result] is
    emitted, and the failed event carries [error._handle]: the type path of
    the chain, [.<type>] once for each of the 101 levels entered, followed by
    [:deep].  For the type [hi] of the test that is the text written out
    below, in which [/(\.hi)+:.*deep/] finds a match. *)
Theorem unbounded_recursion_is_cut :
  (forall t ts,
      let r := dispatch t JUndefined ts (new_esdb (NoInfiniteRecursion.models t)) in
      exists e,
        r.1 = Some (inl e)
        /\ ev_error e = Some [("_handle", JStr (copies 101 ("." +:+ t) +:+ ":deep"))]
        /\ count_signal "result" r.2 = 0
        /\ count_signal "error" r.2 = 1)
  /\ (forall ts,
        let msg :=
          ".hi.hi.hi.hi.hi.hi.hi.hi.hi.hi.hi.hi.hi.hi.hi.hi.hi.hi.hi.hi" +:+
          ".hi.hi.hi.hi.hi.hi.hi.hi.hi.hi.hi.hi.hi.hi.hi.hi.hi.hi.hi.hi" +:+
          ".hi.hi.hi.hi.hi.hi.hi.hi.hi.hi.hi.hi.hi.hi.hi.hi.hi.hi.hi.hi" +:+
          ".hi.hi.hi.hi.hi.hi.hi.hi.hi.hi.hi.hi.hi.hi.hi.hi.hi.hi.hi.hi" +:+
          ".hi.hi.hi.hi.hi.hi.hi.hi.hi.hi.hi.hi.hi.hi.hi.hi.hi.hi.hi.hi" +:+
          ".hi:deep" in
        (exists e,
            (dispatch "hi" JUndefined ts (new_esdb (NoInfiniteRecursion.models "hi"))).1
            = Some (inl e)
            /\ ev_error e = Some [("_handle", JStr msg)])
        /\ matches_hi_deep msg).
Proof.
  assert (forall t ts,
      let r := dispatch t JUndefined ts (new_esdb (NoInfiniteRecursion.models t)) in
      exists e,
        r.1 = Some (inl e)
        /\ ev_error e = Some [("_handle", JStr (copies 101 ("." +:+ t) +:+ ":deep"))]
        /\ count_signal "result" r.2 = 0
        /\ count_signal "error" r.2 = 1) as Hgen.
  { intros t ts r.
    destruct (deep_chain t (S MAX_DEPTH) [] true (mkState ∅ 0)
                (mkEvent (Some 1) (Some t) ts JUndefined None None None) eq_refl)
      as (s' & e' & vis & Hh & He & Hv).
    cbn [ev_v app] in He, Hv. rewrite type_path_repeat in He.
    change (S MAX_DEPTH) with 101 in He.
    exists e'. unfold r, dispatch, enqueue, queue_add, settle, new_esdb.
    cbn -[handle_root copies]. unfold handle_root. rewrite Hh, He.
    cbn -[copies]. rewrite Hv. cbn -[copies]. rewrite He. split; [|repeat split].
    unfold handledVersion, queue_get. cbn [queue find].
    rewrite bool_decide_eq_true_2 by exact Hv. now rewrite He. }
  split; [exact Hgen|].
  intros ts msg. split.
  - destruct (Hgen "hi" ts) as (e & H1 & H2 & _).
    exists e. split; [exact H1|]. rewrite H2. reflexivity.
  - exists EmptyString, 101, EmptyString, EmptyString.
    split; [lia|]. split; [constructor|]. vm_compute. reflexivity.
Qed.

(** The chain of the test. *)
Lemma unbounded_recursion_is_cut_witness :
  exists e,
    (dispatch "hi" JUndefined 0 (new_esdb (NoInfiniteRecursion.models "hi"))).1
    = Some (inl e)
    /\ ev_error e = Some [("_handle", JStr (copies 101 ".hi" +:+ ":deep"))].
Proof.
  destruct (proj1 unbounded_recursion_is_cut "hi" 0%Z) as (e & H1 & H2 & _).
  exists e. split; [exact H1 | exact H2].
Defined.

Lemma getMaxV_queue_set e q :
  getMaxV (queue_set e q) = Nat.max (default 0 (ev_v e)) (getMaxV q).
Proof.
  induction q as [|row q IH]; cbn [queue_set getMaxV fold_right].
  - reflexivity.
  - destruct (Nat.eqb_spec (default 0 (ev_v row)) (default 0 (ev_v e))) as [Heq|Hne].
    + cbn [getMaxV fold_right]. fold (getMaxV q). lia.
    + destruct (Nat.ltb (default 0 (ev_v e)) (default 0 (ev_v row)));
        cbn [getMaxV fold_right]; fold (getMaxV q).
      * lia.
      * fold (getMaxV (queue_set e q)). rewrite IH. lia.
Qed.

(** Calls enqueued one after the other get the next versions in turn. *)
Lemma enqueue_all_versions calls : forall db,
  (enqueue_all calls db).1 = seq (S (getMaxV (queue db))) (length calls).
Proof.
  induction calls as [|[[type data] ts] calls IH]; intros db; [reflexivity|].
  cbn [enqueue_all enqueue queue_add].
  set (e := mkEvent _ _ _ _ _ _ _).
  specialize (IH (mkESDB (models db) (state db) (queue_set e (queue db)) (emitted db))).
  destruct (enqueue_all calls _) as [vs db2]. cbn [fst] in *. cbn [length seq].
  rewrite IH. cbn [queue]. rewrite getMaxV_queue_set.
  subst e. cbn [ev_v default]. unfold id. f_equal. f_equal. f_equal. lia.
Qed.

Lemma bump_first type : Count.bump type [] = [(type, JNum 1)].
Proof. reflexivity. Qed.

Lemma bump_second t1 t2 :
  Count.bump t2 [(t1, JNum 1)]
  = if String.eqb t1 t2 then [(t1, JNum 2)] else [(t1, JNum 1); (t2, JNum 1)].
Proof.
  unfold Count.bump. cbn [obj_get obj_set].
  destruct (String.eqb t1 t2); reflexivity.
Qed.

(** C2: calls of [dispatch] made without awaiting get consecutive versions
    in the order of the calls (on an empty database 1 for the first and 2
    for the second); the worker takes the unhandled events in increasing
    [v] and leaves none unhandled; and the reducer of the counter model
    sees the state the earlier events left: the result at [v = 1] counts
    the first event only, the result at [v = 2] both. *)
Theorem concurrent_dispatches_are_sequenced :
  (forall calls db,
      (enqueue_all calls db).1 = seq (S (getMaxV (queue db))) (length calls))
  /\ (forall q e,
        queue_sorted q -> next_unhandled q = Some e ->
        forall x, x ∈ q -> is_unhandled x = true -> row_v e <= row_v x)
  /\ (forall db,
        queue_sorted (queue db) -> next_unhandled (queue (settle db)) = None)
  /\ (forall t1 d1 ts1 t2 d2 ts2,
        let r := dispatch_all [(t1, d1, ts1); (t2, d2, ts2)] (new_esdb Count.models) in
        r.1 = [1; 2]
        /\ handledVersion 1 r.2
           = Some (inr (mkEvent (Some 1) (Some t1) ts1 d1
                          (Some (Count.counted 1 (Count.bump t1 []))) None None))
        /\ handledVersion 2 r.2
           = Some (inr (mkEvent (Some 2) (Some t2) ts2 d2
                          (Some (Count.counted 2 (Count.bump t2 (Count.bump t1 []))))
                          None None))
        /\ map (fun se => (se.1, ev_v se.2)) (emitted r.2)
           = [("result", Some 1); ("result", Some 2)]
        /\ version (state r.2) = 2)
  /\ (forall t1 t2,
        Count.bump t1 [] = [(t1, JNum 1)]
        /\ Count.bump t2 (Count.bump t1 [])
           = if String.eqb t1 t2 then [(t1, JNum 2)]
             else [(t1, JNum 1); (t2, JNum 1)])
  /\ (let r := dispatch_all [("whattup", JStr "indeed", 42%Z);
                             ("dude", JObj [("woah", JBool true)], 55%Z)]
                 (new_esdb Count.models) in
      handledVersion 1 r.2
      = Some (inr (mkEvent (Some 1) (Some "whattup") 42 (JStr "indeed")
                     (Some (Count.counted 1 [("whattup", JNum 1)])) None None))
      /\ handledVersion 2 r.2
         = Some (inr (mkEvent (Some 2) (Some "dude") 55 (JObj [("woah", JBool true)])
                        (Some (Count.counted 2 [("whattup", JNum 1); ("dude", JNum 1)]))
                        None None))).
Proof.
  split; [|split; [|split; [|split; [|split]]]].
  - intros calls db. apply enqueue_all_versions.
  - apply next_unhandled_smallest.
  - apply settle_leaves_nothing.
  - intros t1 d1 ts1 t2 d2 ts2 r. repeat split; vm_compute; reflexivity.
  - intros t1 t2. split; [reflexivity|]. rewrite bump_first. apply bump_second.
  - split; vm_compute; reflexivity.
Qed.

(** The two calls of the test. *)
Lemma concurrent_dispatches_are_sequenced_witness :
  (enqueue_all [("whattup", JStr "indeed", 42%Z); ("dude", JObj [("woah", JBool true)], 55%Z)]
     (new_esdb Count.models)).1 = [1; 2]
  /\ next_unhandled
       (queue
          (settle
             (enqueue_all
                [("whattup", JStr "indeed", 42%Z);
                 ("dude", JObj [("woah", JBool true)], 55%Z)]
                (new_esdb Count.models)).2))
     = None.
Proof.
  destruct concurrent_dispatches_are_sequenced as (H1 & _ & H3 & _). split.
  - rewrite H1. reflexivity.
  - apply H3. cbn. repeat split; repeat constructor.
Defined.

(** ** More of the SQL templating *)

Lemma two_squotes (s : string) :
  (JS.SQ +:+ JS.SQ) +:+ s = String JS.squote (String JS.squote s).
Proof. reflexivity. Qed.

Lemma read_literal_body_escaped (str after : string) :
  starts_with_squote after = false ->
  read_literal_body
    (JS.replace_char JS.squote (JS.SQ +:+ JS.SQ) str +:+ JS.SQ +:+ after)
  = Some (str, after).
Proof.
  intros Hafter. induction str as [|a str IH].
  - cbn [JS.replace_char]. rewrite append_nil_l. unfold JS.SQ.
    rewrite append_cons, append_nil_l. cbn [read_literal_body].
    change (Ascii.eqb JS.squote JS.squote) with true. cbv iota.
    destruct after as [|b after]; [reflexivity|].
    cbn [starts_with_squote] in Hafter. now rewrite Hafter.
  - cbn [JS.replace_char].
    destruct (Ascii.eqb a JS.squote) eqn:Ha.
    + apply Ascii.eqb_eq in Ha. subst a.
      rewrite (append_assoc (JS.SQ +:+ JS.SQ)), two_squotes.
      cbn [read_literal_body].
      change (Ascii.eqb JS.squote JS.squote) with true. cbv iota.
      now rewrite IH.
    + rewrite append_cons. cbn [read_literal_body]. rewrite Ha. now rewrite IH.
Qed.

(** X1: [valToSql] writes a string (or an array or object, through its
    [toString()]) as one SQL string literal.  A lexer that reads the result,
    followed by any text that does not itself start with a single quote,
    gets back exactly the text and stops at the closing quote: no quote
    inside the value ends the literal early.  (A quote right after the
    closing quote would read as a doubled quote and carry the literal on, as
    it does after any SQL string.) *)
Theorem valToSql_reads_back (v : jsval) (after : string) :
  written_as_string v = true ->
  starts_with_squote after = false ->
  read_sql_string (valToSql v +:+ after) = Some (JS.ToString v, after).
Proof.
  intros Hv Hafter.
  assert (valToSql v
          = JS.SQ +:+ JS.replace_char JS.squote (JS.SQ +:+ JS.SQ) (JS.ToString v) +:+ JS.SQ)
    as -> by (destruct v; try discriminate Hv; reflexivity).
  rewrite !append_assoc. unfold JS.SQ at 1.
  rewrite append_cons, append_nil_l. cbn [read_sql_string].
  change (Ascii.eqb JS.squote JS.squote) with true. cbv iota.
  now apply read_literal_body_escaped.
Qed.

Lemma valToSql_reads_back_witness :
  valToSql (JStr "it's") = "'it''s'"
  /\ read_sql_string ("'it''s'" +:+ " OR 1=1") = Some ("it's", " OR 1=1").
Proof.
  split; [reflexivity|].
  exact (valToSql_reads_back (JStr "it's") " OR 1=1" eq_refl eq_refl).
Defined.

Lemma strip_prefix_app (p s rest : string) :
  strip_prefix p s = Some rest <-> s = p +:+ rest.
Proof.
  revert s. induction p as [|a p IH]; intros s; cbn [strip_prefix].
  - rewrite append_nil_l. split; [now intros [= ->] | now intros ->].
  - destruct s as [|b s].
    + split; [discriminate|]. rewrite append_cons. discriminate.
    + rewrite append_cons. destruct (Ascii.eqb a b) eqn:Hab.
      * apply Ascii.eqb_eq in Hab. subst b. rewrite IH.
        split; [now intros -> | now intros [= ->]].
      * apply Ascii.eqb_neq in Hab. split; [discriminate|]. intros [= <- _]. congruence.
Qed.

Lemma match_modifier_app (m : modifier) (str rest : string) (m' : modifier) :
  match_modifier m str = Some (m', rest) <->
  m' = m /\ str = modifier_text m +:+ rest /\ word_boundary rest = true.
Proof.
  unfold match_modifier.
  destruct (strip_prefix (modifier_text m) str) as [r|] eqn:Hs.
  - apply strip_prefix_app in Hs. subst str.
    destruct (word_boundary r) eqn:Hw.
    + split.
      * intros [= <- <-]. auto.
      * intros (-> & Heq & _).
        assert (strip_prefix (modifier_text m) (modifier_text m +:+ r) = Some rest) as H
          by now apply strip_prefix_app.
        assert (strip_prefix (modifier_text m) (modifier_text m +:+ r) = Some r) as H'
          by now apply strip_prefix_app.
        congruence.
    + split; [discriminate|]. intros (-> & Heq & Hw').
      assert (strip_prefix (modifier_text m) (modifier_text m +:+ r) = Some rest) as H
        by now apply strip_prefix_app.
      assert (strip_prefix (modifier_text m) (modifier_text m +:+ r) = Some r) as H'
        by now apply strip_prefix_app.
      congruence.
  - split; [discriminate|]. intros (-> & Heq & _).
    apply strip_prefix_app in Heq. congruence.
Qed.

Lemma find_modifier_app (str : string) (m : modifier) (rest : string) :
  find_modifier str = Some (m, rest)
  <-> str = modifier_text m +:+ rest /\ word_boundary rest = true.
Proof.
  unfold find_modifier. split.
  - destruct (match_modifier ModID str) as [[m1 r1]|] eqn:H1.
    { intros [= <- <-]. apply match_modifier_app in H1 as (-> & ? & ?). auto. }
    destruct (match_modifier ModJSON str) as [[m2 r2]|] eqn:H2.
    { intros [= <- <-]. apply match_modifier_app in H2 as (-> & ? & ?). auto. }
    intros H3. apply match_modifier_app in H3 as (-> & ? & ?). auto.
  - intros [-> Hw]. destruct m.
    + assert (match_modifier ModID (modifier_text ModID +:+ rest) = Some (ModID, rest)) as ->
        by now apply match_modifier_app.
      reflexivity.
    + assert (match_modifier ModJSON (modifier_text ModJSON +:+ rest) = Some (ModJSON, rest))
        as H by now apply match_modifier_app.
      cbn [modifier_text] in *. rewrite H. reflexivity.
    + assert (match_modifier ModLIT (modifier_text ModLIT +:+ rest) = Some (ModLIT, rest))
        as H by now apply match_modifier_app.
      cbn [modifier_text] in *. rewrite H. reflexivity.
Qed.

(** The test on character codes picks the listed word characters, for each
    of the 256 characters. *)
Lemma is_word_char_listed (a : ascii) :
  is_word_char a = existsb (Ascii.eqb a) (list_ascii_of_string word_characters).
Proof. destruct a as [[] [] [] [] [] [] [] []]; vm_compute; reflexivity. Qed.

Lemma word_boundary_listed (rest : string) :
  word_boundary rest = true
  <-> match rest with
      | EmptyString => True
      | String a _ => ~ In a (list_ascii_of_string word_characters)
      end.
Proof.
  destruct rest as [|a rest]; cbn [word_boundary]; [tauto|].
  rewrite is_word_char_listed, negb_true_iff, <- not_true_iff_false, existsb_exists.
  split.
  - intros H Hin. apply H. exists a. split; [exact Hin | apply Ascii.eqb_refl].
  - intros H (x & Hin & Hx). apply Ascii.eqb_eq in Hx. subst x. now apply H.
Qed.

(** X2: the modifier of an interpolation is recognised exactly when the
    text after the interpolation starts with [ID], [JSON] or [LIT] as a whole
    word: the end of the text, or a character that is neither a letter, a
    digit nor an underscore, follows.  What [sql] keeps of the text is the
    rest.  So [IDs], [JSONB], [LITERAL], [ID_x] and [ID2] carry no modifier,
    nor do [id] or a text in which [ID] is not at the start, while
    [ID where], [JSON] and [LIT)] do. *)
Theorem find_modifier_whole_word :
  (forall (str : string) (m : modifier) (rest : string),
      find_modifier str = Some (m, rest)
      <-> (str = "ID" +:+ rest /\ m = ModID
           \/ str = "JSON" +:+ rest /\ m = ModJSON
           \/ str = "LIT" +:+ rest /\ m = ModLIT)
          /\ match rest with
             | EmptyString => True
             | String a _ => ~ In a (list_ascii_of_string word_characters)
             end)
  /\ find_modifier "IDs" = None
  /\ find_modifier "JSONB" = None
  /\ find_modifier "LITERAL" = None
  /\ find_modifier "ID_x" = None
  /\ find_modifier "ID2" = None
  /\ find_modifier "id" = None
  /\ find_modifier " ID" = None
  /\ find_modifier "ID where" = Some (ModID, " where")
  /\ find_modifier "ID" = Some (ModID, EmptyString)
  /\ find_modifier "JSON" = Some (ModJSON, EmptyString)
  /\ find_modifier "JSON, " = Some (ModJSON, ", ")
  /\ find_modifier "LIT)" = Some (ModLIT, ")").
Proof.
  split; [|repeat split].
  intros str m rest. rewrite find_modifier_app, word_boundary_listed.
  destruct m; cbn [modifier_text]; split.
  - intros [-> H]. split; [now left | exact H].
  - intros [[[-> _]|[[_ [=]]|[_ [=]]]] H]. now split.
  - intros [-> H]. split; [right; now left | exact H].
  - intros [[[_ [=]]|[[-> _]|[_ [=]]]] H]. now split.
  - intros [-> H]. split; [right; now right | exact H].
  - intros [[[_ [=]]|[[_ [=]]|[-> _]]] H]. now split.
Qed.



Lemma join_cons (sep x y : string) (l : list string) :
  JS.join sep (x :: y :: l) = x +:+ sep +:+ JS.join sep (y :: l).
Proof. reflexivity. Qed.

Lemma render_all_plain strs : forall vals,
  Forall (fun str => find_modifier str = None) strs ->
  length vals = length strs ->
  forall s0,
    match render_all strs vals with
    | Some (out, vars) => s0 +:+ out = JS.join "?" (s0 :: strs) /\ vars = vals
    | None => False
    end.
Proof.
  induction strs as [|str strs IH]; intros vals Hplain Hlen s0.
  - destruct vals; [|discriminate]. cbn. now rewrite append_empty_r.
  - destruct vals as [|v vals]; [discriminate|].
    apply Forall_cons in Hplain as [Hstr Hplain].
    cbn [render_all hd tl]. unfold template_text. rewrite Hstr.
    cbn [render_interpolation].
    specialize (IH vals Hplain ltac:(cbn in Hlen; lia) str).
    destruct (render_all strs vals) as [[o vs]|]; [|contradiction].
    destruct IH as [Ho ->]. split; [|reflexivity].
    rewrite join_cons, <- Ho. reflexivity.
Qed.

(** X4: a template without modifiers becomes a prepared statement: the
    strings of the template joined by [?], one placeholder per
    interpolation, and the interpolated values bound as they are, in their
    order.  No value reaches the text of the statement. *)
Theorem sql_plain_template (s0 : string) (rest : list string) (vals : list jsval) :
  Forall (fun str => find_modifier str = None) rest ->
  length vals = length rest ->
  sql (s0 :: rest) vals = Some (JStr (JS.join "?" (s0 :: rest)), vals).
Proof.
  intros Hplain Hlen. unfold sql. rewrite sql_loop_render.
  pose proof (render_all_plain rest vals Hplain Hlen s0) as H.
  destruct (render_all rest vals) as [[o vs]|]; [|contradiction].
  destruct H as [-> ->]. now rewrite app_nil_l.
Qed.

Lemma sql_plain_template_witness :
  sql ["select * from t where a = "; " and b = "; EmptyString]
      [JStr "x' or '1'='1"; JNum 5]
  = Some (JStr "select * from t where a = ? and b = ?", [JStr "x' or '1'='1"; JNum 5]).
Proof.
  apply (sql_plain_template "select * from t where a = " [" and b = "; EmptyString]
           [JStr "x' or '1'='1"; JNum 5]).
  - repeat constructor.
  - reflexivity.
Defined.

Lemma render_all_text strs : forall vals vals',
  (forall i str, strs !! i = Some str -> in_text str = true ->
                 nth i vals JUndefined = nth i vals' JUndefined) ->
  fst <$> render_all strs vals = fst <$> render_all strs vals'.
Proof.
  induction strs as [|str strs IH]; intros vals vals' Hsame; [reflexivity|].
  assert (forall (l : list jsval) i, nth (S i) l JUndefined = nth i (tl l) JUndefined) as Hnth
    by (intros l i; destruct l; [now destruct i | reflexivity]).
  assert (forall l : list jsval, hd JUndefined l = nth 0 l JUndefined) as Hhd
    by (intros l; now destruct l).
  specialize (IH (tl vals) (tl vals')
                 (fun i s Hs Hin => eq_trans (eq_sym (Hnth vals i))
                                      (eq_trans (Hsame (S i) s Hs Hin) (Hnth vals' i)))).
  pose proof (Hsame 0 str eq_refl) as H0. rewrite <- !Hhd in H0.
  cbn [render_all]. unfold template_text, in_text in *.
  destruct (find_modifier str) as [[[ | | ] rest]|]; cbn [render_interpolation].
  - rewrite (H0 eq_refl). destruct (quoteSqlId (hd JUndefined vals')); [|reflexivity].
    destruct (render_all strs (tl vals)) as [[o v]|],
             (render_all strs (tl vals')) as [[o' v']|]; cbn in IH |- *; congruence.
  - destruct (render_all strs (tl vals)) as [[o v]|],
             (render_all strs (tl vals')) as [[o' v']|]; cbn in IH |- *; congruence.
  - rewrite (H0 eq_refl).
    destruct (render_all strs (tl vals)) as [[o v]|],
             (render_all strs (tl vals')) as [[o' v']|]; cbn in IH |- *; congruence.
  - destruct (render_all strs (tl vals)) as [[o v]|],
             (render_all strs (tl vals')) as [[o' v']|]; cbn in IH |- *; congruence.
Qed.

Lemma render_all_binds strs : forall vals out vars,
  render_all strs vals = Some (out, vars) ->
  length vars = length (List.filter (fun str => negb (in_text str)) strs).
Proof.
  induction strs as [|str strs IH]; intros vals out vars H; cbn [render_all] in H.
  - now injection H as <- <-.
  - unfold template_text in H. cbn [List.filter]. unfold in_text at 1.
    destruct (find_modifier str) as [[[ | | ] rest]|]; cbn [render_interpolation negb] in *.
    + destruct (quoteSqlId (hd JUndefined vals)); [|discriminate].
      destruct (render_all strs (tl vals)) as [[o v]|] eqn:Hr; [|discriminate].
      injection H as <- <-. cbn. eauto.
    + destruct (render_all strs (tl vals)) as [[o v]|] eqn:Hr; [|discriminate].
      injection H as <- <-. cbn. f_equal. eauto.
    + destruct (render_all strs (tl vals)) as [[o v]|] eqn:Hr; [|discriminate].
      injection H as <- <-. cbn. eauto.
    + destruct (render_all strs (tl vals)) as [[o v]|] eqn:Hr; [|discriminate].
      injection H as <- <-. cbn. f_equal. eauto.
Qed.

(** X5: values that are bound never reach the text of the statement.  The
    text that [sql] returns depends on the strings of the template and on
    the values marked [ID] or [LIT] only: two calls with the same template
    that both return, and that agree on the values marked [ID] or [LIT],
    return the same text, whatever their other values are.  Each of the
    other interpolations binds exactly one variable. *)
Theorem bound_values_stay_out_of_the_text
    (s0 : string) (rest : list string) (vals vals' : list jsval)
    (out out' : jsval) (vars vars' : list jsval) :
  (forall i str, rest !! i = Some str -> in_text str = true ->
                 nth i vals JUndefined = nth i vals' JUndefined) ->
  sql (s0 :: rest) vals = Some (out, vars) ->
  sql (s0 :: rest) vals' = Some (out', vars') ->
  out' = out
  /\ length vars = length (List.filter (fun str => negb (in_text str)) rest)
  /\ length vars' = length vars.
Proof.
  intros Hsame. unfold sql. rewrite !sql_loop_render.
  pose proof (render_all_text rest vals vals' Hsame) as H.
  destruct (render_all rest vals) as [[o v]|] eqn:Hr; [|discriminate].
  destruct (render_all rest vals') as [[o' v']|] eqn:Hr'; [|discriminate].
  cbn in H. intros [= <- <-] [= <- <-]. cbn [app].
  apply render_all_binds in Hr, Hr'. split; [congruence|]. split; congruence.
Qed.

Lemma bound_values_stay_out_of_the_text_witness :
  let template := ["select * from "; "ID where a = "; " and b = "; "JSON"] in
  let text := "select * from " +:+ JS.DQ +:+ "t" +:+ JS.DQ +:+ " where a = ? and b = ?" in
  let vars := [JStr "x"; JStr ("{" +:+ JS.DQ +:+ "k" +:+ JS.DQ +:+ ":1}")] in
  let vars' := [JStr "'; drop table t; --"; JStr "null"] in
  sql template [JStr "t"; JStr "x"; JObj [("k", JNum 1)]] = Some (JStr text, vars)
  /\ sql template [JStr "t"; JStr "'; drop table t; --"; JNull] = Some (JStr text, vars')
  /\ (JStr text = JStr text
      /\ length vars
         = length (List.filter (fun str => negb (in_text str))
                     ["ID where a = "; " and b = "; "JSON"])
      /\ length vars' = length vars).
Proof.
  intros template text vars vars'.
  assert (sql template [JStr "t"; JStr "x"; JObj [("k", JNum 1)]]
          = Some (JStr text, vars)) as H1 by (vm_compute; reflexivity).
  assert (sql template [JStr "t"; JStr "'; drop table t; --"; JNull]
          = Some (JStr text, vars')) as H2 by (vm_compute; reflexivity).
  split; [exact H1|]. split; [exact H2|].
  refine (bound_values_stay_out_of_the_text "select * from "
            ["ID where a = "; " and b = "; "JSON"] _ _ _ _ _ _ _ H1 H2).
  intros [|[|[|i]]] str Hstr Hin; cbn in Hstr; try discriminate;
    injection Hstr as <-; try reflexivity; discriminate Hin.
Defined.

(** ** More of the busy retry *)

Lemma call_loop_settles q n : forall c,
  exists j,
    j <= n /\ driver_busy c q j
    /\ (call_loop q n c).2 = issue q (after_busy q j c)
    /\ match driver c (issued c + j) q with
       | Fulfilled out => (call_loop q n c).1 = Fulfilled out
       | Rejected err =>
           (call_loop q n c).1 = Rejected (sqlite_error (name c) err)
           /\ (isBusyError err = true -> j = n)
       end.
Proof.
  induction n as [|n IH]; intros c.
  - exists 0. split; [lia|]. split; [intros k Hk; lia|].
    rewrite after_busy_0, Nat.add_0_r. cbn [call_loop].
    destruct (driver c (issued c) q) as [out|err]; [split; reflexivity|].
    destruct (isBusyError err); repeat split; reflexivity.
  - cbn [call_loop].
    destruct (driver c (issued c) q) as [out|err] eqn:Hd.
    { exists 0. split; [lia|]. split; [intros k Hk; lia|].
      rewrite after_busy_0, Nat.add_0_r, Hd. split; reflexivity. }
    destruct (isBusyError err) eqn:Hb.
    2:{ exists 0. split; [lia|]. split; [intros k Hk; lia|].
        rewrite after_busy_0, Nat.add_0_r, Hd. repeat split. congruence. }
    destruct (IH (wait (issue q c))) as (j & Hj & Hbusy & Hconn & Hreply).
    exists (S j). split; [lia|]. split; [|split].
    + intros [|k] Hk.
      * exists err. rewrite Nat.add_0_r. auto.
      * destruct (Hbusy k ltac:(lia)) as (e & He & Hbe). exists e. split; [|exact Hbe].
        cbn [wait issue driver issued] in He.
        now replace (issued c + S k) with (S (issued c) + k) by lia.
    + rewrite Hconn. now rewrite after_busy_step.
    + cbn [wait issue driver issued name] in Hreply.
      replace (issued c + S j) with (S (issued c) + j) by lia.
      destruct (driver c (S (issued c) + j) q) as [out|e]; [exact Hreply|].
      destruct Hreply as [Hr Hlast]. split; [exact Hr|]. intros He. f_equal. auto.
Qed.

(** X6: whatever the driver answers, [_call] settles with the first reply
    that is not a busy error, or with the eleventh reply if the ten before it
    and itself are busy errors.  The statement was issued once per reply, at
    most eleven times, with one wait after each busy reply but the last;
    nothing else happened on the connection.  A success is passed on as it
    is; an error, busy or not, is wrapped with the name of the connection and
    keeps its code. *)
Theorem call_settles_with_the_first_reply_not_busy (q : string) (c : conn) :
  exists j,
    j <= RETRY_COUNT
    /\ driver_busy c q j
    /\ (_call q c).2 = issue q (after_busy q j c)
    /\ match driver c (issued c + j) q with
       | Fulfilled out => (_call q c).1 = Fulfilled out
       | Rejected err =>
           (_call q c).1
           = Rejected (mkError (name c +:+ ": sqlite3: " +:+ err_message err) (err_code err))
           /\ (isBusyError err = true -> j = RETRY_COUNT)
       end.
Proof. exact (call_loop_settles q RETRY_COUNT c). Qed.

(** ** More of the transactions *)

Lemma busy_effects_views q r n : forall d,
  omap (fun e => match e with Emit s => Some s | _ => None end) (busy_effects q r d n) = []
  /\ omap (fun e => match e with Issue q => Some q | _ => None end) (busy_effects q r d n)
     = repeat q n
  /\ length (omap (fun e => match e with BusyWait ms => Some ms | _ => None end)
               (busy_effects q r d n)) = n.
Proof.
  induction n as [|n IH]; intros d; [repeat split|].
  destruct (IH (S d)) as (H1 & H2 & H3). cbn [busy_effects omap list_omap repeat].
  cbn. unfold omap in *. rewrite H1, H2, H3. auto.
Qed.

(** What a statement leaves behind, whatever the driver answers. *)
Lemma exec_views q c :
  signals (exec q c).2 = signals c
  /\ inTransaction (exec q c).2 = inTransaction c
  /\ exists j,
       j <= RETRY_COUNT
       /\ statements (exec q c).2 = statements c ++ repeat q (S j)
       /\ length (waits (exec q c).2) = length (waits c) + j.
Proof.
  destruct (call_loop_settles q RETRY_COUNT c) as (j & Hj & _ & Hc & _).
  assert ((exec q c).2 = issue q (after_busy q j c)) as ->.
  { unfold exec, mbind, M_bind, bind, _call, mret, M_ret, ret.
    destruct (call_loop q RETRY_COUNT c) as [[out|err] c1]; exact Hc. }
  destruct (busy_effects_views q (random c) j (drawn c)) as (H1 & H2 & H3).
  unfold signals, statements, waits. cbn [issue after_busy effects inTransaction].
  rewrite !omap_app, H1, H2, !length_app, H3. cbn.
  rewrite !app_nil_r. split; [reflexivity|]. split; [reflexivity|].
  exists j. split; [exact Hj|]. split; [|lia].
  rewrite <- app_assoc. f_equal. change [q] with (repeat q 1).
  change (q :: repeat q j) with (repeat q (S j)).
  rewrite <- repeat_app. f_equal. lia.
Qed.

Lemma views_emit s c :
  statements (record_effect (Emit s) c) = statements c
  /\ waits (record_effect (Emit s) c) = waits c
  /\ signals (record_effect (Emit s) c) = signals c ++ [s]
  /\ inTransaction (record_effect (Emit s) c) = inTransaction c.
Proof.
  unfold statements, waits, signals, record_effect. cbn [effects inTransaction].
  rewrite !omap_app. cbn. now rewrite !app_nil_r.
Qed.

Lemma views_flag b c :
  statements (set_inTransaction b c) = statements c
  /\ waits (set_inTransaction b c) = waits c
  /\ signals (set_inTransaction b c) = signals c
  /\ inTransaction (set_inTransaction b c) = b.
Proof. repeat split. Qed.

Lemma views_wait c :
  statements (wait c) = statements c
  /\ length (waits (wait c)) = S (length (waits c))
  /\ signals (wait c) = signals c
  /\ inTransaction (wait c) = inTransaction c.
Proof.
  unfold statements, waits, signals, wait. cbn [effects inTransaction].
  rewrite !omap_app, length_app. cbn. rewrite !app_nil_r. repeat split. lia.
Qed.

Lemma begin_transaction_views n : forall c,
  exists k,
    1 <= k <= S RETRY_COUNT * S n
    /\ statements (begin_transaction n c).2 = statements c ++ repeat BEGIN_IMMEDIATE k
    /\ length (waits (begin_transaction n c).2) = length (waits c) + (k - 1)
    /\ match (begin_transaction n c).1 with
       | Fulfilled _ =>
           inTransaction (begin_transaction n c).2 = true
           /\ signals (begin_transaction n c).2 = signals c ++ ["begin"]
       | Rejected _ =>
           inTransaction (begin_transaction n c).2 = false
           /\ signals (begin_transaction n c).2 = signals c
       end.
Proof.
  induction n as [|n IH]; intros c; rewrite begin_transaction_eq;
    destruct (exec_views BEGIN_IMMEDIATE (set_inTransaction true c))
      as (Hsig & Hflag & j & Hj & Hst & Hw);
    destruct (views_flag true c) as (F1 & F2 & F3 & F4);
    rewrite F1 in Hst; rewrite F2 in Hw; rewrite F3 in Hsig; rewrite F4 in Hflag;
    destruct (exec BEGIN_IMMEDIATE (set_inTransaction true c)) as [[[]|err] c1];
    cbn [fst snd] in *;
    destruct (views_emit "begin" c1) as (E1 & E2 & E3 & E4);
    destruct (views_flag false c1) as (G1 & G2 & G3 & G4);
    destruct (views_wait c1) as (W1 & W2 & W3 & W4).
  - exists (S j). unfold RETRY_COUNT in *. split; [lia|].
    rewrite E1, E2, E3, E4, Hst, Hw, Hsig, Hflag. repeat split; lia.
  - exists (S j). unfold RETRY_COUNT in *. split; [lia|].
    destruct (isBusyError err); cbn [fst snd]; rewrite G1, G2, G3, Hst, Hw, Hsig;
      repeat split; lia.
  - exists (S j). unfold RETRY_COUNT in *. split; [lia|].
    rewrite E1, E2, E3, E4, Hst, Hw, Hsig, Hflag. repeat split; lia.
  - destruct (isBusyError err).
    + destruct (IH (wait c1)) as (k & Hk & Hst' & Hw' & Hres).
      exists (S j + k). split; [unfold RETRY_COUNT in *; lia|].
      rewrite Hst', Hw', W1, W2, Hst, Hw. split; [|split; [lia|]].
      * rewrite <- app_assoc, <- repeat_app. reflexivity.
      * destruct ((begin_transaction n (wait c1)).1).
        -- destruct Hres as [-> ->]. now rewrite W3, Hsig.
        -- destruct Hres as [-> ->]. now rewrite W3, Hsig.
    + exists (S j). split; [unfold RETRY_COUNT in *; lia|].
      cbn [fst snd]. rewrite G1, G2, G3, Hst, Hw, Hsig. repeat split; lia.
Qed.

(** X7: [fn] runs inside a transaction or not at all.  Whatever the driver
    answers, [__withTransaction] first issues [BEGIN IMMEDIATE], between once
    and 121 times, with a wait between two attempts, and nothing else.  Then
    either the transaction is open ([inTransaction] is set and [begin] has
    been emitted) and [fn] runs from there, or the call rejects without
    having run [fn], with [inTransaction] cleared and nothing emitted. *)
Theorem fn_runs_inside_a_transaction_or_not_at_all (c : conn) :
  exists k c1,
    1 <= k <= S RETRY_COUNT * S RETRY_COUNT
    /\ statements c1 = statements c ++ repeat "BEGIN IMMEDIATE" k
    /\ length (waits c1) = length (waits c) + (k - 1)
    /\ ((inTransaction c1 = true
         /\ signals c1 = signals c ++ ["begin"]
         /\ forall fn,
              __withTransaction fn RETRY_COUNT c
              = (outcome ← attempt fn; end_transaction outcome) c1)
        \/ (inTransaction c1 = false
            /\ signals c1 = signals c
            /\ exists error,
                 forall fn, __withTransaction fn RETRY_COUNT c = (Rejected error, c1))).
Proof.
  destruct (begin_transaction_views RETRY_COUNT c) as (k & Hk & Hst & Hw & Hres).
  exists k, (begin_transaction RETRY_COUNT c).2.
  split; [exact Hk|]. split; [exact Hst|]. split; [exact Hw|].
  destruct (begin_transaction RETRY_COUNT c) as [[[]|error] c1] eqn:Hb; cbn [fst snd] in *.
  - left. destruct Hres as [H1 H2]. repeat split; try assumption.
    intros fn. rewrite withTransaction_split.
    unfold mbind at 1, M_bind at 1, bind at 1. now rewrite Hb.
  - right. destruct Hres as [H1 H2]. repeat split; try assumption.
    exists error. intros fn. rewrite withTransaction_split.
    unfold mbind at 1, M_bind at 1, bind at 1. now rewrite Hb.
Qed.

(** The second half of [__withTransaction], by the fate of the statement
    that closes the transaction. *)
Lemma end_transaction_closing outcome c1 :
  end_transaction outcome c1
  = match exec (closing_statement outcome) c1 with
    | (Fulfilled _, c2) =>
        (outcome,
         record_effect (Emit "finally")
           (record_effect
              (Emit match outcome with Fulfilled _ => "end" | Rejected _ => "rollback" end)
              (set_inTransaction false c2)))
    | (Rejected e, c2) => (Rejected e, c2)
    end.
Proof.
  destruct outcome as [result|error]; cbn [end_transaction closing_statement];
    cbv beta iota zeta delta [mbind M_bind mret M_ret bind ret update throw emit].
  - destruct (exec "END" c1) as [[[]|e] c2]; reflexivity.
  - destruct (exec "ROLLBACK" c1) as [[[]|e] c2]; reflexivity.
Qed.

(** X8: the signals of a transaction.  For a [fn] that emits nothing on the
    connection and leaves [inTransaction] alone, a call of
    [__withTransaction] that fulfils has emitted [begin], [end], [finally]
    and cleared [inTransaction].  A call that rejects has emitted nothing
    ([BEGIN IMMEDIATE] failed), or [begin], [rollback], [finally], in both
    cases with [inTransaction] cleared, or else [begin] alone: the statement
    that closes the transaction failed, [finally] is not emitted and
    [inTransaction] stays set.  [end] is never emitted by a call that
    rejects. *)
Theorem transaction_signals (fn : M jsval) (c : conn) :
  (forall c0, signals (fn c0).2 = signals c0) ->
  (forall c0, inTransaction (fn c0).2 = inTransaction c0) ->
  match __withTransaction fn RETRY_COUNT c with
  | (Fulfilled _, c') =>
      signals c' = signals c ++ ["begin"; "end"; "finally"]
      /\ inTransaction c' = false
  | (Rejected _, c') =>
      (signals c' = signals c /\ inTransaction c' = false)
      \/ (signals c' = signals c ++ ["begin"; "rollback"; "finally"]
          /\ inTransaction c' = false)
      \/ (signals c' = signals c ++ ["begin"] /\ inTransaction c' = true)
  end.
Proof.
  intros Hquiet Hflag.
  destruct (begin_transaction_views RETRY_COUNT c) as (k & _ & _ & _ & Hres).
  rewrite withTransaction_split. unfold mbind at 1, M_bind at 1, bind at 1.
  destruct (begin_transaction RETRY_COUNT c) as [[[]|error] c0]; cbn [fst snd] in Hres.
  2:{ left. destruct Hres as [-> ->]. auto. }
  destruct Hres as [Hin Hsig].
  unfold mbind, M_bind, bind, attempt.
  specialize (Hquiet c0). specialize (Hflag c0).
  destruct (fn c0) as [outcome c1]. cbn [snd] in Hquiet, Hflag.
  rewrite end_transaction_closing.
  destruct (exec_views (closing_statement outcome) c1) as (Hs2 & Hf2 & _).
  destruct (exec (closing_statement outcome) c1) as [[[]|e] c2]; cbn [snd] in Hs2, Hf2.
  - destruct (views_flag false c2) as (_ & _ & G3 & G4).
    destruct (views_emit match outcome with Fulfilled _ => "end" | Rejected _ => "rollback" end
                (set_inTransaction false c2)) as (_ & _ & E3 & E4).
    destruct (views_emit "finally"
                (record_effect
                   (Emit match outcome with Fulfilled _ => "end" | Rejected _ => "rollback" end)
                   (set_inTransaction false c2))) as (_ & _ & E3' & E4').
    destruct outcome as [result|err].
    + rewrite E3', E3, E4', E4, G3, G4, Hs2, Hquiet, Hsig, <- !app_assoc. auto.
    + right. left.
      rewrite E3', E3, E4', E4, G3, G4, Hs2, Hquiet, Hsig, <- !app_assoc. auto.
  - right. right. rewrite Hs2, Hf2, Hquiet, Hflag, Hsig, Hin. auto.
Qed.

(** A driver that refuses [END]: the transaction is left open. *)
Lemma transaction_signals_witness :
  match __withTransaction fn_returns RETRY_COUNT (fresh_conn (refuses "END")) with
  | (Fulfilled _, c') =>
      signals c' = signals (fresh_conn (refuses "END")) ++ ["begin"; "end"; "finally"]
      /\ inTransaction c' = false
  | (Rejected _, c') =>
      (signals c' = signals (fresh_conn (refuses "END")) /\ inTransaction c' = false)
      \/ (signals c' = signals (fresh_conn (refuses "END")) ++ ["begin"; "rollback"; "finally"]
          /\ inTransaction c' = false)
      \/ (signals c' = signals (fresh_conn (refuses "END")) ++ ["begin"]
          /\ inTransaction c' = true)
  end.
Proof.
  exact (transaction_signals fn_returns (fresh_conn (refuses "END"))
           (fun _ => eq_refl) (fun _ => eq_refl)).
Defined.

(** X9: when the statement that closes a transaction fails ([END] after a
    [fn] that returned, [ROLLBACK] after a [fn] that threw), the call
    rejects with the error of that statement: the result of [fn], or the
    error it threw, is lost.  [inTransaction] is left as it was and nothing
    more is emitted. *)
Theorem failed_close_masks_the_outcome_of_fn
    (fn : M jsval) (c c0 c1 c2 : conn) (outcome : settled jsval) (e : js_error) :
  begin_transaction RETRY_COUNT c = (Fulfilled tt, c0) ->
  fn c0 = (outcome, c1) ->
  exec (closing_statement outcome) c1 = (Rejected e, c2) ->
  __withTransaction fn RETRY_COUNT c = (Rejected e, c2)
  /\ inTransaction c2 = inTransaction c1
  /\ signals c2 = signals c1.
Proof.
  intros Hbegin Hfn Hclose.
  destruct (exec_views (closing_statement outcome) c1) as (Hs & Hf & _).
  rewrite Hclose in Hs, Hf. cbn [snd] in Hs, Hf. split; [|auto].
  rewrite withTransaction_split. unfold mbind at 1, M_bind at 1, bind at 1.
  rewrite Hbegin. unfold mbind, M_bind, bind, attempt. rewrite Hfn.
  rewrite end_transaction_closing, Hclose. reflexivity.
Qed.

Lemma failed_close_masks_the_outcome_of_fn_witness :
  __withTransaction fn_throws RETRY_COUNT (fresh_conn (refuses "ROLLBACK"))
  = (Rejected (mkError "db|1: sqlite3: disk I/O error" (Some "SQLITE_IOERR")),
     mkConn "db|1" (refuses "ROLLBACK") (fun k => 137 * k) 2 0 true
       [Issue "BEGIN IMMEDIATE"; Emit "begin"; Issue "ROLLBACK"]).
Proof.
  eassert (begin_transaction RETRY_COUNT (fresh_conn (refuses "ROLLBACK"))
           = (Fulfilled tt, _)) as Hb by (vm_compute; reflexivity).
  eassert (exec (closing_statement (Rejected (mkError "boom" None))) _ = (Rejected _, _))
    as Hc; [|
    refine (proj1 (failed_close_masks_the_outcome_of_fn fn_throws _ _ _ _
                     (Rejected (mkError "boom" None)) _ Hb eq_refl Hc))].
  vm_compute. reflexivity.
Defined.

(** ** More of the transaction chain *)

Lemma readonly_step lbl p p' :
  step lbl p = Some p' ->
  readOnly p = true /\ chain p = [] /\ holding p = [] /\ history p = [] ->
  db p' = db p
  /\ readOnly p' = true /\ chain p' = [] /\ holding p' = [] /\ history p' = [].
Proof.
  intros Hstep (Hro & Hch & Hh & Hhist).
  destruct lbl as [fn| | |i|i|]; unfold step in Hstep.
  - injection Hstep as <-. unfold withTransaction. rewrite Hro. cbn. auto.
  - injection Hstep as <-. cbn. auto.
  - now rewrite Hh in Hstep.
  - now rewrite Hch in Hstep.
  - now rewrite Hch in Hstep.
  - injection Hstep as <-. cbn. auto.
Qed.

(** X10: on a read-only connection [withTransaction] does nothing but throw:
    however many calls are made and whatever else happens, no call is
    chained or kept waiting, no [fn] is run and the connection is not
    touched. *)
Theorem readonly_connection_runs_nothing
    (c : conn) (opened : bool) (labels : list label) (p : process) :
  run labels (new_process c true opened) = Some p ->
  db p = c /\ chain p = [] /\ holding p = [] /\ history p = [].
Proof.
  assert (forall p0,
            readOnly p0 = true /\ chain p0 = [] /\ holding p0 = [] /\ history p0 = [] ->
            run labels p0 = Some p ->
            db p = db p0 /\ chain p = [] /\ holding p = [] /\ history p = []) as H.
  { induction labels as [|lbl labels IH]; intros p0 Hinv Hrun.
    - injection Hrun as <-. tauto.
    - cbn [run] in Hrun. destruct (step lbl p0) as [p1|] eqn:Hstep; [|discriminate].
      destruct (readonly_step _ _ _ Hstep Hinv) as (Hdb & Hinv1).
      rewrite <- Hdb. now apply IH. }
  intros Hrun. apply (H (new_process c true opened)); [|exact Hrun].
  cbn. auto.
Qed.

Lemma readonly_connection_runs_nothing_witness :
  exists p,
    run [Call fn_returns; Opened; Call fn_throws] (new_process healthy_conn true false)
    = Some p
    /\ calls p = 2 /\ db p = healthy_conn /\ chain p = [] /\ history p = [].
Proof.
  eassert (run [Call fn_returns; Opened; Call fn_throws]
             (new_process healthy_conn true false) = Some _)
    as Hrun by (vm_compute; reflexivity).
  destruct (readonly_connection_runs_nothing _ _ _ _ Hrun) as (H1 & H2 & _ & H4).
  eexists. split; [exact Hrun|]. split; [reflexivity|]. auto.
Defined.

Lemma closed_step lbl p p' :
  step lbl p = Some p' -> is_Opened lbl = false ->
  readOnly p = false /\ sqlite_open p = false /\ chain p = [] /\ history p = []
  /\ map fst (holding p) = seq 0 (calls p) ->
  db p' = db p
  /\ readOnly p' = false /\ sqlite_open p' = false /\ chain p' = [] /\ history p' = []
  /\ map fst (holding p') = seq 0 (calls p').
Proof.
  intros Hstep Hlbl (Hro & Hop & Hch & Hhist & Hh).
  destruct lbl as [fn| | |i|i|]; unfold step in Hstep; try discriminate Hlbl.
  - injection Hstep as <-. unfold withTransaction. rewrite Hro, Hop.
    cbn [db readOnly sqlite_open chain history holding calls].
    rewrite map_app, Hh, seq_S. cbn. repeat split; assumption.
  - destruct (holding p) as [|[k f] rest]; [discriminate|]. now rewrite Hop in Hstep.
  - now rewrite Hch in Hstep.
  - now rewrite Hch in Hstep.
  - injection Hstep as <-. cbn. repeat split; assumption.
Qed.

(** X11: nothing is run before the connection is open.  As long as
    [this._sqlite] is not set, every call of [withTransaction] on a writable
    connection waits, in the order of the calls; no statement is issued and
    no [fn] is called. *)
Theorem calls_wait_for_the_connection (c : conn) (labels : list label) (p : process) :
  run labels (new_process c false false) = Some p ->
  forallb (fun lbl => negb (is_Opened lbl)) labels = true ->
  db p = c /\ chain p = [] /\ history p = []
  /\ map fst (holding p) = seq 0 (calls p).
Proof.
  assert (forall p0,
            readOnly p0 = false /\ sqlite_open p0 = false /\ chain p0 = []
            /\ history p0 = [] /\ map fst (holding p0) = seq 0 (calls p0) ->
            run labels p0 = Some p ->
            forallb (fun lbl => negb (is_Opened lbl)) labels = true ->
            db p = db p0 /\ chain p = [] /\ history p = []
            /\ map fst (holding p) = seq 0 (calls p)) as H.
  { induction labels as [|lbl labels IH]; intros p0 Hinv Hrun Hno.
    - injection Hrun as <-. tauto.
    - cbn [run] in Hrun. destruct (step lbl p0) as [p1|] eqn:Hstep; [|discriminate].
      cbn [forallb] in Hno. apply andb_true_iff in Hno as [Hl Hno].
      apply negb_true_iff in Hl.
      destruct (closed_step _ _ _ Hstep Hl Hinv) as (Hdb & Hinv1).
      rewrite <- Hdb. now apply IH. }
  intros Hrun Hno. apply (H (new_process c false false)); [|exact Hrun|exact Hno].
  cbn. auto.
Qed.

Lemma calls_wait_for_the_connection_witness :
  exists p,
    run [Call fn_returns; Call fn_throws] (new_process healthy_conn false false) = Some p
    /\ db p = healthy_conn /\ chain p = [] /\ history p = []
    /\ map fst (holding p) = [0; 1].
Proof.
  eassert (run [Call fn_returns; Call fn_throws]
             (new_process healthy_conn false false) = Some _)
    as Hrun by (vm_compute; reflexivity).
  destruct (calls_wait_for_the_connection _ _ _ Hrun eq_refl) as (H1 & H2 & H3 & H4).
  eexists. split; [exact Hrun|]. auto.
Defined.

Lemma map_link_call_set_phase i ph ch :
  map link_call (set_phase i ph ch) = map link_call ch.
Proof.
  unfold set_phase. destruct (ch !! i) as [l|] eqn:Hl; [|reflexivity].
  rewrite list_fmap_insert. cbn [link_call].
  apply list_insert_id. now rewrite list_lookup_fmap, Hl.
Qed.

Lemma set_phase_fns i ph ch (fns : list (M jsval)) :
  Forall (fun l => fns !! link_call l = Some (link_fn l)) ch ->
  Forall (fun l => fns !! link_call l = Some (link_fn l)) (set_phase i ph ch).
Proof.
  intros H. unfold set_phase. destruct (ch !! i) as [l|] eqn:Hl; [|exact H].
  apply Forall_insert; [exact H|]. cbn.
  rewrite Forall_forall in H. apply H. eapply list_elem_of_lookup_2. exact Hl.
Qed.


Lemma accounted_step lbl p p' fns :
  step lbl p = Some p' -> accounted fns p -> accounted (fns ++ call_fns [lbl]) p'.
Proof.
  intros Hstep (Hro & Hcalls & Hperm & Hch & Hh).
  assert (forall (k : nat) (f : M jsval) more,
            fns !! k = Some f -> (fns ++ more) !! k = Some f) as Hweak
    by (intros k f more Hk; now apply lookup_app_l_Some).
  assert (Forall (fun l => (fns ++ call_fns [lbl]) !! link_call l = Some (link_fn l)) (chain p))
    as Hch' by (eapply Forall_impl; [exact Hch | intros l Hl; now apply Hweak]).
  assert (Forall (fun kf => (fns ++ call_fns [lbl]) !! fst kf = Some (snd kf)) (holding p))
    as Hh' by (eapply Forall_impl; [exact Hh | intros l Hl; now apply Hweak]).
  destruct lbl as [fn| | |i|i|]; unfold step in Hstep.
  6:{ injection Hstep as <-. unfold accounted. cbn. now rewrite app_nil_r. }
  - injection Hstep as <-. unfold withTransaction. rewrite Hro.
    assert ((fns ++ call_fns [Call fn]) !! calls p = Some fn) as Hnew.
    { rewrite Hcalls. cbn. now rewrite lookup_app_r, Nat.sub_diag by lia. }
    destruct (sqlite_open p); unfold accounted;
      cbn [readOnly calls chain holding];
      rewrite length_app, seq_S, ?map_app; cbn [call_fns omap list_omap length map
        link_call fst snd Nat.add].
    + split; [reflexivity|]. split; [cbn; lia|]. split; [|split].
      * rewrite <- Hperm. cbn [map link_call]. rewrite <- !app_assoc.
        apply Permutation_app_head, Permutation_app_comm.
      * apply Forall_app. split; [exact Hch'|]. repeat constructor. exact Hnew.
      * exact Hh'.
    + split; [reflexivity|]. split; [cbn; lia|]. split; [|split].
      * rewrite <- Hperm. cbn [map fst]. now rewrite app_assoc.
      * exact Hch'.
      * apply Forall_app. split; [exact Hh'|]. repeat constructor. exact Hnew.
  - injection Hstep as <-. unfold accounted. cbn. now rewrite app_nil_r.
  - destruct (holding p) as [|[k f] rest] eqn:Hhold; [discriminate|].
    destruct (sqlite_open p); [|discriminate]. injection Hstep as <-.
    unfold accounted. cbn [readOnly calls chain holding call_fns omap list_omap].
    rewrite app_nil_r. split; [exact Hro|]. split; [exact Hcalls|]. split; [|split].
    + rewrite <- Hperm, map_app. cbn [map link_call fst]. now rewrite <- app_assoc.
    + apply Forall_app. split; [exact Hch|]. repeat constructor.
      now apply Forall_cons in Hh as [Hk _].
    + now apply Forall_cons in Hh as [_ Hrest].
  - destruct (chain p !! i) as [l|] eqn:Hl; [|discriminate].
    destruct (is_chained (link_phase l) && previous_settled (chain p) i); [|discriminate].
    cbn [call_fns omap list_omap]. rewrite app_nil_r.
    destruct (begin_transaction RETRY_COUNT (db p)) as [[[]|error] c1];
      injection Hstep as <-; unfold accounted;
      cbn [readOnly calls chain holding]; rewrite map_link_call_set_phase;
      repeat split; auto using set_phase_fns.
  - destruct (chain p !! i) as [l|] eqn:Hl; [|discriminate].
    destruct (is_running (link_phase l)); [|discriminate].
    cbn [call_fns omap list_omap]. rewrite app_nil_r.
    destruct ((r ← attempt (link_fn l); end_transaction r) (db p)) as [outcome c1].
    injection Hstep as <-. unfold accounted.
    cbn [readOnly calls chain holding]. rewrite map_link_call_set_phase.
    repeat split; auto using set_phase_fns.
Qed.

Lemma call_fns_cons lbl labels : call_fns (lbl :: labels) = call_fns [lbl] ++ call_fns labels.
Proof. unfold call_fns. cbn. now destruct lbl. Qed.

(** X12: no call of [withTransaction] is lost or duplicated.  On a writable
    connection, at every moment, each call made so far is either waiting for
    the connection or a link of the chain, exactly once, and it is there with
    the [fn] it was called with. *)
Theorem every_call_is_accounted_for
    (c : conn) (opened : bool) (labels : list label) (p : process) :
  run labels (new_process c false opened) = Some p ->
  calls p = length (call_fns labels)
  /\ map link_call (chain p) ++ map fst (holding p) ≡ₚ seq 0 (calls p)
  /\ Forall (fun l => call_fns labels !! link_call l = Some (link_fn l)) (chain p)
  /\ Forall (fun kf => call_fns labels !! fst kf = Some (snd kf)) (holding p).
Proof.
  assert (forall fns p0,
            accounted fns p0 -> run labels p0 = Some p ->
            accounted (fns ++ call_fns labels) p) as H.
  { induction labels as [|lbl labels IH]; intros fns p0 Hacc Hrun.
    - injection Hrun as <-. cbn. now rewrite app_nil_r.
    - cbn [run] in Hrun. destruct (step lbl p0) as [p1|] eqn:Hstep; [|discriminate].
      rewrite call_fns_cons, app_assoc. apply (IH _ p1); [|exact Hrun].
      now apply (accounted_step lbl p0). }
  intros Hrun.
  destruct (H [] (new_process c false opened)) as (_ & H1 & H2 & H3 & H4);
    [|exact Hrun|auto].
  unfold accounted. cbn. auto.
Qed.

Lemma every_call_is_accounted_for_witness :
  exists p,
    run overtaking_calls (new_process healthy_conn false false) = Some p
    /\ calls p = 2
    /\ map link_call (chain p) ++ map fst (holding p) ≡ₚ [0; 1].
Proof.
  eassert (run overtaking_calls (new_process healthy_conn false false) = Some _)
    as Hrun by (vm_compute; reflexivity).
  destruct (every_call_is_accounted_for _ _ _ _ Hrun) as (H1 & H2 & _).
  eexists. split; [exact Hrun|]. split; [reflexivity|]. exact H2.
Defined.

Lemma settled_step lbl p p' i l :
  step lbl p = Some p' -> chain p !! i = Some l ->
  exists l',
    chain p' !! i = Some l'
    /\ link_call l' = link_call l /\ link_fn l' = link_fn l
    /\ (forall outcome, link_phase l = Done outcome -> l' = l).
Proof.
  intros Hstep Hl.
  assert (forall j lj ph ch,
            ch = chain p -> chain p !! j = Some lj ->
            (forall outcome, link_phase l = Done outcome -> j <> i) ->
            exists l',
              set_phase j ph ch !! i = Some l'
              /\ link_call l' = link_call l /\ link_fn l' = link_fn l
              /\ (forall outcome, link_phase l = Done outcome -> l' = l)) as Hset.
  { intros j lj ph ch -> Hj Hne. unfold set_phase. rewrite Hj.
    destruct (decide (j = i)) as [->|Hji].
    - rewrite list_lookup_insert_eq by (eapply lookup_lt_Some; exact Hl).
      eexists. split; [reflexivity|]. assert (lj = l) as -> by congruence.
      cbn. repeat split. intros outcome Hd. now destruct (Hne outcome Hd).
    - rewrite list_lookup_insert_ne by exact Hji. exists l. auto. }
  destruct lbl as [fn| | |j|j|]; unfold step in Hstep.
  6:{ injection Hstep as <-. exists l. auto. }
  - injection Hstep as <-. unfold withTransaction.
    destruct (readOnly p); [|destruct (sqlite_open p)]; cbn [chain];
      exists l; rewrite ?lookup_app_l by (eapply lookup_lt_Some; exact Hl); auto.
  - injection Hstep as <-. exists l. auto.
  - destruct (holding p) as [|[k f] rest]; [discriminate|].
    destruct (sqlite_open p); [|discriminate]. injection Hstep as <-. cbn [chain].
    exists l. rewrite lookup_app_l by (eapply lookup_lt_Some; exact Hl). auto.
  - destruct (chain p !! j) as [lj|] eqn:Hj; [|discriminate].
    destruct (is_chained (link_phase lj) && previous_settled (chain p) j) eqn:Hc;
      [|discriminate].
    apply andb_true_iff in Hc as [Hc _].
    assert (forall outcome, link_phase l = Done outcome -> j <> i) as Hne.
    { intros outcome Hd ->. assert (lj = l) as -> by congruence.
      rewrite Hd in Hc. discriminate. }
    destruct (begin_transaction RETRY_COUNT (db p)) as [[[]|error] c1];
      injection Hstep as <-; cbn [chain]; eapply Hset; eauto.
  - destruct (chain p !! j) as [lj|] eqn:Hj; [|discriminate].
    destruct (is_running (link_phase lj)) eqn:Hc; [|discriminate].
    assert (forall outcome, link_phase l = Done outcome -> j <> i) as Hne.
    { intros outcome Hd ->. assert (lj = l) as -> by congruence.
      rewrite Hd in Hc. discriminate. }
    destruct ((r ← attempt (link_fn lj); end_transaction r) (db p)) as [outcome c1].
    injection Hstep as <-. cbn [chain]. eapply Hset; eauto.
Qed.

(** X13: a transaction settles once.  A link of the chain stays at its
    place, for the same call and the same [fn], whatever happens afterwards,
    and once its promise has settled the link does not change any more: later
    calls and later transactions do not touch the outcome of an earlier
    one. *)
Theorem settled_links_stay_settled
    (labels : list label) (p p' : process) (i : nat) (l : link) :
  run labels p = Some p' ->
  chain p !! i = Some l ->
  exists l',
    chain p' !! i = Some l'
    /\ link_call l' = link_call l /\ link_fn l' = link_fn l
    /\ (forall outcome, link_phase l = Done outcome -> l' = l).
Proof.
  revert p l. induction labels as [|lbl labels IH]; intros p l Hrun Hl; cbn [run] in Hrun.
  - injection Hrun as <-. exists l. auto.
  - destruct (step lbl p) as [p1|] eqn:Hstep; [|discriminate].
    destruct (settled_step _ _ _ _ _ Hstep Hl) as (l1 & Hl1 & Hc1 & Hf1 & Hd1).
    destruct (IH p1 l1 Hrun Hl1) as (l' & Hl' & Hc' & Hf' & Hd').
    exists l'. split; [exact Hl'|]. split; [congruence|]. split; [congruence|].
    intros outcome Hd. rewrite <- (Hd1 outcome Hd). apply (Hd' outcome).
    now rewrite (Hd1 outcome Hd).
Qed.

Lemma settled_links_stay_settled_witness :
  exists p p',
    run [Call fn_throws; Start 0; Finish 0] (new_process healthy_conn false true) = Some p
    /\ run [Call fn_returns; Start 1; Finish 1] p = Some p'
    /\ chain p' !! 0 = Some (mkLink 0 fn_throws (Done (Rejected (mkError "boom" None)))).
Proof.
  eassert (run [Call fn_throws; Start 0; Finish 0] (new_process healthy_conn false true)
           = Some _) as Hrun by (vm_compute; reflexivity).
  match type of Hrun with
  | _ = Some ?p =>
      eassert (run [Call fn_returns; Start 1; Finish 1] p = Some _)
        as Hmore by (vm_compute; reflexivity)
  end.
  destruct (settled_links_stay_settled _ _ _ 0 _ Hmore eq_refl) as (l' & Hl' & _ & _ & Hd).
  eexists _, _. split; [exact Hrun|]. split; [exact Hmore|].
  rewrite Hl'. f_equal. exact (Hd _ eq_refl).
Defined.

(** ** Opening and closing *)

Lemma elem_of_set_run k (r r' x : open_run) (runs : list open_run) :
  runs !! k = Some r -> x <> r ->
  (x ∈ <[k := r']> runs <-> x = r' \/ x ∈ runs).
Proof.
  intros Hk Hx. rewrite !list_elem_of_lookup. split.
  - intros [j Hj]. apply list_lookup_insert_Some in Hj as [(_ & <- & _)|(_ & Hj)]; eauto.
  - intros [->|[j Hj]].
    + exists k. apply list_lookup_insert_eq. eapply lookup_lt_Some. exact Hk.
    + exists j. rewrite list_lookup_insert_ne; [exact Hj|]. intros <-. congruence.
Qed.

Lemma map_run_resolves_insert k g st st' (runs : list open_run) :
  runs !! k = Some (mkRun g st) ->
  map run_resolves (<[k := mkRun g st']> runs) = map run_resolves runs.
Proof.
  intros Hk. rewrite list_fmap_insert. cbn [run_resolves].
  apply list_insert_id. now rewrite list_lookup_fmap, Hk.
Qed.

Lemma life_inv_new : life_inv new_object.
Proof.
  split; cbn.
  - lia.
  - constructor.
  - split; [reflexivity|]. apply not_elem_of_nil.
  - constructor.
  - intros g. split; intros H; now apply elem_of_nil in H.
  - intros st H. now apply elem_of_nil in H.
Qed.

Lemma life_step_keeps_inv lbl o o' :
  life_inv o -> life_step lbl o = Some o' -> life_inv o'.
Proof.
  intros [Hfresh Hbound Hres Hnd Hrs Hh] Hstep.
  destruct lbl as [|k|k|k|]; cbn [life_step] in Hstep.
  - (* open() *)
    injection Hstep as <-. unfold open.
    destruct (_resolveDbP o) as [g|] eqn:Hr; cbn [fst]; [|now split; try rewrite Hr].
    destruct Hres as [-> Hnew].
    split; cbn [dbP promises _resolveDbP open_runs resolved _sqlite].
    + exact Hfresh.
    + apply Forall_app. split; [exact Hbound|]. repeat constructor. exact Hfresh.
    + rewrite map_app. apply elem_of_app. right. cbn. apply list_elem_of_singleton. reflexivity.
    + rewrite map_app. apply NoDup_app. split; [exact Hnd|]. split.
      * intros x Hx [->|[]%elem_of_nil]%elem_of_cons. contradiction.
      * apply NoDup_singleton.
    + intros g. rewrite Hrs, elem_of_app. split; [auto|].
      intros [H|H]; [exact H|]. apply list_elem_of_singleton in H. discriminate H.
    + intros st [H|H]%elem_of_app Hst.
      * exfalso. apply Hnew. apply list_elem_of_fmap. exists (mkRun (dbP o) st). auto.
      * apply list_elem_of_singleton in H. injection H as ->. destruct Hst; discriminate.
  - (* _openDB() returns *)
    destruct (open_runs o !! k) as [[g []]|] eqn:Hk; try discriminate.
    injection Hstep as <-.
    split; cbn [dbP promises _resolveDbP open_runs resolved _sqlite].
    + exact Hfresh.
    + apply Forall_insert; [exact Hbound|].
      rewrite Forall_forall in Hbound. apply (Hbound (mkRun g OpenPending)).
      eapply list_elem_of_lookup_2. exact Hk.
    + now rewrite (map_run_resolves_insert _ _ _ _ _ Hk).
    + now rewrite (map_run_resolves_insert _ _ _ _ _ Hk).
    + intros g'. rewrite Hrs, (elem_of_set_run _ _ _ _ _ Hk) by discriminate.
      split; [auto|]. intros [H|H]; [discriminate H|exact H].
    + intros st _ _. eauto.
  - (* _openDB() throws *)
    destruct (open_runs o !! k) as [[g []]|] eqn:Hk; try discriminate.
    injection Hstep as <-.
    split; cbn [dbP promises _resolveDbP open_runs resolved _sqlite].
    + exact Hfresh.
    + apply Forall_insert; [exact Hbound|].
      rewrite Forall_forall in Hbound. apply (Hbound (mkRun g OpenPending)).
      eapply list_elem_of_lookup_2. exact Hk.
    + now rewrite (map_run_resolves_insert _ _ _ _ _ Hk).
    + now rewrite (map_run_resolves_insert _ _ _ _ _ Hk).
    + intros g'. rewrite Hrs, (elem_of_set_run _ _ _ _ _ Hk) by discriminate.
      split; [auto|]. intros [H|H]; [discriminate H|exact H].
    + intros st Hin Hst.
      apply (elem_of_set_run _ _ _ _ _ Hk) in Hin; [|destruct Hst; subst; discriminate].
      destruct Hin as [Hin|Hin]; [destruct Hst; subst; discriminate|]. eauto.
  - (* the reaction of open() *)
    destruct (open_runs o !! k) as [[g []]|] eqn:Hk; try discriminate.
    injection Hstep as <-.
    split; cbn [dbP promises _resolveDbP open_runs resolved _sqlite].
    + exact Hfresh.
    + apply Forall_insert; [exact Hbound|].
      rewrite Forall_forall in Hbound. apply (Hbound (mkRun g OpenInstalled)).
      eapply list_elem_of_lookup_2. exact Hk.
    + now rewrite (map_run_resolves_insert _ _ _ _ _ Hk).
    + now rewrite (map_run_resolves_insert _ _ _ _ _ Hk).
    + intros g'. rewrite elem_of_app, list_elem_of_singleton, Hrs,
        (elem_of_set_run _ _ _ _ _ Hk) by discriminate.
      split; intros [H|H]; auto; [left; congruence | right; congruence].
    + intros st Hin Hst.
      assert (mkRun g OpenInstalled ∈ open_runs o) as Hold
        by (eapply list_elem_of_lookup_2; exact Hk).
      destruct (decide (mkRun (dbP o) st = mkRun g OpenInstalled)) as [Heq|Hne].
      * injection Heq as Hg _. apply (Hh OpenInstalled); [now rewrite Hg | auto].
      * apply (elem_of_set_run _ _ _ _ _ Hk) in Hin; [|exact Hne].
        destruct Hin as [Hin|Hin]; [|eauto].
        injection Hin as Hg _. apply (Hh OpenInstalled); [now rewrite Hg | auto].
  - (* close() *)
    injection Hstep as <-. unfold close.
    assert (promises o ∉ map run_resolves (open_runs o)) as Hnew.
    { intros (r & Hr & Hin)%list_elem_of_fmap. rewrite Forall_forall in Hbound.
      specialize (Hbound r Hin). lia. }
    split; cbn [dbP promises _resolveDbP open_runs resolved _sqlite].
    + lia.
    + eapply Forall_impl; [exact Hbound|]. cbn. intros r Hr. lia.
    + auto.
    + exact Hnd.
    + exact Hrs.
    + intros st Hin _. exfalso. apply Hnew. apply list_elem_of_fmap.
      exists (mkRun (promises o) st). auto.
Qed.

Lemma life_run_keeps_inv labels : forall o o',
  life_inv o -> life_run labels o = Some o' -> life_inv o'.
Proof.
  induction labels as [|lbl labels IH]; intros o o' Hinv Hrun; cbn [life_run] in Hrun.
  - now injection Hrun as <-.
  - destruct (life_step lbl o) as [o1|] eqn:Hstep; [|discriminate].
    eauto using life_step_keeps_inv.
Qed.

(** X14: the promise of [open()] keeps its word.  Once the promise [dbP]
    that [open()] returns is resolved, and for as long as [close()] has not
    made a new one, [this._sqlite] is set: whoever awaited [open()] (as
    [_hold] does) finds a handle. *)
Theorem open_resolves_with_a_handle (labels : list life_label) (o : sqlite_object) :
  life_run labels new_object = Some o ->
  (open o).2 ∈ resolved o ->
  is_Some (_sqlite o).
Proof.
  intros Hrun Hres.
  pose proof (life_run_keeps_inv _ _ _ life_inv_new Hrun) as Hinv.
  assert ((open o).2 = dbP o) as Hp by (unfold open; now destruct (_resolveDbP o)).
  rewrite Hp in Hres. apply (life_resolved o Hinv) in Hres.
  apply (life_handle o Hinv OpenSettled); auto.
Qed.

Lemma open_resolves_with_a_handle_witness :
  exists o,
    life_run [CallOpen; CallOpen; OpenDBReturns 0; OpenReaction 0] new_object = Some o
    /\ (open o).2 ∈ resolved o /\ is_Some (_sqlite o).
Proof.
  eassert (life_run [CallOpen; CallOpen; OpenDBReturns 0; OpenReaction 0] new_object
           = Some _) as Hrun by (vm_compute; reflexivity).
  eexists. split; [exact Hrun|].
  assert (0 ∈ [0]) as Hin by (apply list_elem_of_singleton; reflexivity).
  split; [exact Hin|].
  exact (open_resolves_with_a_handle _ _ Hrun Hin).
Defined.

Lemma life_step_counts lbl o o' :
  life_inv o -> life_step lbl o = Some o' ->
  length (open_runs o) <= length (open_runs o')
  /\ promises o' = promises o + (if is_CallClose lbl then 1 else 0)
  /\ (if is_CallOpen lbl then 1 <= length (open_runs o')
      else length (open_runs o') = length (open_runs o)).
Proof.
  intros Hinv Hstep.
  destruct lbl as [|k|k|k|]; cbn [life_step] in Hstep; cbn [is_CallClose is_CallOpen].
  - injection Hstep as <-. unfold open.
    pose proof (life_resolver o Hinv) as Hres.
    destruct (_resolveDbP o) as [g|]; cbn [fst open_runs promises].
    + rewrite length_app. cbn. lia.
    + apply list_elem_of_fmap in Hres as (r & _ & Hin).
      destruct (open_runs o); [now apply elem_of_nil in Hin | cbn; lia].
  - destruct (open_runs o !! k) as [[g []]|]; try discriminate.
    injection Hstep as <-. cbn. rewrite length_insert. lia.
  - destruct (open_runs o !! k) as [[g []]|]; try discriminate.
    injection Hstep as <-. cbn. rewrite length_insert. lia.
  - destruct (open_runs o !! k) as [[g []]|]; try discriminate.
    injection Hstep as <-. cbn. rewrite length_insert. lia.
  - injection Hstep as <-. cbn. lia.
Qed.

Lemma life_run_counts labels : forall o o',
  life_inv o -> life_run labels o = Some o' ->
  length (open_runs o) <= length (open_runs o')
  /\ promises o' = promises o + length (List.filter is_CallClose labels)
  /\ (if existsb is_CallOpen labels then 1 <= length (open_runs o')
      else length (open_runs o') = length (open_runs o)).
Proof.
  induction labels as [|lbl labels IH]; intros o o' Hinv Hrun; cbn [life_run] in Hrun.
  - injection Hrun as <-. cbn. lia.
  - destruct (life_step lbl o) as [o1|] eqn:Hstep; [|discriminate].
    destruct (life_step_counts _ _ _ Hinv Hstep) as (H1 & H2 & H3).
    destruct (IH o1 o' (life_step_keeps_inv _ _ _ Hinv Hstep) Hrun) as (I1 & I2 & I3).
    cbn [List.filter existsb]. split; [lia|]. split.
    + destruct (is_CallClose lbl); cbn [length]; lia.
    + destruct (is_CallOpen lbl); cbn [orb]; [destruct (existsb is_CallOpen labels); lia|].
      destruct (existsb is_CallOpen labels); lia.
Qed.

Lemma nodup_bounded_length (l : list nat) (n : nat) :
  NoDup l -> Forall (fun x => x < n) l -> length l <= n.
Proof.
  intros Hnd Hb. transitivity (length (seq 0 n)); [|now rewrite length_seq].
  apply submseteq_length.
  apply NoDup_submseteq; [exact Hnd|].
  intros x Hx. rewrite Forall_forall in Hb. apply elem_of_seq. specialize (Hb x Hx). lia.
Qed.

(** X15: the connection is opened once.  However often [open()] is called
    (by the user, or by [_hold] for every statement and transaction),
    [_openDB()] is started at most once for each promise [dbP], that is at
    most once more than [close()] has been called.  Without any [close()]
    it has been started exactly once if [open()] was called at all, and
    never otherwise. *)
Theorem openDB_runs_once (labels : list life_label) (o : sqlite_object) :
  life_run labels new_object = Some o ->
  NoDup (map run_resolves (open_runs o))
  /\ length (open_runs o) <= 1 + length (List.filter is_CallClose labels)
  /\ (existsb is_CallClose labels = false ->
      length (open_runs o) = if existsb is_CallOpen labels then 1 else 0).
Proof.
  intros Hrun.
  pose proof (life_run_keeps_inv _ _ _ life_inv_new Hrun) as Hinv.
  destruct (life_run_counts _ _ _ life_inv_new Hrun) as (_ & Hp & Hopen).
  cbn [new_object promises open_runs length] in Hp, Hopen.
  assert (length (open_runs o) <= promises o) as Hle.
  { rewrite <- (length_map run_resolves).
    apply nodup_bounded_length; [exact (life_nodup o Hinv)|].
    apply Forall_fmap. exact (life_bound o Hinv). }
  split; [exact (life_nodup o Hinv)|]. split; [lia|].
  intros Hnc.
  assert (List.filter is_CallClose labels = []) as Hnone.
  { clear -Hnc. induction labels as [|l ls IH]; [reflexivity|].
    cbn in *. destruct (is_CallClose l); [discriminate|]. auto. }
  rewrite Hnone in Hp. cbn in Hp.
  destruct (existsb is_CallOpen labels); lia.
Qed.

Lemma openDB_runs_once_witness :
  exists o,
    life_run [CallOpen; CallOpen; OpenDBReturns 0; CallOpen; OpenReaction 0; CallOpen]
      new_object = Some o
    /\ length (open_runs o) = 1.
Proof.
  eassert (life_run [CallOpen; CallOpen; OpenDBReturns 0; CallOpen; OpenReaction 0; CallOpen]
             new_object = Some _) as Hrun by (vm_compute; reflexivity).
  eexists. split; [exact Hrun|].
  exact (proj2 (proj2 (openDB_runs_once _ _ Hrun)) eq_refl).
Defined.

Lemma failed_step lbl o o' k :
  life_inv o -> life_step lbl o = Some o' -> is_CallClose lbl = false ->
  open_runs o !! k = Some (mkRun (dbP o) OpenFailed) ->
  dbP o' = dbP o
  /\ open_runs o' !! k = Some (mkRun (dbP o') OpenFailed)
  /\ length (open_runs o') = length (open_runs o).
Proof.
  intros Hinv Hstep Hlbl Hk.
  assert (_resolveDbP o = None) as Hnone.
  { pose proof (life_resolver o Hinv) as Hres.
    destruct (_resolveDbP o) as [g|]; [|reflexivity].
    destruct Hres as [-> Hnew]. exfalso. apply Hnew.
    apply list_elem_of_fmap. exists (mkRun (dbP o) OpenFailed).
    split; [reflexivity|]. eapply list_elem_of_lookup_2. exact Hk. }
  destruct lbl as [|j|j|j|]; cbn [life_step] in Hstep; try discriminate Hlbl.
  - injection Hstep as <-. unfold open. rewrite Hnone. cbn. auto.
  - destruct (open_runs o !! j) as [[g []]|] eqn:Hj; try discriminate.
    injection Hstep as <-. cbn. rewrite length_insert. repeat split.
    rewrite list_lookup_insert_ne; [exact Hk|]. intros <-. congruence.
  - destruct (open_runs o !! j) as [[g []]|] eqn:Hj; try discriminate.
    injection Hstep as <-. cbn. rewrite length_insert. repeat split.
    rewrite list_lookup_insert_ne; [exact Hk|]. intros <-. congruence.
  - destruct (open_runs o !! j) as [[g []]|] eqn:Hj; try discriminate.
    injection Hstep as <-. cbn. rewrite length_insert. repeat split.
    rewrite list_lookup_insert_ne; [exact Hk|]. intros <-. congruence.
Qed.

(** X16: a failed opening is final until [close()].  If [_openDB()] has
    thrown for the current promise [dbP], then whatever happens next short of
    a [close()]: [open()] does not start [_openDB()] again, and the promise
    it returns stays unresolved ([open()] registers no reaction for the
    rejection of [_openDB()], so that the promise is not rejected either). *)
Theorem failed_open_is_final
    (labels more : list life_label) (o o' : sqlite_object) (k : nat) :
  life_run labels new_object = Some o ->
  open_runs o !! k = Some (mkRun (dbP o) OpenFailed) ->
  existsb is_CallClose more = false ->
  life_run more o = Some o' ->
  (open o').1 = o'
  /\ (open o').2 = (open o).2
  /\ ((open o').2 ∉ resolved o')
  /\ length (open_runs o') = length (open_runs o).
Proof.
  intros Hrun Hk Hmore Hrun'.
  pose proof (life_run_keeps_inv _ _ _ life_inv_new Hrun) as Hinv.
  assert (life_inv o' /\ dbP o' = dbP o
          /\ open_runs o' !! k = Some (mkRun (dbP o') OpenFailed)
          /\ length (open_runs o') = length (open_runs o)) as (Hinv' & Hp & Hk' & Hlen).
  { clear Hrun. revert o Hinv Hk Hmore Hrun'.
    induction more as [|lbl more IH]; intros o Hinv Hk Hmore Hrun'; cbn [life_run] in Hrun'.
    - injection Hrun' as <-. auto.
    - destruct (life_step lbl o) as [o1|] eqn:Hstep; [|discriminate].
      cbn [existsb] in Hmore. apply orb_false_iff in Hmore as [Hl Hmore].
      destruct (failed_step _ _ _ _ Hinv Hstep Hl Hk) as (E1 & E2 & E3).
      destruct (IH o1 (life_step_keeps_inv _ _ _ Hinv Hstep) E2 Hmore Hrun')
        as (I1 & I2 & I3 & I4).
      split; [exact I1|]. split; [congruence|]. split; [exact I3 | congruence]. }
  assert (forall x, (open x).2 = dbP x) as Hopen
    by (intros x; unfold open; now destruct (_resolveDbP x)).
  rewrite !Hopen.
  assert (_resolveDbP o' = None) as Hnone.
  { pose proof (life_resolver o' Hinv') as Hres.
    destruct (_resolveDbP o') as [g|]; [|reflexivity].
    destruct Hres as [-> Hnew]. exfalso. apply Hnew.
    apply list_elem_of_fmap. exists (mkRun (dbP o') OpenFailed).
    split; [reflexivity|]. eapply list_elem_of_lookup_2. exact Hk'. }
  split; [unfold open; now rewrite Hnone|]. split; [exact Hp|]. split; [|exact Hlen].
  intros Hres. apply (life_resolved o' Hinv') in Hres.
  apply list_elem_of_lookup in Hres as [j Hj].
  assert (j = k) as ->.
  { pose proof (life_nodup o' Hinv') as Hnd.
    eapply (NoDup_lookup _ j k (dbP o')); [exact Hnd| |];
      rewrite list_lookup_fmap; [rewrite Hj|rewrite Hk']; reflexivity. }
  congruence.
Qed.

Lemma failed_open_is_final_witness :
  exists o',
    life_run [CallOpen; OpenDBThrows 0] new_object
    = Some (mkObject 0 None (Some 0) None 1 [] [mkRun 0 OpenFailed])
    /\ life_run [CallOpen; CallOpen] (mkObject 0 None (Some 0) None 1 [] [mkRun 0 OpenFailed])
       = Some o'
    /\ ((open o').2 ∉ resolved o') /\ length (open_runs o') = 1.
Proof.
  eassert (life_run [CallOpen; CallOpen]
             (mkObject 0 None (Some 0) None 1 [] [mkRun 0 OpenFailed]) = Some _)
    as Hmore by (vm_compute; reflexivity).
  eexists. split; [vm_compute; reflexivity|]. split; [exact Hmore|].
  destruct (failed_open_is_final [CallOpen; OpenDBThrows 0] [CallOpen; CallOpen]
              _ _ 0 eq_refl eq_refl eq_refl Hmore) as (_ & _ & H3 & H4).
  split; [exact H3 | exact H4].
Defined.

(** X17: [close()] does not cancel an opening that is under way.  If
    [close()] is called while a run of [_openDB()] is pending, the run still
    installs its handle in [this._sqlite] when it returns, after the close.
    The promise [dbP] is by then a new one and is not resolved, so that the
    next [open()] starts [_openDB()] once more, on top of the handle that is
    there. *)
Theorem close_does_not_cancel_a_pending_open
    (labels : list life_label) (o : sqlite_object) (k g : nat) :
  life_run labels new_object = Some o ->
  open_runs o !! k = Some (mkRun g OpenPending) ->
  exists o',
    life_run [CallClose; OpenDBReturns k] o = Some o'
    /\ _sqlite o' = Some k
    /\ ((open o').2 ∉ resolved o')
    /\ length (open_runs (open o').1) = S (length (open_runs o')).
Proof.
  intros Hrun Hk.
  pose proof (life_run_keeps_inv _ _ _ life_inv_new Hrun) as Hinv.
  eexists. split; [cbn [life_run life_step close open_runs]; rewrite Hk; reflexivity|].
  split; [reflexivity|]. unfold open. cbn. split.
  - intros Hres. apply (life_resolved o Hinv) in Hres.
    pose proof (life_bound o Hinv) as Hb. rewrite Forall_forall in Hb.
    specialize (Hb _ Hres). cbn in Hb. lia.
  - rewrite length_app, length_insert. cbn. lia.
Qed.

Lemma close_does_not_cancel_a_pending_open_witness :
  exists o',
    life_run [CallOpen; CallClose; OpenDBReturns 0] new_object = Some o'
    /\ _sqlite o' = Some 0
    /\ ((open o').2 ∉ resolved o')
    /\ length (open_runs (open o').1) = 2.
Proof.
  destruct (close_does_not_cancel_a_pending_open [CallOpen] _ 0 0 eq_refl eq_refl)
    as (o' & Hrun & H1 & H2 & H3).
  exists o'. split; [exact Hrun|]. split; [exact H1|]. split; [exact H2|].
  rewrite H3. injection Hrun as <-. reflexivity.
Defined.

(** ** The sub-events of the test 'work' *)

Lemma type_is_eqb t e c : ev_type e = Some c -> type_is t e = String.eqb c t.
Proof.
  intros H. unfold type_is. rewrite H.
  destruct (String.eqb_spec c t) as [->|Hne].
  - now apply bool_decide_eq_true_2.
  - apply bool_decide_eq_false_2. congruence.
Qed.

Lemma state_eta s : mkState (tables s) (version s) = s.
Proof. now destruct s. Qed.

Lemma work_preprocess s isMain e c :
  ev_type e = Some c ->
  preprocess Work.models s isMain e []
  = inr (e, if String.eqb c "hi" || String.eqb c "pre"
            then [request ("pre-" +:+ c)] else []).
Proof.
  intros Ht.
  assert (forall ctx, ctx_event ctx = e ->
            Work.preprocessor ctx
            = mkPre e PreNothing
                (if String.eqb c "hi" || String.eqb c "pre"
                 then [request ("pre-" +:+ c)] else [])) as Hp.
  { intros ctx <-. unfold Work.preprocessor, Work.type_text.
    now rewrite !(type_is_eqb _ _ _ Ht), Ht. }
  cbn [preprocess Work.models preprocessor fst snd].
  rewrite Hp by reflexivity.
  cbn [pre_returned effective_event pre_event pre_dispatched app].
  rewrite bool_decide_eq_true_2 by reflexivity. cbn [negb]. now rewrite Ht.
Qed.

Lemma work_reduce s isMain e c :
  ev_type e = Some c ->
  reduce Work.models s isMain e [] []
  = inr ([("foo",
           mkReduction [[("id", JStr c)]] [] [] []
             (if String.eqb c "hi" || String.eqb c "red"
              then [request ("red-out-" +:+ c)] else []))],
         if String.eqb c "hi" || String.eqb c "red"
         then [request ("red-" +:+ c); request ("red-out-" +:+ c)] else []).
Proof.
  intros Ht. cbn [reduce Work.models reducer]. unfold Work.reducer. cbn [ctx_event].
  rewrite !(type_is_eqb _ _ _ Ht). unfold Work.type_text, Work.type_id. rewrite Ht.
  cbn [default]. destruct (String.eqb c "hi" || String.eqb c "red"); reflexivity.
Qed.

Lemma work_apply s isMain e c evs :
  _applyEvent Work.models s
    (with_result (Some [("foo", mkReduction [[("id", JStr c)]] [] [] [] evs)]) e) isMain
  = inr ((if isMain then set_version (ev_v e) else id) (put_row c s)).
Proof.
  unfold _applyEvent. cbn [with_result ev_result default apply_models Work.models
    lookup_result]. 
  change (String.eqb "foo" "foo") with true. cbv iota.
  unfold apply_reduction. cbn [red_rm red_ins red_set red_upd apply_rm fold_left apply_ins
    apply_set apply_upd mbind option_bind row_id obj_get].
  change (String.eqb "id" "id") with true. cbv iota.
  cbn [JS.ToString apply_set mbind option_bind apply_upd ev_v].
  destruct isMain; reflexivity.
Qed.

Lemma work_derive s isMain e c :
  ev_type e = Some c ->
  derive Work.models s isMain e []
  = inr (s, if String.eqb c "hi" || String.eqb c "der"
            then [request ("der-" +:+ c)] else []).
Proof.
  intros Ht. cbn [derive Work.models deriver]. unfold Work.deriver. cbn [ctx_event ctx_store].
  rewrite !(type_is_eqb _ _ _ Ht), state_eta. unfold Work.type_text. rewrite Ht.
  reflexivity.
Qed.

(** One node of the tree of the test: its phases, and the children they
    ask for. *)
Lemma work_node depth path isMain s e c :
  ev_type e = Some c ->
  handle (S depth) Work.models path isMain s e
  = let e2 :=
      with_result
        (Some [("foo",
                mkReduction [[("id", JStr c)]] [] [] []
                  (if String.eqb c "hi" || String.eqb c "red"
                   then [request ("red-out-" +:+ c)] else []))])
        (with_events None e) in
    match handle_children
            (fun st child =>
               handle depth Work.models (path ++ [default EmptyString (ev_type child)])
                 false st child)
            ((if isMain then set_version (ev_v e) else id) (put_row c s))
            (map (child_event e2) (map request (Work.sub_events c))) with
    | (s3, dones, err, visited) =>
        (s3,
         with_error err
           (with_events (match Work.sub_events c with [] => None | _ => Some dones end) e2),
         c :: visited)
    end.
Proof.
  intros Ht. rewrite handle_S.
  assert (ev_type (with_events None e) = Some c) as Ht0 by exact Ht.
  rewrite (work_preprocess _ _ _ _ Ht0), (work_reduce _ _ _ _ Ht0).
  cbv zeta. rewrite work_apply.
  rewrite (work_derive _ _ _ c) by exact Ht.
  unfold Work.sub_events. cbn [with_result with_events ev_type ev_v default].
  rewrite Ht.
  destruct (String.eqb c "hi"), (String.eqb c "pre"), (String.eqb c "red"),
    (String.eqb c "der"); reflexivity.
Qed.

Lemma work_no_sub_events x :
  Work.sub_events x = [] ->
  String.eqb x "hi" || String.eqb x "pre" = false
  /\ String.eqb x "hi" || String.eqb x "red" = false
  /\ String.eqb x "hi" || String.eqb x "der" = false.
Proof.
  unfold Work.sub_events.
  destruct (String.eqb x "hi" || String.eqb x "pre"); [discriminate|].
  destruct (String.eqb x "hi" || String.eqb x "red"); [discriminate|].
  destruct (String.eqb x "hi" || String.eqb x "der"); [discriminate|]. auto.
Qed.

Lemma work_sub_events_are_leaves c x :
  x ∈ Work.sub_events c -> Work.sub_events x = [].
Proof.
  unfold Work.sub_events at 1.
  destruct (String.eqb_spec c "hi") as [->|Hhi].
  { cbn. rewrite !elem_of_cons, elem_of_nil. intros [->|[->|[->|[->|[]]]]]; reflexivity. }
  destruct (String.eqb_spec c "pre") as [->|Hpre].
  { cbn. rewrite !elem_of_cons, elem_of_nil. intros [->|[]]; reflexivity. }
  destruct (String.eqb_spec c "red") as [->|Hred].
  { cbn. rewrite !elem_of_cons, elem_of_nil. intros [->|[->|[]]]; reflexivity. }
  destruct (String.eqb_spec c "der") as [->|Hder].
  { cbn. rewrite !elem_of_cons, elem_of_nil. intros [->|[]]; reflexivity. }
  cbn. now intros H%elem_of_nil.
Qed.

Lemma work_leaves depth path parent xs : forall s,
  Forall (fun x => Work.sub_events x = []) xs ->
  handle_children
    (fun st child =>
       handle (S depth) Work.models (path ++ [default EmptyString (ev_type child)])
         false st child)
    s (map (child_event parent) (map request xs))
  = (fold_left (fun st x => put_row x st) xs s,
     map (fun x =>
            with_result (Some [("foo", mkReduction [[("id", JStr x)]] [] [] [] [])])
              (child_event parent (request x))) xs,
     None, xs).
Proof.
  induction xs as [|x xs IH]; intros s Hleaf; [reflexivity|].
  apply Forall_cons in Hleaf as [Hx Hleaf].
  cbn [map handle_children].
  rewrite (work_node depth _ false s (child_event parent (request x)) x) by reflexivity.
  destruct (work_no_sub_events x Hx) as (_ & Hred & _).
  rewrite Hx, Hred. cbn [map handle_children with_error with_events with_result ev_error
    child_event ev_v ev_type ev_ts ev_data ev_result ev_events request d_type d_data id].
  rewrite (IH _ Hleaf). reflexivity.
Qed.

Lemma table_of_with_table name t s : table_of name (with_table name t s) = t.
Proof. unfold table_of, with_table. cbn [tables]. now rewrite lookup_insert_eq. Qed.

Lemma has_row_put key c s : c = key \/ has_row key s -> has_row key (put_row c s).
Proof.
  unfold has_row, put_row, model_get. rewrite table_of_with_table.
  destruct (decide (c = key)) as [->|Hne].
  - intros _. now rewrite lookup_insert_eq.
  - intros [H|H]; [contradiction|]. now rewrite lookup_insert_ne.
Qed.

Lemma has_row_put_all key xs : forall s,
  key ∈ xs \/ has_row key s -> has_row key (fold_left (fun st x => put_row x st) xs s).
Proof.
  induction xs as [|x xs IH]; intros s H; cbn [fold_left].
  - destruct H as [H|H]; [now apply elem_of_nil in H | exact H].
  - apply IH. destruct H as [H|H].
    + apply elem_of_cons in H as [->|H]; [right; apply has_row_put; auto | auto].
    + right. apply has_row_put. auto.
Qed.

Lemma version_put_all xs : forall s,
  version (fold_left (fun st x => put_row x st) xs s) = version s.
Proof. induction xs as [|x xs IH]; intros s; cbn [fold_left]; [reflexivity|]. now rewrite IH. Qed.

(** X18: the test 'work', for any type and any state of the database.  A
    root event of type [t] is handled without error; it gets the sub-events
    that its preprocessor, its reducer (by [dispatch] and by the [events] of
    its reduction) and its deriver ask for, in that order: four for [hi], one
    for [pre], two for [red], one for [der], none for any other type.  The
    sub-events have no sub-events of their own, and every event of the tree
    has left its row in the table [foo]. *)
Theorem work_sub_events_of_every_phase
    (s : db_state) (t : string) (v : nat) (ts : Z) (data : jsval) :
  let r := handle_root Work.models s (mkEvent (Some v) (Some t) ts data None None None) in
  ev_error r.2 = None
  /\ map ev_type (default [] (ev_events r.2)) = map Some (Work.sub_events t)
  /\ Forall (fun child => ev_events child = None) (default [] (ev_events r.2))
  /\ Forall (fun id => model_get "foo" id r.1 = Some [("id", JStr id)])
       (t :: Work.sub_events t)
  /\ version r.1 = v.
Proof.
  intros r. subst r. unfold handle_root.
  change (S MAX_DEPTH) with (S (S 99)).
  rewrite (work_node (S 99) [] true s
             (mkEvent (Some v) (Some t) ts data None None None) t eq_refl).
  cbv zeta.
  rewrite (work_leaves 99 [] _ (Work.sub_events t)).
  2:{ apply Forall_forall. intros x Hx. eapply work_sub_events_are_leaves. exact Hx. }
  cbn [with_error with_events with_result ev_error ev_v fst snd ev_events].
  split; [reflexivity|]. split; [|split; [|split]].
  - destruct (Work.sub_events t) as [|x xs]; [reflexivity|].
    cbn [default id]. rewrite map_map. reflexivity.
  - destruct (Work.sub_events t) as [|x xs]; [constructor|].
    cbn [default id]. apply Forall_forall. intros child Hc.
    apply list_elem_of_In, in_map_iff in Hc as (y & <- & _). reflexivity.
  - apply Forall_forall. intros key Hkey.
    apply has_row_put_all. apply elem_of_cons in Hkey as [->|Hkey]; [right|left; exact Hkey].
    apply (has_row_put t t s). auto.
  - now rewrite version_put_all.
Qed.

Lemma waiting_time_busy q r n : forall d,
  list_sum (omap (fun e => match e with BusyWait ms => Some ms | _ => None end)
              (busy_effects q r d n)) <= 1199 * n.
Proof.
  induction n as [|n IH]; intros d; [cbn; lia|].
  cbn [busy_effects]. specialize (IH (S d)).
  set (f := fun e => match e with BusyWait ms => Some ms | _ => None end) in *.
  change (omap f (Issue q :: BusyWait (busy_delay (r d)) :: busy_effects q r (S d) n))
    with (busy_delay (r d) :: omap f (busy_effects q r (S d) n)).
  change (list_sum (busy_delay (r d) :: omap f (busy_effects q r (S d) n)))
    with (busy_delay (r d) + list_sum (omap f (busy_effects q r (S d) n))).
  unfold busy_delay. pose proof (Nat.mod_upper_bound (r d) 1000). lia.
Qed.

Lemma waiting_time_exec q c :
  waiting_time (exec q c).2 <= waiting_time c + 1199 * RETRY_COUNT.
Proof.
  destruct (call_loop_settles q RETRY_COUNT c) as (j & Hj & _ & Hc & _).
  assert ((exec q c).2 = issue q (after_busy q j c)) as ->.
  { unfold exec, mbind, M_bind, bind, _call, mret, M_ret, ret.
    destruct (call_loop q RETRY_COUNT c) as [[out|err] c1]; exact Hc. }
  unfold waiting_time, waits. cbn [issue after_busy effects].
  rewrite !omap_app, !list_sum_app. cbn.
  pose proof (waiting_time_busy q (random c) j (drawn c)). unfold RETRY_COUNT in *. lia.
Qed.

Lemma waiting_time_wait c : waiting_time (wait c) <= waiting_time c + 1199.
Proof.
  unfold waiting_time, waits, wait. cbn [effects]. rewrite omap_app, list_sum_app. cbn.
  unfold busy_delay. pose proof (Nat.mod_upper_bound (random c (drawn c)) 1000). lia.
Qed.

Lemma waiting_time_emit s c : waiting_time (record_effect (Emit s) c) = waiting_time c.
Proof. unfold waiting_time. now destruct (views_emit s c) as (_ & -> & _). Qed.

Lemma waiting_time_begin n : forall c,
  waiting_time (begin_transaction n c).2
  <= waiting_time c + 1199 * (RETRY_COUNT * S n + n).
Proof.
  induction n as [|n IH]; intros c; rewrite begin_transaction_eq;
    pose proof (waiting_time_exec BEGIN_IMMEDIATE (set_inTransaction true c)) as He;
    change (waiting_time (set_inTransaction true c)) with (waiting_time c) in He;
    destruct (exec BEGIN_IMMEDIATE (set_inTransaction true c)) as [[[]|err] c1];
    cbn [fst snd] in *; unfold RETRY_COUNT in *.
  - rewrite waiting_time_emit. lia.
  - destruct (isBusyError err); cbn [snd];
      change (waiting_time (set_inTransaction false c1)) with (waiting_time c1); lia.
  - rewrite waiting_time_emit. lia.
  - destruct (isBusyError err).
    + specialize (IH (wait c1)). pose proof (waiting_time_wait c1). lia.
    + cbn [snd]. change (waiting_time (set_inTransaction false c1)) with (waiting_time c1).
      lia.
Qed.

(** X19: the time a call can spend waiting for a busy database is bounded.
    Whatever the driver answers, [_call] waits less than 12 seconds in all
    (at most ten waits of less than 1.2 s each), and [__withTransaction]
    less than 144 seconds before [fn] runs or the call rejects (at most 120
    waits: ten for each of the eleven attempts at [BEGIN IMMEDIATE], and one
    between two attempts). *)
Theorem busy_waiting_is_bounded (q : string) (c : conn) :
  waiting_time (_call q c).2 < waiting_time c + 12 * 1000
  /\ exists c1,
       waiting_time c1 < waiting_time c + 144 * 1000
       /\ ((forall fn,
              __withTransaction fn RETRY_COUNT c
              = (outcome ← attempt fn; end_transaction outcome) c1)
           \/ (exists error,
                 forall fn, __withTransaction fn RETRY_COUNT c = (Rejected error, c1))).
Proof.
  split.
  - pose proof (waiting_time_exec q c) as H.
    assert ((exec q c).2 = (_call q c).2) as <-.
    { unfold exec, mbind, M_bind, bind, mret, M_ret, ret.
      now destruct (_call q c) as [[out|err] c1]. }
    unfold RETRY_COUNT in *. lia.
  - exists (begin_transaction RETRY_COUNT c).2. split.
    + pose proof (waiting_time_begin RETRY_COUNT c) as H. unfold RETRY_COUNT in *. lia.
    + destruct (begin_transaction RETRY_COUNT c) as [[[]|error] c1] eqn:Hb; cbn [snd].
      * left. intros fn. rewrite withTransaction_split.
        unfold mbind at 1, M_bind at 1, bind at 1. now rewrite Hb.
      * right. exists error. intros fn. rewrite withTransaction_split.
        unfold mbind at 1, M_bind at 1, bind at 1. now rewrite Hb.
Qed.

(** X20: [valToSql] is what makes a [LIT] interpolation safe.  Take a
    template in which the text after [LIT] starts neither with a word
    character (so that [LIT] is a whole word) nor with a single quote.  A
    value passed through [valToSql] and then interpolated with [LIT] is
    pasted into the statement as one SQL string literal: the lexer reads
    back exactly the original text, and the rest of the template follows it
    untouched. *)
Theorem valToSql_makes_LIT_safe (before rest : string) (v : jsval) :
  written_as_string v = true ->
  word_boundary rest = true ->
  starts_with_squote rest = false ->
  sql [before; "LIT" +:+ rest] [JStr (valToSql v)]
  = Some (JStr (before +:+ valToSql v +:+ rest), [])
  /\ read_sql_string (valToSql v +:+ rest) = Some (JS.ToString v, rest).
Proof.
  intros Hv Hw Hq. split.
  - assert (find_modifier ("LIT" +:+ rest) = Some (ModLIT, rest)) as Hm.
    { unfold find_modifier.
      assert (match_modifier ModLIT (modifier_text ModLIT +:+ rest) = Some (ModLIT, rest))
        as H by now apply match_modifier_app.
      cbn [modifier_text] in H. rewrite H. reflexivity. }
    unfold sql. cbn [sql_loop hd tl]. rewrite Hm. cbn [JS.ToString].
    now rewrite append_assoc.
  - assert (valToSql v
            = JS.SQ +:+ JS.replace_char JS.squote (JS.SQ +:+ JS.SQ) (JS.ToString v) +:+ JS.SQ)
      as -> by (destruct v; try discriminate Hv; reflexivity).
    rewrite !append_assoc. unfold JS.SQ at 1.
    rewrite append_cons, append_nil_l. cbn [read_sql_string].
    change (Ascii.eqb JS.squote JS.squote) with true. cbv iota.
    now apply read_literal_body_escaped.
Qed.

Lemma valToSql_makes_LIT_safe_witness :
  sql ["select * from t where name = "; "LIT and x = 1"] [JStr (valToSql (JStr "O'Neil"))]
  = Some (JStr "select * from t where name = 'O''Neil' and x = 1", [])
  /\ read_sql_string ("'O''Neil'" +:+ " and x = 1") = Some ("O'Neil", " and x = 1").
Proof.
  exact (valToSql_makes_LIT_safe "select * from t where name = " " and x = 1"
           (JStr "O'Neil") eq_refl eq_refl eq_refl).
Defined.

Lemma serial_prefix ch :
  serial ch = true ->
  List.filter (fun l => negb (is_chained (link_phase l))) ch
  = take (length (List.filter (fun l => negb (is_chained (link_phase l))) ch)) ch.
Proof.
  induction ch as [|l ch IH]; [reflexivity|]. cbn [serial List.filter].
  assert (forallb (fun l' => is_chained (link_phase l')) ch = true ->
          List.filter (fun l => negb (is_chained (link_phase l))) ch = []) as Hnone.
  { clear. induction ch as [|x ch IH]; [reflexivity|]. cbn.
    intros [Hx Hr]%andb_true_iff. rewrite Hx. cbn. auto. }
  destruct (link_phase l) as [| |outcome]; cbn [is_chained negb].
  - intros H. now rewrite (Hnone H).
  - intros H. now rewrite (Hnone H).
  - intros H. cbn [length take]. f_equal. auto.
Qed.

(** X21: transactions are attempted strictly in the order of the chain.  At
    every moment the calls whose transaction has been entered ([fn] called,
    or [BEGIN IMMEDIATE] failed for good) are, in the order it happened, an
    initial stretch of the chain [transactionP]: no link is skipped and none
    is entered before the link in front of it. *)
Theorem transactions_start_in_chain_order
    (c : conn) (ro opened : bool) (labels : list label) (p : process) :
  run labels (new_process c ro opened) = Some p ->
  entered (history p)
  = take (length (entered (history p))) (map link_call (chain p)).
Proof.
  intros Hrun. pose proof (reachable_inv _ _ _ _ _ Hrun) as Hinv.
  rewrite (inv_entered p Hinv), length_map.
  rewrite (serial_prefix _ (inv_serial p Hinv)) at 1.
  symmetry. apply firstn_map.
Qed.

Lemma transactions_start_in_chain_order_witness :
  exists p,
    run [Call fn_throws; Call fn_returns; Call fn_returns; Start 0; Finish 0; Start 1]
      (new_process healthy_conn false true) = Some p
    /\ entered (history p) = [0; 1]
    /\ map link_call (chain p) = [0; 1; 2].
Proof.
  eassert (run [Call fn_throws; Call fn_returns; Call fn_returns; Start 0; Finish 0; Start 1]
             (new_process healthy_conn false true) = Some _)
    as Hrun by (vm_compute; reflexivity).
  pose proof (transactions_start_in_chain_order _ _ _ _ _ Hrun) as H.
  eexists. split; [exact Hrun|]. split; [|vm_compute; reflexivity].
  rewrite H. vm_compute. reflexivity.
Defined.

(** X22: a transaction is closed by one statement, the right one.  Once
    [fn] has settled, [__withTransaction] issues [END] if [fn] returned and
    [ROLLBACK] if it threw, never the other one and nothing else: the
    statement is issued between once and eleven times (busy retries), and
    that is all the wrapper adds to what [fn] left on the connection. *)
Theorem transaction_closes_with_one_statement (fn : M jsval) (c0 : conn) :
  exists j,
    1 <= j <= S RETRY_COUNT
    /\ statements ((outcome ← attempt fn; end_transaction outcome) c0).2
       = statements (fn c0).2 ++ repeat (closing_statement (fn c0).1) j.
Proof.
  unfold mbind, M_bind, bind, attempt.
  destruct (fn c0) as [outcome c1]. cbn [fst snd].
  rewrite end_transaction_closing.
  destruct (exec_views (closing_statement outcome) c1) as (_ & _ & j & Hj & Hst & _).
  exists (S j). split; [lia|].
  destruct (exec (closing_statement outcome) c1) as [[[]|e] c2]; cbn [snd] in Hst |- *.
  - destruct (views_emit "finally"
                (record_effect
                   (Emit match outcome with Fulfilled _ => "end" | Rejected _ => "rollback" end)
                   (set_inTransaction false c2))) as (-> & _).
    destruct (views_emit match outcome with Fulfilled _ => "end" | Rejected _ => "rollback" end
                (set_inTransaction false c2)) as (-> & _).
    exact Hst.
  - exact Hst.
Qed.
